(** * lightweight-tunnel: raw-socket framing, FEC block codec, firewall
      coordinator and MTU discovery, embedded and verified.

    Source packages covered:
    - [pkg/rawsocket/rawsocket.go]   (module [RawSocket])
    - [pkg/fec]                      (module [FEC])
    - [pkg/iptables/iptables.go]     (module [IPTables])
    - [pkg/tunnel/mtu_discovery.go]  (module [MTU])

    Go [int] values are modelled as [Z] (all quantities that occur stay far
    below 2^63), [uint8]/[uint16]/[uint32] arithmetic has its wrap-around
    written out, and byte slices are [list byte]. *)

From Stdlib Require Import ZArith Lia.
From Stdlib.Strings Require Import Byte Ascii.
From stdpp Require Import base list strings pretty.

Local Open Scope Z_scope.

(** ** Bytes and fixed-width integers *)

Module Bytes.

Definition wrap8 (z : Z) : Z := z mod 256.
Definition wrap16 (z : Z) : Z := z mod 65536.
Definition wrap32 (z : Z) : Z := z mod 4294967296.

#[global] Instance byte_eq_dec : EqDecision byte := Byte.byte_eq_dec.

(** [uint32(b)], [int(b)] for a byte [b]. *)
Definition u8 (b : byte) : Z := Z.of_N (Byte.to_N b).

(** [byte(z)] / [uint8(z)]: truncating conversion. *)
Definition to_byte (z : Z) : byte :=
  default Byte.x00 (Byte.of_N (Z.to_N (wrap8 z))).

(** [make([]byte, n)] *)
Definition make (n : Z) : list byte := replicate (Z.to_nat n) Byte.x00.

(** [len(s)] as a Go [int]. *)
Definition len {A} (s : list A) : Z := Z.of_nat (length s).

(** [copy(dst, src)]: overwrites the first [min(len dst, len src)] elements
    of [dst]; the result is the new content of [dst]. *)
Definition copy {A} (dst src : list A) : list A :=
  take (length dst) src ++ drop (length src) dst.

(** [copy(buf[lo:hi], src)] seen from [buf], for in-range [lo <= hi]. *)
Definition copy_at {A} (lo hi : nat) (src : list A) (buf : list A) : list A :=
  list_inserts lo (take (hi - lo) src) buf.

(** [copy(buf[lo:], src)] seen from [buf]. *)
Definition copy_from {A} (lo : nat) (src : list A) (buf : list A) : list A :=
  copy_at lo (length buf) src buf.

(** [binary.BigEndian.PutUint16(buf[off:off+2], v)] *)
Definition PutUint16 (off : nat) (v : Z) (buf : list byte) : list byte :=
  <[S off := to_byte v]> (<[off := to_byte (Z.shiftr v 8)]> buf).

(** [binary.BigEndian.PutUint32(buf[off:off+4], v)] *)
Definition PutUint32 (off : nat) (v : Z) (buf : list byte) : list byte :=
  <[S (S (S off)) := to_byte v]>
    (<[S (S off) := to_byte (Z.shiftr v 8)]>
       (<[S off := to_byte (Z.shiftr v 16)]>
          (<[off := to_byte (Z.shiftr v 24)]> buf))).

(** [binary.BigEndian.Uint16] on the two bytes [hi lo]. *)
Definition Uint16 (hi lo : byte) : Z := Z.lor (Z.shiftl (u8 hi) 8) (u8 lo).

(** [binary.BigEndian.Uint32] on four bytes. *)
Definition Uint32 (b0 b1 b2 b3 : byte) : Z :=
  Z.lor (Z.lor (Z.lor (Z.shiftl (u8 b0) 24) (Z.shiftl (u8 b1) 16))
               (Z.shiftl (u8 b2) 8)) (u8 b3).

End Bytes.

(** ** pkg/rawsocket: hand-built IPv4 and TCP headers *)

Module RawSocket.
Import Bytes.

Definition IPPROTO_TCP : Z := 6.
Definition IP_DF : Z := 0x4000.
Definition TCPHeaderSize : Z := 20.
Definition IPHeaderSize : Z := 20.

(** [net.IP] is a byte slice (4 bytes, 16 bytes, or anything else). *)
Definition IP : Type := list byte.

Definition v4InV6Prefix : list byte :=
  replicate 10 Byte.x00 ++ [Byte.xff; Byte.xff].

(** [net.IP.To4]: the 4-byte form, or [nil] when the address is not IPv4. *)
Definition To4 (ip : IP) : list byte :=
  if (length ip =? 4)%nat then ip
  else if (length ip =? 16)%nat && bool_decide (take 12 ip = v4InV6Prefix)
       then drop 12 ip
       else [].

(** [net.IPv4(a, b, c, d)]: the 16-byte form of an IPv4 address. *)
Definition IPv4 (a b c d : byte) : IP := v4InV6Prefix ++ [a; b; c; d].

(** The first loop of [CalculateChecksum]:
    [for i := 0; i < len(data)-1; i += 2 { sum += uint32(Uint16(data[i:i+2])) }]
    with [sum] a [uint32]. *)
Fixpoint sum_words (data : list byte) (sum : Z) : Z :=
  match data with
  | hi :: lo :: rest => sum_words rest (wrap32 (sum + Uint16 hi lo))
  | _ => sum
  end.

(** The folding loop [for sum>>16 != 0 { sum = (sum & 0xFFFF) + (sum >> 16) }],
    unrolled [fuel] times; [fold_carries_done] shows that two rounds reach
    the exit condition for every [uint32]. *)
Fixpoint fold_carries (fuel : nat) (sum : Z) : Z :=
  match fuel with
  | O => sum
  | S k =>
      if Z.shiftr sum 16 =? 0 then sum
      else fold_carries k (wrap32 (Z.land sum 0xFFFF + Z.shiftr sum 16))
  end.

Definition CalculateChecksum (data : list byte) : Z :=
  let sum := sum_words data 0 in
  let sum :=
    if Z.rem (len data) 2 =? 1
    then wrap32 (sum + Z.shiftl (u8 (default Byte.x00 (last data))) 8)
    else sum in
  let sum := fold_carries 2 sum in
  Z.lxor (wrap16 sum) 0xFFFF.

Definition BuildIPHeader (srcIP dstIP : IP) (protocol : byte) (payloadLen : Z)
  : list byte :=
  let header := make IPHeaderSize in
  let header := <[0%nat := to_byte 0x45]> header in
  let header := <[1%nat := to_byte 0]> header in
  let totalLen := IPHeaderSize + payloadLen in
  let header := PutUint16 2 (wrap16 totalLen) header in
  let header := PutUint16 4 (wrap16 12345) header in
  let header := PutUint16 6 IP_DF header in
  let header := <[8%nat := to_byte 64]> header in
  let header := <[9%nat := protocol]> header in
  let header := <[10%nat := to_byte 0]> header in
  let header := <[11%nat := to_byte 0]> header in
  let header := copy_at 12 16 (To4 srcIP) header in
  let header := copy_at 16 20 (To4 dstIP) header in
  let checksum := CalculateChecksum header in
  PutUint16 10 checksum header.

(** The options after [BuildTCPHeader] has padded them to a 4-byte boundary. *)
Definition pad_options (options : list byte) : list byte :=
  let optLen := len options in
  if negb (Z.rem optLen 4 =? 0)
  then let padding := 4 - Z.rem optLen 4 in options ++ make padding
  else options.

Definition BuildTCPHeader (srcPort dstPort seq ack : Z) (flags : byte)
    (window : Z) (options : list byte) : list byte :=
  let options := pad_options options in
  let optLen := len options in
  let headerLen := TCPHeaderSize + optLen in
  let header := make headerLen in
  let header := PutUint16 0 srcPort header in
  let header := PutUint16 2 dstPort header in
  let header := PutUint32 4 seq header in
  let header := PutUint32 8 ack header in
  let dataOffset := wrap8 (Z.quot headerLen 4) in
  let header := <[12%nat := to_byte (wrap8 (Z.shiftl dataOffset 4))]> header in
  let header := <[13%nat := flags]> header in
  let header := PutUint16 14 window header in
  let header := <[16%nat := to_byte 0]> header in
  let header := <[17%nat := to_byte 0]> header in
  let header := <[18%nat := to_byte 0]> header in
  let header := <[19%nat := to_byte 0]> header in
  if 0 <? optLen then copy_from (Z.to_nat TCPHeaderSize) options header
  else header.

(** The 12-byte pseudo header of [CalculateTCPChecksum]. *)
Definition pseudo_header (srcIP dstIP : IP) (tcpLen : Z) : list byte :=
  let pseudoHeader := make 12 in
  let pseudoHeader := copy_at 0 4 (To4 srcIP) pseudoHeader in
  let pseudoHeader := copy_at 4 8 (To4 dstIP) pseudoHeader in
  let pseudoHeader := <[8%nat := to_byte 0]> pseudoHeader in
  let pseudoHeader := <[9%nat := to_byte IPPROTO_TCP]> pseudoHeader in
  PutUint16 10 (wrap16 tcpLen) pseudoHeader.

(** The buffer [data] that [CalculateTCPChecksum] sums. *)
Definition checksum_input (srcIP dstIP : IP) (tcpHeader payload : list byte)
  : list byte :=
  let pseudoHeader := pseudo_header srcIP dstIP (len tcpHeader + len payload) in
  let data := make (len pseudoHeader + len tcpHeader + len payload) in
  let data := copy_from 0 pseudoHeader data in
  let data := copy_from (length pseudoHeader) tcpHeader data in
  copy_from (length pseudoHeader + length tcpHeader) payload data.

Definition CalculateTCPChecksum (srcIP dstIP : IP) (tcpHeader payload : list byte)
  : Z :=
  CalculateChecksum (checksum_input srcIP dstIP tcpHeader payload).

(** What [SendPacket] hands to [syscall.Sendto]: the final TCP header (with
    its checksum stored), the IP header and the whole datagram. *)
Definition segment_header (srcIP : IP) (srcPort : Z) (dstIP : IP) (dstPort : Z)
    (seq ack : Z) (flags : byte) (tcpOptions payload : list byte) : list byte :=
  let tcpHeader := BuildTCPHeader srcPort dstPort seq ack flags 65535 tcpOptions in
  let checksum := CalculateTCPChecksum srcIP dstIP tcpHeader payload in
  PutUint16 16 checksum tcpHeader.

Definition datagram (srcIP : IP) (srcPort : Z) (dstIP : IP) (dstPort : Z)
    (seq ack : Z) (flags : byte) (tcpOptions payload : list byte) : list byte :=
  let tcpHeader :=
    segment_header srcIP srcPort dstIP dstPort seq ack flags tcpOptions payload in
  let ipHeader :=
    BuildIPHeader srcIP dstIP (to_byte IPPROTO_TCP) (len tcpHeader + len payload) in
  let packet := make (len ipHeader + len tcpHeader + len payload) in
  let packet := copy_from 0 ipHeader packet in
  let packet := copy_from (length ipHeader) tcpHeader packet in
  copy_from (length ipHeader + length tcpHeader) payload packet.

(** Errors of the package ([fmt.Errorf] messages as constructors). *)
Inductive error : Type :=
| ErrSend (errno : Z)          (* "failed to send packet" *)
| ErrRecv (errno : Z)          (* "failed to receive packet" *)
| ErrPacketTooSmall (n : Z)    (* "packet too small: %d bytes" *)
| ErrInvalidIHL                (* "invalid IP header length" *)
| ErrNotTCP                    (* "not a TCP packet" *)
| ErrTooSmallForTCP.           (* "packet too small for TCP header" *)

(** [SendPacket]: [sendto packet addr] is the kernel's answer ([None] on
    success). The result is the error returned, with the datagram that was
    handed to the kernel. *)
Definition SendPacket (sendto : list byte -> list byte -> option Z)
    (srcIP : IP) (srcPort : Z) (dstIP : IP) (dstPort : Z)
    (seq ack : Z) (flags : byte) (tcpOptions payload : list byte)
  : option error * list byte :=
  let packet :=
    datagram srcIP srcPort dstIP dstPort seq ack flags tcpOptions payload in
  let addr := copy (make 4) (To4 dstIP) in
  match sendto packet addr with
  | Some errno => (Some (ErrSend errno), packet)
  | None => (None, packet)
  end.

(** Outcome of code that indexes slices: a value, a returned error, or a
    run-time panic (index or slice bounds out of range). *)
Inductive outcome (A : Type) : Type :=
| Ok (a : A)
| Err (e : error)
| Panic.
Arguments Ok {A} a.
Arguments Err {A} e.
Arguments Panic {A}.

#[global] Instance outcome_bind : MBind outcome := fun A B k m =>
  match m with
  | Ok a => k a
  | Err e => Err e
  | Panic => Panic
  end.

(** [s[lo:hi]] with its bounds check (the capacity is taken to be [len s]). *)
Definition slice (s : list byte) (lo hi : Z) : outcome (list byte) :=
  if (0 <=? lo) && (lo <=? hi) && (hi <=? len s)
  then Ok (take (Z.to_nat (hi - lo)) (drop (Z.to_nat lo) s))
  else Panic.

(** [s[i]] with its bounds check. *)
Definition index (s : list byte) (i : Z) : outcome byte :=
  if 0 <=? i then
    match s !! Z.to_nat i with
    | Some b => Ok b
    | None => Panic
    end
  else Panic.

(** The tuple returned by [RecvPacket] on success; [payload] is [None] for a
    nil slice. *)
Record segment : Type := {
  srcIP : IP;
  srcPort : Z;
  dstIP : IP;
  dstPort : Z;
  seq : Z;
  ack : Z;
  flags : byte;
  payload : option (list byte)
}.

(** [RecvPacket]: [buf] is the buffer after [syscall.Recvfrom] returned
    [rc] ([inl n] for [n] bytes received, [inr errno] on failure). *)
Definition RecvPacket (buf : list byte) (rc : Z + Z) : outcome segment :=
  match rc with
  | inr errno => Err (ErrRecv errno)
  | inl n =>
    if n <? IPHeaderSize + TCPHeaderSize then Err (ErrPacketTooSmall n) else
    ipHeader ← slice buf 0 IPHeaderSize;
    b0 ← index ipHeader 0;
    let ihl := wrap8 (Z.land (u8 b0) 0x0F * 4) in
    if n <? ihl then Err ErrInvalidIHL else
    protocol ← index ipHeader 9;
    if negb (u8 protocol =? IPPROTO_TCP) then Err ErrNotTCP else
    s0 ← index ipHeader 12; s1 ← index ipHeader 13;
    s2 ← index ipHeader 14; s3 ← index ipHeader 15;
    d0 ← index ipHeader 16; d1 ← index ipHeader 17;
    d2 ← index ipHeader 18; d3 ← index ipHeader 19;
    let srcIP := IPv4 s0 s1 s2 s3 in
    let dstIP := IPv4 d0 d1 d2 d3 in
    let tcpStart := ihl in
    if n <? tcpStart + TCPHeaderSize then Err ErrTooSmallForTCP else
    tcpHeader ← slice buf tcpStart (tcpStart + TCPHeaderSize);
    p0 ← index tcpHeader 0; p1 ← index tcpHeader 1;
    p2 ← index tcpHeader 2; p3 ← index tcpHeader 3;
    q0 ← index tcpHeader 4; q1 ← index tcpHeader 5;
    q2 ← index tcpHeader 6; q3 ← index tcpHeader 7;
    a0 ← index tcpHeader 8; a1 ← index tcpHeader 9;
    a2 ← index tcpHeader 10; a3 ← index tcpHeader 11;
    t12 ← index tcpHeader 12;
    let dataOffset := wrap8 (Z.shiftr (u8 t12) 4 * 4) in
    fl ← index tcpHeader 13;
    let payloadStart := tcpStart + dataOffset in
    pl ← (if payloadStart <? n
           then body ← slice buf payloadStart n;
                Ok (Some (copy (make (n - payloadStart)) body))
           else Ok None);
    Ok {| srcIP := srcIP; srcPort := Uint16 p0 p1;
          dstIP := dstIP; dstPort := Uint16 p2 p3;
          seq := Uint32 q0 q1 q2 q3; ack := Uint32 a0 a1 a2 a3;
          flags := fl; payload := pl |}
  end.

(** Header fields, read back the way a receiver reads them. *)
Definition byte_at (s : list byte) (i : nat) : byte := default Byte.x00 (s !! i).

Definition ip_header_len (h : list byte) : Z := Z.land (u8 (byte_at h 0)) 0x0F * 4.
Definition ip_version (h : list byte) : Z := Z.shiftr (u8 (byte_at h 0)) 4.
Definition ip_flags_fragment (h : list byte) : Z := Uint16 (byte_at h 6) (byte_at h 7).
Definition ip_ttl (h : list byte) : Z := u8 (byte_at h 8).
Definition ip_protocol (h : list byte) : Z := u8 (byte_at h 9).
Definition tcp_data_offset (h : list byte) : Z := Z.shiftr (u8 (byte_at h 12)) 4.
Definition tcp_window (h : list byte) : Z := Uint16 (byte_at h 14) (byte_at h 15).
Definition ip_total_length (h : list byte) : Z := Uint16 (byte_at h 2) (byte_at h 3).

(** The pseudo header and the TCP segment of a datagram, as the receiver of
    the datagram forms them to verify the TCP checksum: the source address,
    the destination address and the protocol are those of the IP header,
    the TCP length is the total length less the IP header length, and the
    segment is what follows the IP header. *)
Definition wire_tcp_length (packet : list byte) : Z :=
  ip_total_length packet - ip_header_len packet.

Definition wire_pseudo_header (packet : list byte) : list byte :=
  take 4 (drop 12 packet) ++ take 4 (drop 16 packet)
  ++ [Byte.x00; byte_at packet 9;
      to_byte (Z.shiftr (wire_tcp_length packet) 8);
      to_byte (wire_tcp_length packet)].

Definition wire_segment (packet : list byte) : list byte :=
  take (Z.to_nat (wire_tcp_length packet))
       (drop (Z.to_nat (ip_header_len packet)) packet).

(** [NewRawSocket] and the system calls it makes.  A [net.IP] argument may
    be nil ([None]). *)
Record RawSocket : Type := {
  fd : Z;
  localIP : option IP;
  localPort : Z;
  remoteIP : option IP;
  remotePort : Z;
  isServer : bool
}.

Inductive sockopt : Type := IP_HDRINCL | SO_RCVBUF | SO_SNDBUF.

Inductive syscall : Type :=
| Socket                                        (* AF_INET, SOCK_RAW, IPPROTO_TCP *)
| SetsockoptInt (fd : Z) (name : sockopt) (value : Z)
| SetNonblock (fd : Z) (nonblocking : bool)
| Bind (fd : Z) (port : Z) (addr : list byte)
| Close (fd : Z).

Inductive setup_error : Type :=
| ErrSocket (e : string)      (* "failed to create raw socket" *)
| ErrHdrIncl (e : string)     (* "failed to set IP_HDRINCL" *)
| ErrNonblock (e : string)    (* "failed to set non-blocking" *)
| ErrBind (e : string).       (* "failed to bind socket" *)

Section Kernel.
Context {World : Type}.

(** The kernel: the value and the error of a call, and the new state. *)
Variable sys : World -> syscall -> (Z * option string) * World.

Definition NewRawSocket (w : World) (localIP : option IP) (localPort : Z)
    (remoteIP : option IP) (remotePort : Z) (isServer : bool)
  : (setup_error + RawSocket) * World :=
  let '((fd, err), w) := sys w Socket in
  match err with
  | Some e => (inl (ErrSocket e), w)
  | None =>
  let '((_, err), w) := sys w (SetsockoptInt fd IP_HDRINCL 1) in
  match err with
  | Some e => let '(_, w) := sys w (Close fd) in (inl (ErrHdrIncl e), w)
  | None =>
  let '((_, err), w) := sys w (SetNonblock fd false) in
  match err with
  | Some e => let '(_, w) := sys w (Close fd) in (inl (ErrNonblock e), w)
  | None =>
  let '(_, w) := sys w (SetsockoptInt fd SO_RCVBUF (4 * 1024 * 1024)) in
  let '(_, w) := sys w (SetsockoptInt fd SO_SNDBUF (4 * 1024 * 1024)) in
  let rs := {| fd := fd; localIP := localIP; localPort := localPort;
               remoteIP := remoteIP; remotePort := remotePort;
               isServer := isServer |} in
  match isServer, localIP with
  | true, Some ip =>
      let addr := copy (make 4) (To4 ip) in
      let '((_, err), w) := sys w (Bind fd localPort addr) in
      match err with
      | Some e => let '(_, w) := sys w (Close fd) in (inl (ErrBind e), w)
      | None => (inr rs, w)
      end
  | _, _ => (inr rs, w)
  end
  end
  end
  end.

(** The same kernel, keeping a journal of the calls and their answers. *)
Definition traced (wl : World * list (syscall * (Z * option string)))
    (c : syscall)
  : (Z * option string) * (World * list (syscall * (Z * option string))) :=
  let '(w, log) := wl in
  let '(r, w) := sys w c in
  (r, (w, log ++ [(c, r)])).

End Kernel.

(** The descriptors a journal leaves open: those a successful [Socket]
    returned, less those given to [Close]. *)
Definition open_fds (log : list (syscall * (Z * option string))) : list Z :=
  foldl (fun opened '(c, (v, err)) =>
           match c, err with
           | Socket, None => opened ++ [v]
           | Close fd, _ => List.filter (fun x => negb (x =? fd)) opened
           | _, _ => opened
           end) [] log.

Definition is_bind (c : syscall) : bool :=
  match c with Bind _ _ _ => true | _ => false end.

End RawSocket.

(** * Package faketcp: the mode switch of adapter.go *)

Module FakeTCP.

Definition Mode : Type := Z.
Definition ModeUDP : Mode := 0.
Definition ModeRaw : Mode := 1.

(** The package variables [CurrentMode] and [EnableRawSocket]. *)
Record State : Type := { CurrentMode : Mode; EnableRawSocket : bool }.

Definition initial : State :=
  {| CurrentMode := ModeUDP; EnableRawSocket := false |}.

Definition SetMode (s : State) (mode : Mode) : State :=
  {| CurrentMode := mode; EnableRawSocket := (mode =? ModeRaw) |}.

Definition GetMode (s : State) : Mode := CurrentMode s.

Definition ModeString (mode : Mode) : string :=
  if mode =? ModeUDP then "UDP (fake TCP headers in payload)"
  else if mode =? ModeRaw then "Raw Socket (real TCP packets with iptables)"
  else "Unknown mode (" +:+ pretty mode +:+ ")".

(** What a dial or a listen returns: the UDP kind or the raw kind. *)
Inductive kind (U R : Type) : Type :=
| OfUDP (x : U)
| OfRaw (x : R).
Arguments OfUDP {U R} x.
Arguments OfRaw {U R} x.

(** [UDPListener] and [RawListener]: a listener, embedded. *)
Record UDPListener (L : Type) : Type := { udpListener : L }.
Arguments udpListener {L} _.

Record RawListener (L : Type) : Type := { rawListener : L }.
Arguments rawListener {L} _.

Section Transport.
Context {World Conn ConnRaw Listener ListenerRaw : Type}.
Variable Dial : World -> string -> Z -> (string + Conn) * World.
Variable DialRaw : World -> string -> Z -> (string + ConnRaw) * World.
Variable Listen : World -> string -> (string + Listener) * World.
Variable ListenRaw : World -> string -> (string + ListenerRaw) * World.

Definition tag {A B E} (f : A -> B) (r : (E + A) * World) : (E + B) * World :=
  match r with
  | (inl e, w) => (inl e, w)
  | (inr x, w) => (inr (f x), w)
  end.

Definition DialAuto (s : State) (w : World) (remoteAddr : string) (timeout : Z)
  : (string + kind Conn ConnRaw) * World :=
  if EnableRawSocket s then tag OfRaw (DialRaw w remoteAddr timeout)
  else tag OfUDP (Dial w remoteAddr timeout).

Definition ListenAuto (s : State) (w : World) (addr : string)
  : (string + kind Listener ListenerRaw) * World :=
  if EnableRawSocket s then tag OfRaw (ListenRaw w addr)
  else tag OfUDP (Listen w addr).

Definition DialWithMode (w : World) (remoteAddr : string) (timeout : Z)
    (mode : Mode) : (string + kind Conn ConnRaw) * World :=
  if mode =? ModeRaw then tag OfRaw (DialRaw w remoteAddr timeout)
  else tag OfUDP (Dial w remoteAddr timeout).

(** The listener is wrapped in [RawListener] or [UDPListener]. *)
Definition ListenWithMode (w : World) (addr : string) (mode : Mode)
  : (string + kind (UDPListener Listener) (RawListener ListenerRaw)) * World :=
  if mode =? ModeRaw then
    let '(r, w) := ListenRaw w addr in
    match r with
    | inl err => (inl err, w)
    | inr listener => (inr (OfRaw {| rawListener := listener |}), w)
    end
  else
    let '(r, w) := Listen w addr in
    match r with
    | inl err => (inl err, w)
    | inr listener => (inr (OfUDP {| udpListener := listener |}), w)
    end.

(** The listener inside the wrapper. *)
Definition unwrap (k : kind (UDPListener Listener) (RawListener ListenerRaw))
  : kind Listener ListenerRaw :=
  match k with
  | OfUDP l => OfUDP (udpListener l)
  | OfRaw l => OfRaw (rawListener l)
  end.

End Transport.

End FakeTCP.

(** ** Concrete packets and a concrete kernel for the raw socket *)

Module RawSocketExamples.
Import Bytes RawSocket.

(** The size limit of [sendto] on an IPv4 raw socket: a datagram longer than
    65535 bytes is refused with [EMSGSIZE] (errno 90). *)
Definition sendto_ipv4 (packet addr : list byte) : option Z :=
  if 65535 <? len packet then Some 90 else None.

Definition hostA : IP := [Byte.x0a; Byte.x00; Byte.x00; Byte.x01].
Definition hostB : IP := [Byte.xc0; Byte.xa8; Byte.x01; Byte.xfe].
Definition PSH_ACK : byte := Byte.x18.
Definition abc : list byte := [Byte.x41; Byte.x42; Byte.x43].

(** A data segment from 10.0.0.1:1234 to 192.168.1.254:80 with one option
    byte and a three-byte payload. *)
Definition sample_packet : list byte :=
  datagram hostA 1234 hostB 80 1 2 PSH_ACK [Byte.x01] abc.

(** A 40-byte frame whose TCP data-offset nibble is [d]: a plain IPv4 header
    (IHL 5, protocol TCP) followed by exactly 20 bytes of TCP header. *)
Definition frame_with_offset (d : Z) : list byte :=
  BuildIPHeader hostA hostB (to_byte IPPROTO_TCP) 20
  ++ <[12%nat := to_byte (Z.shiftl d 4)]>
       (BuildTCPHeader 1234 80 1 2 PSH_ACK 65535 []).

(** 44 option bytes: more than the 40 a TCP header can carry. *)
Definition long_options : list byte := replicate 44 Byte.x01.

End RawSocketExamples.

(** A frame is truncated when the received bytes end before the IP header
    or the TCP header is complete, the header lengths being the ones the
    frame declares (IHL and data offset, in 32-bit words). *)
Definition truncated_frame (buf : list byte) (n : Z) : Prop :=
  let ihl := RawSocket.ip_header_len buf in
  let doff := RawSocket.tcp_data_offset (drop (Z.to_nat ihl) buf) in
  n < ihl \/ n < ihl + 4 * doff.

(** ** The Internet checksum, as the specification words it

    "Standard 16-bit one's complement sum with end-around carry; odd
    trailing byte padded high."  These definitions follow that sentence and
    are compared with [RawSocket.CalculateChecksum] below. *)

Module InternetChecksum.
Import Bytes.

(** The big-endian 16-bit words of a buffer; an odd trailing byte becomes the
    high half of a last word whose low half is zero. *)
Fixpoint words (data : list byte) : list Z :=
  match data with
  | hi :: lo :: rest => (u8 hi * 256 + u8 lo) :: words rest
  | [b] => [u8 b * 256]
  | [] => []
  end.

(** One's-complement addition on 16 bits: a carry out of bit 15 is added
    back into bit 0. *)
Definition oc_add (a b : Z) : Z :=
  let s := a + b in
  if 0xFFFF <? s then s - 0x10000 + 1 else s.

Definition oc_sum (ws : list Z) : Z := foldl oc_add 0 ws.

(** The checksum is the one's complement of the sum. *)
Definition checksum (data : list byte) : Z := 0xFFFF - oc_sum (words data).

(** A buffer that carries its own checksum verifies when the sum over all
    of it is [0xFFFF]. *)
Definition verifies (data : list byte) : Prop := oc_sum (words data) = 0xFFFF.

(** The plain (unbounded) sum of the words, and the value a one's-complement
    accumulation of total [t] ends in. *)
Definition total (data : list byte) : Z := foldr Z.add 0 (words data).

Definition oc_norm (t : Z) : Z :=
  if t =? 0 then 0 else (t - 1) mod 0xFFFF + 1.

End InternetChecksum.

(** ** pkg/fec: Reed-Solomon block codec

    The codec delegates the field arithmetic to the third-party package
    [github.com/klauspost/reedsolomon] through its [Encoder] interface; the
    interface is a type class here, and what the package documents about
    [Encode] and [Reconstruct] is the class [ReedSolomonLaws]. *)

Module FEC.
Import Bytes.

(** A shard is a byte slice; [None] is the nil slice. *)
Definition shard : Type := option (list byte).

Definition shard_len (s : shard) : Z :=
  match s with Some b => len b | None => 0 end.

Inductive result (E A : Type) : Type :=
| Ok (a : A)
| Error (e : E).
Arguments Ok {E A} a.
Arguments Error {E A} e.

(** Errors of the Reed-Solomon package. *)
Inductive rs_error : Type :=
| ErrInvShardNum | ErrMaxShardNum | ErrTooFewShards | ErrShardNoData
| ErrShardSize | ErrInvalidShardSize.

(** Errors of package [fec]. *)
Inductive error : Type :=
| ErrShardCounts       (* "dataShards and parityShards must be positive" *)
| ErrShardSizeArg      (* "shardSize must be positive" *)
| ErrEmptyData         (* "empty data" *)
| ErrShardNumber       (* "incorrect number of shards" *)
| ErrPresentLength     (* "shardPresent length mismatch" *)
| ErrNoValidShard      (* "no valid shards found to determine shard size" *)
| ErrInconsistentSize  (* "inconsistent shard size" *)
| ErrIncomplete        (* var ErrIncomplete *)
| ErrUnrecoverable     (* var ErrUnrecoverable *)
| ErrLibrary (e : rs_error).

(** [reedsolomon.New], [Encoder.Encode] and [Encoder.Reconstruct]. The two
    methods work in place in Go; here they return the new content of the
    shard array. *)
Class ReedSolomon : Type := {
  Encoder : Type;
  New : Z -> Z -> result rs_error Encoder;
  rsEncode : Encoder -> list shard -> result rs_error (list shard);
  rsReconstruct : Encoder -> list shard -> result rs_error (list shard)
}.

(** The loop that counts the present shards in [Decode]. *)
Definition presentCount (shardPresent : list bool) : Z :=
  foldl (fun n (present : bool) => if present then n + 1 else n) 0 shardPresent.

(** The loop of [Decode] that sets the shards marked missing to nil. *)
Fixpoint mark_missing (shards : list shard) (shardPresent : list bool)
  : list shard :=
  match shards, shardPresent with
  | s :: ss, p :: ps => (if p then s else None) :: mark_missing ss ps
  | _, _ => shards
  end.

(** All shards are non-nil and [sz] bytes long. *)
Definition uniform (sz : Z) (shards : list shard) : Prop :=
  Forall (fun s => exists b, s = Some b /\ len b = sz) shards.

(** What the package documents: [Encode] fills the parity shards of a
    well-formed shard set and leaves the data shards alone; [Reconstruct]
    recreates the missing (nil) shards of an encoded set whenever at least
    [dataShards] shards are left.  With more than 256 shards the package
    takes only shard sizes that are multiples of 64 and refuses the others,
    so [Encode] is promised to succeed only with at most 256 shards or with
    such a size; what it returns when it succeeds holds for every count. *)
Class ReedSolomonLaws (RS : ReedSolomon) : Prop := {
  rsEncode_accepts : forall d p enc shards sz,
    New d p = Ok enc -> len shards = d + p -> 0 < sz -> uniform sz shards ->
    d + p <= 256 \/ sz mod 64 = 0 ->
    exists out, rsEncode enc shards = Ok out;
  rsEncode_ok : forall d p enc shards sz out,
    New d p = Ok enc -> len shards = d + p -> 0 < sz -> uniform sz shards ->
    rsEncode enc shards = Ok out ->
    take (Z.to_nat d) out = take (Z.to_nat d) shards
    /\ len out = d + p /\ uniform sz out;
  rsReconstruct_ok : forall d p enc shards out shardPresent,
    New d p = Ok enc -> len shards = d + p -> rsEncode enc shards = Ok out ->
    len shardPresent = d + p -> d <= presentCount shardPresent ->
    rsReconstruct enc (mark_missing out shardPresent) = Ok out
}.

Section Codec.
Context {RS : ReedSolomon}.

Record FEC : Type := {
  dataShards : Z;
  parityShards : Z;
  shardSize : Z;
  encoder : Encoder
}.

Definition NewFEC (dataShards parityShards shardSize : Z) : result error FEC :=
  if (dataShards <=? 0) || (parityShards <=? 0) then Error ErrShardCounts
  else if shardSize <=? 0 then Error ErrShardSizeArg
  else match New dataShards parityShards with
       | Error e => Error (ErrLibrary e)
       | Ok enc => Ok {| dataShards := dataShards;
                         parityShards := parityShards;
                         shardSize := shardSize;
                         encoder := enc |}
       end.

(** The body of the first loop of [Encode]: data shard [i]. *)
Definition data_shard (data : list byte) (shardSize i : Z) : list byte :=
  let sh := make shardSize in
  let start := i * shardSize in
  let end_ := start + shardSize in
  let end_ := if len data <? end_ then len data else end_ in
  if start <? len data
  then copy sh (take (Z.to_nat (end_ - start)) (drop (Z.to_nat start) data))
  else sh.

(** The shard size [Encode] settles on. *)
Definition encode_shard_size (f : FEC) (data : list byte) : Z :=
  let totalShards := dataShards f in
  let sz := Z.quot (len data + totalShards - 1) totalShards in
  if (0 <? shardSize f) && (sz <? shardSize f) then shardSize f else sz.

(** The shard array just before [f.encoder.Encode] is called. *)
Definition split (f : FEC) (data : list byte) : list shard :=
  let sz := encode_shard_size f data in
  let shards := replicate (Z.to_nat (dataShards f + parityShards f)) None in
  let shards :=
    foldl (fun shards i => <[Z.to_nat i := Some (data_shard data sz i)]> shards)
          shards (seqZ 0 (dataShards f)) in
  foldl (fun shards i => <[Z.to_nat (dataShards f + i) := Some (make sz)]> shards)
        shards (seqZ 0 (parityShards f)).

Definition Encode (f : FEC) (data : list byte) : result error (list shard) :=
  if len data =? 0 then Error ErrEmptyData
  else match rsEncode (encoder f) (split f data) with
       | Error e => Error (ErrLibrary e)
       | Ok shards => Ok shards
       end.

(** The loop of [Decode] that takes the size of the first usable shard. *)
Fixpoint first_shard_size (shards : list shard) (shardPresent : list bool) : Z :=
  match shards, shardPresent with
  | s :: ss, p :: ps =>
      if p && bool_decide (s <> None) && (0 <? shard_len s) then shard_len s
      else first_shard_size ss ps
  | _, _ => 0
  end.

(** The loop of [Decode] that looks for a present shard of another size. *)
Fixpoint inconsistent (sz : Z) (shards : list shard) (shardPresent : list bool)
  : bool :=
  match shards, shardPresent with
  | s :: ss, p :: ps =>
      (p && bool_decide (s <> None) && negb (shard_len s =? sz))
      || inconsistent sz ss ps
  | _, _ => false
  end.

(** [result = append(result, shards[i]...)] for [i < dataShards]. *)
Definition join (n : Z) (shards : list shard) : list byte :=
  foldl (fun result s => result ++ default [] s) [] (take (Z.to_nat n) shards).

Definition Decode (f : FEC) (shards : list shard) (shardPresent : list bool)
  : result error (list byte) :=
  if negb (len shards =? dataShards f + parityShards f)
  then Error ErrShardNumber
  else if negb (len shardPresent =? len shards) then Error ErrPresentLength
  else
    let count := presentCount shardPresent in
    if count <? dataShards f then Error ErrIncomplete
    else
      let sz := first_shard_size shards shardPresent in
      if sz =? 0 then Error ErrNoValidShard
      else if inconsistent sz shards shardPresent then Error ErrInconsistentSize
      else
        match rsReconstruct (encoder f) (mark_missing shards shardPresent) with
        | Error _ =>
            if count =? dataShards f + parityShards f then Error ErrUnrecoverable
            else Error ErrIncomplete
        | Ok shards => Ok (join (dataShards f) shards)
        end.

Definition DataShards (f : FEC) : Z := dataShards f.
Definition ParityShards (f : FEC) : Z := parityShards f.
Definition TotalShards (f : FEC) : Z := dataShards f + parityShards f.

End Codec.

(** The shards that arrive: those marked lost may hold anything. *)
Definition received (sent got : list shard) (shardPresent : list bool) : Prop :=
  length got = length sent
  /\ forall i, shardPresent !! i = Some true -> got !! i = sent !! i.

End FEC.

(** ** A concrete encoder: two data shards and one XOR parity shard

    The smallest instance of the [Encoder] interface with real erasure
    recovery; it shows that [ReedSolomonLaws] can be met and serves the
    concrete runs below. *)

Module XorCode.
Import Bytes FEC.

Definition bxor (a b : byte) : byte := to_byte (Z.lxor (u8 a) (u8 b)).

Definition xor_bytes (a b : list byte) : list byte := zip_with bxor a b.

Definition same_size (a b c : list byte) : bool :=
  (len a =? len b) && (len b =? len c) && (0 <? len a).

Definition encode (shards : list shard) : result rs_error (list shard) :=
  match shards with
  | [Some a; Some b; Some c] =>
      if same_size a b c then Ok [Some a; Some b; Some (xor_bytes a b)]
      else Error ErrShardSize
  | _ => Error ErrTooFewShards
  end.

Definition reconstruct (shards : list shard) : result rs_error (list shard) :=
  match shards with
  | [Some a; Some b; Some c] => Ok shards
  | [None; Some b; Some c] => Ok [Some (xor_bytes c b); Some b; Some c]
  | [Some a; None; Some c] => Ok [Some a; Some (xor_bytes c a); Some c]
  | [Some a; Some b; None] => Ok [Some a; Some b; Some (xor_bytes a b)]
  | _ => Error ErrTooFewShards
  end.

Definition xor_code : ReedSolomon := {|
  Encoder := unit;
  New := fun d p =>
    if (d =? 2) && (p =? 1) then Ok tt else Error ErrInvShardNum;
  rsEncode := fun _ => encode;
  rsReconstruct := fun _ => reconstruct
|}.

(** The codec [NewFEC(2, 1, 2)] over this encoder. *)
Definition fec212 : @FEC xor_code :=
  {| dataShards := 2; parityShards := 1; shardSize := 2;
     encoder := (tt : @Encoder xor_code) |}.

Definition A : byte := Byte.x41.
Definition B : byte := Byte.x42.
Definition C : byte := Byte.x43.
Definition zero : byte := Byte.x00.

(** The three shards of the one-byte payload [A] and of payload [A B C]. *)
Definition shards_A : list shard :=
  [Some [A; zero]; Some [zero; zero]; Some [A; zero]].
Definition shards_ABC : list shard :=
  [Some [A; B]; Some [C; zero]; Some [bxor A C; B]].

End XorCode.

(** ** The size rule of the Reed-Solomon package

    A stand-in with the argument checks of the package: [New] takes up to
    65536 shards, [Encode] wants every shard present, of one non-zero size,
    and with more than 256 shards a size that is a multiple of 64.  Its
    parity is the XOR of the data shards, so [Reconstruct] restores parity
    shards and one data shard; the checks are what is used below. *)

Module WideCode.
Import Bytes FEC.

Definition New (d p : Z) : result rs_error (Z * Z) :=
  if (d <=? 0) || (p <? 0) then Error ErrInvShardNum
  else if 65536 <? d + p then Error ErrMaxShardNum
  else Ok (d, p).

(** [checkShards]: the common size of the shards; nil shards count only
    when [nilok]. *)
Definition checkShards (shards : list shard) (nilok : bool)
  : result rs_error Z :=
  let size := foldr (fun s acc => if 0 <? shard_len s then shard_len s else acc)
                    0 shards in
  if size =? 0 then Error ErrShardNoData
  else if forallb (fun s => (shard_len s =? size)
                            || (nilok && (shard_len s =? 0))) shards
       then Ok size
       else Error ErrShardSize.

(** The XOR of the data shards that are there. *)
Definition parity (d : Z) (size : Z) (shards : list shard) : list byte :=
  foldr (fun s acc => match s with
                      | Some b => XorCode.xor_bytes b acc
                      | None => acc
                      end)
        (make size) (take (Z.to_nat d) shards).

Definition encode (enc : Z * Z) (shards : list shard)
  : result rs_error (list shard) :=
  let '(d, p) := enc in
  if negb (len shards =? d + p) then Error ErrTooFewShards
  else match checkShards shards false with
       | Error e => Error e
       | Ok size =>
           if (256 <? d + p) && negb (size mod 64 =? 0)
           then Error ErrInvalidShardSize
           else Ok (take (Z.to_nat d) shards
                    ++ replicate (Z.to_nat p) (Some (parity d size shards)))
       end.

(** The data shard that is missing, restored from the first parity shard
    and the other data shards. *)
Definition restore (d size : Z) (shards : list shard) : list byte :=
  XorCode.xor_bytes (default [] (default None (shards !! Z.to_nat d)))
                    (parity d size shards).

Definition reconstruct (enc : Z * Z) (shards : list shard)
  : result rs_error (list shard) :=
  let '(d, p) := enc in
  if negb (len shards =? d + p) then Error ErrTooFewShards
  else match checkShards shards true with
       | Error e => Error e
       | Ok size =>
           if (256 <? d + p) && negb (size mod 64 =? 0)
           then Error ErrInvalidShardSize
           else
             let lost := length (filter (fun s => s = None)
                                        (take (Z.to_nat d) shards)) in
             if (lost =? 0)%nat then
               Ok (take (Z.to_nat d) shards
                   ++ replicate (Z.to_nat p) (Some (parity d size shards)))
             else if (lost =? 1)%nat
                     && bool_decide (shards !! Z.to_nat d <> Some None) then
               let data :=
                 (fun s => match s with
                           | None => Some (restore d size shards)
                           | _ => s
                           end) <$> take (Z.to_nat d) shards in
               Ok (data ++ replicate (Z.to_nat p) (Some (parity d size data)))
             else Error ErrTooFewShards
       end.

Definition wide_code : ReedSolomon := {|
  Encoder := Z * Z;
  FEC.New := New;
  rsEncode := encode;
  rsReconstruct := reconstruct
|}.

(** The codec [NewFEC(200, 100, 4)] over this encoder. *)
Definition fec_200_100_4 : @FEC wide_code :=
  {| dataShards := 200; parityShards := 100; shardSize := 4;
     encoder := ((200, 100) : @Encoder wide_code) |}.

End WideCode.

(** ** pkg/iptables: the firewall coordinator

    The [iptables] binary is outside the program: [iptables w args] is what
    running it with arguments [args] in world [w] answers ([None] when the
    command succeeds, [Some (err, output)] when it fails) and the world it
    leaves.  The mutex only serialises calls and is not modelled. *)

Module IPTables.

Record IPTablesManager : Type := { rules : list string }.

Definition NewIPTablesManager : IPTablesManager := {| rules := [] |}.

(** [strings.Split(s, sep)] for a one-character separator. *)
Fixpoint Split (sep : Ascii.ascii) (s : string) : list string :=
  match s with
  | EmptyString => [EmptyString]
  | String c s' =>
      if Ascii.eqb c sep then EmptyString :: Split sep s'
      else match Split sep s' with
           | w :: ws => String c w :: ws
           | [] => [String c EmptyString]
           end
  end.

(** [strings.Join(l, sep)] *)
Fixpoint Join (l : list string) (sep : string) : string :=
  match l with
  | [] => ""
  | [x] => x
  | x :: rest => x +:+ sep +:+ Join rest sep
  end.

(** [append([]string{flag}, strings.Split(rule, " ")...)] *)
Definition command (flag rule : string) : list string :=
  flag :: Split " "%char rule.

(** [%d] of a [uint16]. *)
Definition decimal (port : Z) : string := pretty (Z.to_N (port mod 65536)).

Definition port_rule (port : Z) (isServer : bool) : string :=
  if isServer
  then "OUTPUT -p tcp --tcp-flags RST RST --sport " +:+ decimal port
       +:+ " -j DROP"
  else "OUTPUT -p tcp --tcp-flags RST RST --sport " +:+ decimal port
       +:+ " -j DROP".

Definition connection_rules (localIP : string) (localPort : Z)
    (remoteIP : string) (remotePort : Z) (isServer : bool) : list string :=
  if isServer
  then ["OUTPUT -p tcp --tcp-flags RST RST -s " +:+ localIP +:+ " --sport "
        +:+ decimal localPort +:+ " -d " +:+ remoteIP +:+ " --dport "
        +:+ decimal remotePort +:+ " -j DROP"]
  else ["OUTPUT -p tcp --tcp-flags RST RST -s " +:+ localIP +:+ " --sport "
        +:+ decimal localPort +:+ " -d " +:+ remoteIP +:+ " --dport "
        +:+ decimal remotePort +:+ " -j DROP"].

Definition add_error (err output : string) : string :=
  "failed to add iptables rule: " +:+ err +:+ ", output: " +:+ output.

Definition remove_error (rule err output : string) : string :=
  "failed to remove rule '" +:+ rule +:+ "': " +:+ err +:+ ", output: "
  +:+ output.

Definition aggregate_error (errors : list string) : string :=
  "errors removing rules: " +:+ Join errors "; ".

(** [strings.Contains(s, substr)] *)
Fixpoint Contains (s substr : string) : bool :=
  String.prefix substr s
  || match s with
     | EmptyString => false
     | String _ s' => Contains s' substr
     end.

Definition GenerateRule (port : Z) (isServer : bool) : string :=
  if isServer
  then "iptables -A OUTPUT -p tcp --tcp-flags RST RST --sport "
       +:+ decimal port +:+ " -j DROP"
  else "iptables -A OUTPUT -p tcp --tcp-flags RST RST --sport "
       +:+ decimal port +:+ " -j DROP".

(** The two rules [ClearAllRules] tries to delete. *)
Definition stale_rules (port : Z) : list string :=
  ["OUTPUT -p tcp --tcp-flags RST RST --sport " +:+ decimal port
   +:+ " -j DROP";
   "OUTPUT -p tcp --tcp-flags RST RST --dport " +:+ decimal port
   +:+ " -j DROP"].

Definition clear_error (rule err : string) : string :=
  "failed to remove rule '" +:+ rule +:+ "': " +:+ err.

Definition clear_aggregate (errors : list string) : string :=
  "errors clearing rules: " +:+ Join errors "; ".

Section Firewall.
Context {World : Type}.
Variable iptables : World -> list string -> option (string * string) * World.

Definition ruleExists (w : World) (rule : string) : bool * World :=
  let '(err, w) := iptables w (command "-C" rule) in
  (bool_decide (err = None), w).

Definition AddRuleForPort (m : IPTablesManager) (w : World)
    (port : Z) (isServer : bool) : option string * IPTablesManager * World :=
  let rule := port_rule port isServer in
  let '(present, w) := ruleExists w rule in
  if present then (None, m, w)
  else
    let '(err, w) := iptables w (command "-A" rule) in
    match err with
    | Some (e, output) => (Some (add_error e output), m, w)
    | None => (None, {| rules := rules m ++ [rule] |}, w)
    end.

(** The [for _, rule := range rules] loop of [AddRuleForConnection]. *)
Fixpoint add_rules (m : IPTablesManager) (w : World) (todo : list string)
  : option string * IPTablesManager * World :=
  match todo with
  | [] => (None, m, w)
  | rule :: todo =>
      let '(present, w) := ruleExists w rule in
      if present then add_rules m w todo
      else
        let '(err, w) := iptables w (command "-A" rule) in
        match err with
        | Some (e, output) => (Some (add_error e output), m, w)
        | None => add_rules {| rules := rules m ++ [rule] |} w todo
        end
  end.

Definition AddRuleForConnection (m : IPTablesManager) (w : World)
    (localIP : string) (localPort : Z) (remoteIP : string) (remotePort : Z)
    (isServer : bool) : option string * IPTablesManager * World :=
  add_rules m w (connection_rules localIP localPort remoteIP remotePort isServer).

(** The [for _, rule := range m.rules] loop of [RemoveAllRules]: the
    messages collected so far and the world. *)
Fixpoint remove_rules (errors : list string) (w : World) (todo : list string)
  : list string * World :=
  match todo with
  | [] => (errors, w)
  | rule :: todo =>
      let '(err, w) := iptables w (command "-D" rule) in
      match err with
      | Some (e, output) =>
          remove_rules (errors ++ [remove_error rule e output]) w todo
      | None => remove_rules errors w todo
      end
  end.

Definition RemoveAllRules (m : IPTablesManager) (w : World)
  : option string * IPTablesManager * World :=
  let '(errors, w) := remove_rules [] w (rules m) in
  let m := {| rules := [] |} in
  if (0 <? Z.of_nat (length errors))
  then (Some (aggregate_error errors), m, w)
  else (None, m, w).

(** The calls a session makes to install rules. *)
Inductive call : Type :=
| ForPort (port : Z) (isServer : bool)
| ForConnection (localIP : string) (localPort : Z) (remoteIP : string)
                (remotePort : Z) (isServer : bool).

Definition run_call (m : IPTablesManager) (w : World) (c : call)
  : option string * IPTablesManager * World :=
  match c with
  | ForPort port isServer => AddRuleForPort m w port isServer
  | ForConnection lip lport rip rport isServer =>
      AddRuleForConnection m w lip lport rip rport isServer
  end.

(** A sequence of install calls; the errors they returned, in order. *)
Fixpoint run_calls (m : IPTablesManager) (w : World) (cs : list call)
  : list (option string) * IPTablesManager * World :=
  match cs with
  | [] => ([], m, w)
  | c :: cs =>
      let '(err, m, w) := run_call m w c in
      let '(errs, m, w) := run_calls m w cs in
      (err :: errs, m, w)
  end.

(** The same firewall, keeping a journal of the commands it was given and
    of how each ended. *)
Definition journal : Type := list (list string * option (string * string)).

Definition logged (wl : World * journal) (args : list string)
  : option (string * string) * (World * journal) :=
  let '(w, log) := wl in
  let '(err, w) := iptables w args in
  (err, (w, log ++ [(args, err)])).

(** [GetRules]: a copy of the list. *)
Definition GetRules (m : IPTablesManager) : list string :=
  Bytes.copy (replicate (length (rules m)) "") (rules m).

Definition AddCustomRule (m : IPTablesManager) (w : World) (rule : string)
  : option string * IPTablesManager * World :=
  let '(present, w) := ruleExists w rule in
  if present then (None, m, w)
  else
    let '(err, w) := iptables w (command "-A" rule) in
    match err with
    | Some (e, output) =>
        (Some ("failed to add custom rule: " +:+ e +:+ ", output: " +:+ output),
         m, w)
    | None => (None, {| rules := rules m ++ [rule] |}, w)
    end.

(** The loop of [ClearAllRules]: a failure whose output mentions
    "No chain/target/match" is not reported. *)
Fixpoint clear_rules (errors : list string) (w : World) (todo : list string)
  : list string * World :=
  match todo with
  | [] => (errors, w)
  | rule :: todo =>
      let '(err, w) := iptables w (command "-D" rule) in
      match err with
      | Some (e, output) =>
          if negb (Contains output "No chain/target/match")
          then clear_rules (errors ++ [clear_error rule e]) w todo
          else clear_rules errors w todo
      | None => clear_rules errors w todo
      end
  end.

Definition ClearAllRules (w : World) (port : Z) : option string * World :=
  let '(errors, w) := clear_rules [] w (stale_rules port) in
  if (0 <? Z.of_nat (length errors))
  then (Some (clear_aggregate errors), w)
  else (None, w).

(** Everything that installs rules: the calls above and [AddCustomRule]. *)
Inductive install : Type :=
| Builtin (c : call)
| Custom (rule : string).

Definition run_install (m : IPTablesManager) (w : World) (i : install)
  : option string * IPTablesManager * World :=
  match i with
  | Builtin c => run_call m w c
  | Custom rule => AddCustomRule m w rule
  end.

Fixpoint run_installs (m : IPTablesManager) (w : World) (todo : list install)
  : IPTablesManager * World :=
  match todo with
  | [] => (m, w)
  | i :: todo =>
      let '(_, m, w) := run_install m w i in run_installs m w todo
  end.

End Firewall.

(** The commands of a journal that appended a rule and succeeded. *)
Definition appended (log : list (list string * option (string * string)))
  : list (list string) :=
  omap (fun '(args, r) =>
          match args, r with
          | flag :: _, None => if String.eqb flag "-A" then Some args else None
          | _, _ => None
          end) log.

(** A journal entry of an install: a [-C] or an [-A] command. *)
Definition check_or_append (e : list string * option (string * string)) : Prop :=
  exists rule, e.1 = command "-C" rule \/ e.1 = command "-A" rule.


(** An in-memory filter table, standing for the kernel: [-A] appends a
    rule, [-C] finds it, [-D] deletes its first copy and fails when there is
    none. *)
Fixpoint delete_first (rule : list string) (table : list (list string))
  : list (list string) :=
  match table with
  | [] => []
  | r :: table =>
      if bool_decide (r = rule) then table else r :: delete_first rule table
  end.

Definition no_match : string * string :=
  ("exit status 1", "iptables: Bad rule (does a matching rule exist in that chain?).").

Definition table_iptables (table : list (list string)) (args : list string)
  : option (string * string) * list (list string) :=
  match args with
  | flag :: rule =>
      if String.eqb flag "-A" then (None, table ++ [rule])
      else if String.eqb flag "-C" then
        (if bool_decide (rule ∈ table) then None else Some no_match, table)
      else if String.eqb flag "-D" then
        if bool_decide (rule ∈ table) then (None, delete_first rule table)
        else (Some no_match, table)
      else (Some ("exit status 2", "iptables: unknown option"), table)
  | [] => (Some ("exit status 2", "iptables: no command specified"), table)
  end.

End IPTables.

(** ** pkg/tunnel: path-MTU discovery

    The network is outside the program: [dial w ip] is whether a TCP
    connection to port 80 of [ip] could be opened within a second in world
    [w], with the world it leaves; name resolution is a function of the
    world. *)

Module MTU.

Record MTUDiscovery : Type := {
  remoteAddr : string;
  currentMTU : Z;
  minMTU : Z;
  maxMTU : Z
}.

Definition NewMTUDiscovery (remoteAddr : string) (initialMTU : Z) : MTUDiscovery :=
  {| remoteAddr := remoteAddr; currentMTU := initialMTU;
     minMTU := 576; maxMTU := 1500 |}.

Inductive error : Type :=
| ErrInvalidAddress   (* "invalid remote address" *)
| ErrResolve          (* "failed to resolve host" *)
| ErrNoAddress.       (* "no IP addresses found for host" *)

Definition maxAttempts : Z := 10.
Definition ipHeaderSize : Z := 20.
Definition tcpHeaderSize : Z := 20.
Definition packetTypeOverhead : Z := 1.
Definition encryptionOverhead : Z := 28.

Section Network.
Context {World : Type}.
Variable SplitHostPort : string -> option string.
Variable LookupIP : World -> string -> option (list string) * World.
Variable dial : World -> string -> bool * World.

(** [testMTU]: a failed connection counts as "too large" above 1200. *)
Definition testMTU (w : World) (targetIP : string) (mtu : Z) : bool * World :=
  let '(connected, w) := dial w targetIP in
  if connected then (true, w) else (mtu <=? 1200, w).

(** The search loop [for low <= high && attempts < maxAttempts], by recursion
    on the attempts that are left ([maxAttempts - attempts]).  Besides
    [optimal] and the world it returns the sizes it probed, in order. *)
Fixpoint search (remaining : nat) (w : World) (targetIP : string)
    (low high optimal : Z) : Z * list Z * World :=
  match remaining with
  | O => (optimal, [], w)
  | S remaining =>
      if low <=? high then
        let mtu := Z.quot (low + high) 2 in
        let '(ok, w) := testMTU w targetIP mtu in
        let '(optimal, probed, w) :=
          if ok then search remaining w targetIP (mtu + 1) high mtu
          else search remaining w targetIP low (mtu - 1) optimal in
        (optimal, mtu :: probed, w)
      else (optimal, [], w)
  end.

(** The payload budget computed from the path MTU the loop found. *)
Definition budget (optimal : Z) : Z :=
  let safeMTU :=
    optimal - ipHeaderSize - tcpHeaderSize - packetTypeOverhead
    - encryptionOverhead in
  let safeMTU := if safeMTU <? 500 then 500 else safeMTU in
  if 1371 <? safeMTU then 1371 else safeMTU.

(** [DiscoverOptimalMTU]: the value returned, the error, the sizes probed
    and the world. *)
Definition DiscoverOptimalMTU (m : MTUDiscovery) (w : World)
  : Z * option error * list Z * World :=
  match SplitHostPort (remoteAddr m) with
  | None => (currentMTU m, Some ErrInvalidAddress, [], w)
  | Some host =>
      let '(ips, w) := LookupIP w host in
      match ips with
      | None => (currentMTU m, Some ErrResolve, [], w)
      | Some [] => (currentMTU m, Some ErrNoAddress, [], w)
      | Some (targetIP :: _) =>
          let '(optimal, probed, w) :=
            search (Z.to_nat maxAttempts) w targetIP (minMTU m) (maxMTU m)
                   (minMTU m) in
          (budget optimal, None, probed, w)
      end
  end.

End Network.

Definition GetRecommendedMTU (networkType : string) : Z :=
  if String.eqb networkType "ethernet" then 1371
  else if String.eqb networkType "pppoe" then 1343
  else if String.eqb networkType "mobile" then 1200
  else if String.eqb networkType "vpn" then 1300
  else if String.eqb networkType "wifi" then 1371
  else 1371.

(** [net.Interface], the fields the code reads, and the two flags. *)
Record Interface : Type := { Flags : Z; Name : string }.

Definition FlagUp : Z := 1.
Definition FlagLoopback : Z := 4.

(** The [for _, iface := range ifaces] loop of [AutoDetectNetworkType]. *)
Fixpoint detect (ifaces : list Interface) : string :=
  match ifaces with
  | [] => "ethernet"
  | iface :: ifaces =>
      if Z.land (Flags iface) FlagUp =? 0 then detect ifaces
      else if negb (Z.land (Flags iface) FlagLoopback =? 0) then detect ifaces
      else
        let name := Name iface in
        if 2 <=? Z.of_nat (String.length name) then
          let prefix := String.substring 0 2 name in
          if String.eqb prefix "wl" || String.eqb prefix "ww" then "wifi"
          else if String.eqb prefix "pp" then "pppoe"
          else if String.eqb prefix "et" || String.eqb prefix "en"
               then "ethernet"
          else detect ifaces
        else detect ifaces
  end.

(** [AutoDetectNetworkType]; [None] is the error of [net.Interfaces]. *)
Definition AutoDetectNetworkType (ifaces : option (list Interface)) : string :=
  match ifaces with
  | None => "ethernet"
  | Some ifaces => detect ifaces
  end.

(** The same network, keeping a journal of the connection attempts: the
    address dialled and whether the connection was made.  Name resolution
    leaves the journal alone. *)
Definition traced_dial {World : Type} (dial : World -> string -> bool * World)
    (wl : World * list (string * bool)) (ip : string)
  : bool * (World * list (string * bool)) :=
  let '(w, log) := wl in
  let '(connected, w) := dial w ip in
  (connected, (w, log ++ [(ip, connected)])).

Definition untraced_lookup {World : Type}
    (LookupIP : World -> string -> option (list string) * World)
    (wl : World * list (string * bool)) (host : string)
  : option (list string) * (World * list (string * bool)) :=
  let '(w, log) := wl in
  let '(ips, w) := LookupIP w host in
  (ips, (w, log)).

(** What the probe answers for a size, given what the connection attempt
    did: a failed connection counts as "too large" only above 1200. *)
Definition probe_answer (mtu : Z) (connected : bool) : bool :=
  connected || (mtu <=? 1200).

(** Binary search, as the specification words it: the candidate is the
    middle of the range that is left; after a yes the search goes on above
    the candidate, after a no below it.  The candidates for a list of
    answers. *)
Fixpoint candidates (answers : list bool) (low high : Z) : list Z :=
  match answers with
  | [] => []
  | yes :: answers =>
      let mid := (low + high) / 2 in
      mid :: (if yes then candidates answers (mid + 1) high
              else candidates answers low (mid - 1))
  end.

(** "Clamped to [lo, hi]", as the specification says it. *)
Definition clamp (lo hi x : Z) : Z := Z.max lo (Z.min hi x).

(** A network for the examples: the name resolves to itself, and the
    connection to port 80 succeeds or not throughout ([up]). *)
Definition host_of (addr : string) : option string :=
  match IPTables.Split ":"%char addr with
  | [host; _] => Some host
  | _ => None
  end.

Definition resolve_self (w : unit) (host : string) : option (list string) * unit :=
  (Some [host], w).

Definition static_dial (up : bool) (w : unit) (ip : string) : bool * unit :=
  (up, w).

End MTU.

(** * Proofs *)

Import Bytes.

(** ** Facts about bytes and slices *)

Section BytesFacts.

Lemma u8_range b : 0 <= u8 b < 256.
Proof.
  unfold u8. pose proof (Byte.to_N_bounded b). lia.
Qed.

Lemma u8_to_byte z : u8 (to_byte z) = z mod 256.
Proof.
  unfold u8, to_byte, wrap8.
  assert (Hr : 0 <= z mod 256 < 256) by (apply Z.mod_pos_bound; lia).
  destruct (Byte.of_N (Z.to_N (z mod 256))) as [b|] eqn:E.
  - simpl. apply Byte.to_of_N in E. rewrite E. lia.
  - apply Byte.of_N_None_iff in E. lia.
Qed.

Lemma to_byte_u8 b : to_byte (u8 b) = b.
Proof.
  unfold to_byte, wrap8. pose proof (u8_range b) as Hr.
  rewrite Z.mod_small by lia. unfold u8. rewrite N2Z.id.
  now rewrite Byte.of_to_N.
Qed.

Lemma u8_inj a b : u8 a = u8 b -> a = b.
Proof.
  intros H. rewrite <- (to_byte_u8 a), <- (to_byte_u8 b). now rewrite H.
Qed.

(** Or-ing a value below [2^k] into a value shifted left by [k] adds it. *)
Lemma lor_shiftl_small hi lo k :
  0 <= k -> 0 <= lo < 2 ^ k -> Z.lor (Z.shiftl hi k) lo = hi * 2 ^ k + lo.
Proof.
  intros Hk Hlo.
  rewrite <- (Z.shiftl_mul_pow2 hi k Hk), <- Z.add_lor_land.
  assert (E : Z.land (Z.shiftl hi k) lo = 0); [|rewrite E; lia].
  apply Z.bits_inj'. intros n Hn. rewrite Z.land_spec, Z.bits_0.
  destruct (Z.lt_ge_cases n k) as [Hlt|Hge].
  - rewrite Z.shiftl_spec_low by lia. reflexivity.
  - destruct (Z.eq_dec lo 0) as [->|Hnz];
      [rewrite Z.bits_0; apply andb_false_r|].
    rewrite (Z.bits_above_log2 lo); [apply andb_false_r | lia |].
    apply Z.lt_le_trans with k; [|lia].
    apply Z.log2_lt_pow2; lia.
Qed.

Lemma Uint16_eq hi lo : Uint16 hi lo = u8 hi * 256 + u8 lo.
Proof.
  unfold Uint16. pose proof (u8_range lo).
  rewrite lor_shiftl_small; lia.
Qed.

Lemma Uint16_range hi lo : 0 <= Uint16 hi lo < 65536.
Proof.
  rewrite Uint16_eq. pose proof (u8_range hi). pose proof (u8_range lo). lia.
Qed.

Lemma length_make n : length (make n) = Z.to_nat n.
Proof. apply length_replicate. Qed.

Lemma length_PutUint16 off v buf : length (PutUint16 off v buf) = length buf.
Proof. unfold PutUint16. now rewrite !length_insert. Qed.

Lemma length_PutUint32 off v buf : length (PutUint32 off v buf) = length buf.
Proof. unfold PutUint32. now rewrite !length_insert. Qed.

Lemma length_copy_at {A} lo hi (src buf : list A) :
  length (copy_at lo hi src buf) = length buf.
Proof. apply length_inserts. Qed.

Lemma length_copy {A} (dst src : list A) : length (copy dst src) = length dst.
Proof.
  unfold copy. rewrite length_app, length_take, length_drop. lia.
Qed.

End BytesFacts.

(** ** The Internet checksum *)

Section ChecksumFacts.
Import RawSocket InternetChecksum.

Lemma list_pair_ind {A} (P : list A -> Prop) :
  P [] -> (forall x, P [x]) -> (forall x y l, P l -> P (x :: y :: l)) ->
  forall l, P l.
Proof.
  intros H0 H1 H2 l.
  enough (P l /\ forall x, P (x :: l)) by tauto.
  induction l as [|a l [IH1 IH2]]; split; auto.
Qed.

Lemma words_range data : Forall (fun w => 0 <= w <= 0xFFFF) (words data).
Proof.
  induction data as [| x | x y l IH] using list_pair_ind; simpl.
  - constructor.
  - constructor; [|constructor]. pose proof (u8_range x). lia.
  - constructor; [|exact IH].
    pose proof (u8_range x). pose proof (u8_range y). lia.
Qed.

Lemma total_nonneg data : 0 <= total data.
Proof.
  unfold total. pose proof (words_range data) as H.
  induction H; simpl; lia.
Qed.

Lemma total_bound data : total data <= 0xFFFF * ((len data + 1) / 2).
Proof.
  unfold total, len.
  induction data as [| x | x y l IH] using list_pair_ind.
  - vm_compute. discriminate.
  - pose proof (u8_range x). cbn [words foldr length].
    change ((Z.of_nat 1 + 1) / 2) with 1. lia.
  - pose proof (u8_range x). pose proof (u8_range y).
    change (words (x :: y :: l)) with ((u8 x * 256 + u8 y) :: words l).
    cbn [foldr]. cbn [length].
    replace ((Z.of_nat (S (S (length l))) + 1) / 2)
      with ((Z.of_nat (length l) + 1) / 2 + 1); [lia|].
    rewrite !Nat2Z.inj_succ.
    replace (Z.succ (Z.succ (Z.of_nat (length l))) + 1)
      with (Z.of_nat (length l) + 1 + 1 * 2) by lia.
    rewrite Z.div_add by lia. reflexivity.
Qed.

Lemma total_app_even l1 l2 :
  Nat.Even (length l1) -> total (l1 ++ l2) = total l1 + total l2.
Proof.
  unfold total. revert l2.
  induction l1 as [| x | x y l IH] using list_pair_ind; intros l2 Hev.
  - reflexivity.
  - destruct Hev as [k Hk]. simpl in Hk. lia.
  - change ((x :: y :: l) ++ l2) with (x :: y :: (l ++ l2)).
    change (words (x :: y :: l ++ l2))
      with ((u8 x * 256 + u8 y) :: words (l ++ l2)).
    change (words (x :: y :: l)) with ((u8 x * 256 + u8 y) :: words l).
    cbn [foldr]. rewrite IH; [lia|].
    destruct Hev as [k Hk]. exists (k - 1)%nat. simpl in Hk. lia.
Qed.

Lemma oc_norm_range t : 0 <= t -> 0 <= oc_norm t <= 0xFFFF.
Proof.
  intros Ht. unfold oc_norm. destruct (Z.eqb_spec t 0); [lia|].
  pose proof (Z.mod_pos_bound (t - 1) 0xFFFF). lia.
Qed.

Lemma oc_norm_small t : 0 <= t <= 0xFFFF -> oc_norm t = t.
Proof.
  intros Ht. unfold oc_norm. destruct (Z.eqb_spec t 0); [lia|].
  rewrite Z.mod_small; lia.
Qed.

Lemma oc_add_norm t w :
  0 <= t -> 0 <= w <= 0xFFFF -> oc_add (oc_norm t) w = oc_norm (t + w).
Proof.
  intros Ht Hw. unfold oc_add, oc_norm.
  destruct (Z.eqb_spec t 0) as [->|Hnz].
  - simpl. rewrite !Z.add_0_l. destruct (Z.ltb_spec 0xFFFF w); [lia|].
    destruct (Z.eqb_spec w 0); [lia|]. rewrite Z.mod_small; lia.
  - destruct (Z.eqb_spec (t + w) 0); [lia|].
    pose proof (Z.mod_pos_bound (t - 1) 0xFFFF).
    assert (E : (t + w - 1) mod 0xFFFF = ((t - 1) mod 0xFFFF + w) mod 0xFFFF).
    { rewrite Zplus_mod_idemp_l. f_equal. lia. }
    rewrite E. clear E.
    set (r := (t - 1) mod 0xFFFF) in *.
    destruct (Z.ltb_spec 0xFFFF (r + 1 + w)).
    + replace (r + w) with (r + w - 0xFFFF + 1 * 0xFFFF) by lia.
      rewrite Z.mod_add by lia. rewrite Z.mod_small; lia.
    + rewrite Z.mod_small; lia.
Qed.

Lemma oc_sum_total data : oc_sum (words data) = oc_norm (total data).
Proof.
  unfold oc_sum, total.
  pose proof (words_range data) as Hr.
  assert (G : forall ws t, 0 <= t -> Forall (fun w => 0 <= w <= 0xFFFF) ws ->
            foldl oc_add (oc_norm t) ws = oc_norm (t + foldr Z.add 0 ws)).
  { induction ws as [|w ws IH]; intros t Ht Hws; simpl.
    - f_equal. lia.
    - inversion Hws; subst. rewrite oc_add_norm by lia.
      rewrite IH by (auto; lia). f_equal. lia. }
  change 0 with (oc_norm 0) at 1. now rewrite G.
Qed.

(** Two rounds of the folding loop reach a value below [2^16], so the loop
    of the source has stopped, and further rounds change nothing. *)
Lemma fold_carries_norm s :
  0 <= s < 4294967296 -> fold_carries 2 s = oc_norm s.
Proof.
  intros Hs. unfold fold_carries, wrap32.
  change 0xFFFF with (Z.ones 16).
  rewrite !Z.shiftr_div_pow2, !Z.land_ones by lia.
  change (2 ^ 16) with 65536.
  unfold oc_norm. change (Z.ones 16) with 65535.
  pose proof (Z.div_mod s 65536 ltac:(lia)) as E.
  pose proof (Z.mod_pos_bound s 65536 ltac:(lia)) as B.
  assert (Q : 0 <= s / 65536 < 65536)
    by (split; [apply Z.div_pos; lia | apply Z.div_lt_upper_bound; lia]).
  set (q := s / 65536) in *. set (r := s mod 65536) in *.
  destruct (Z.eqb_spec q 0) as [Hq|Hq].
  - destruct (Z.eqb_spec s 0); [lia|]. rewrite Z.mod_small; lia.
  - rewrite (Z.mod_small (r + q)) by lia.
    destruct (Z.eqb_spec s 0); [lia|].
    assert (N : (s - 1) mod 65535 + 1 =
                if r + q <? 65536 then r + q else r + q - 65535).
    { destruct (Z.ltb_spec (r + q) 65536).
      - replace (s - 1) with (r + q - 1 + q * 65535) by lia.
        rewrite Z.mod_add by lia. rewrite Z.mod_small; lia.
      - replace (s - 1) with (r + q - 1 - 65535 + (q + 1) * 65535) by lia.
        rewrite Z.mod_add by lia. rewrite Z.mod_small; lia. }
    rewrite N. clear N.
    destruct (Z.ltb_spec (r + q) 65536).
    + rewrite Z.div_small by lia. reflexivity.
    + assert (D : (r + q) / 65536 = 1).
      { symmetry. apply (Z.div_unique (r + q) 65536 1 (r + q - 65536)); lia. }
      assert (M : (r + q) mod 65536 = r + q - 65536).
      { symmetry. apply (Z.mod_unique (r + q) 65536 1 (r + q - 65536)); lia. }
      rewrite D, M. simpl (1 =? 0). cbv iota.
      rewrite Z.mod_small; lia.
Qed.

Lemma fold_carries_done s :
  0 <= s < 4294967296 -> Z.shiftr (fold_carries 2 s) 16 = 0.
Proof.
  intros Hs. rewrite fold_carries_norm by assumption.
  pose proof (oc_norm_range s ltac:(lia)).
  rewrite Z.shiftr_div_pow2 by lia. apply Z.div_small.
  change (2 ^ 16) with 65536. lia.
Qed.

Lemma fold_carries_stable k s :
  0 <= s < 4294967296 -> fold_carries (2 + k) s = fold_carries 2 s.
Proof.
  intros Hs. pose proof (fold_carries_done s Hs) as Hd. revert Hd.
  assert (W : forall x, 0 <= wrap32 x < 4294967296)
    by (intros; apply Z.mod_pos_bound; lia).
  assert (Stop : forall n x, Z.shiftr x 16 = 0 -> fold_carries n x = x).
  { intros [|n] x Hx; simpl; [reflexivity|]. now rewrite Hx. }
  cbn [Nat.add fold_carries].
  destruct (Z.shiftr s 16 =? 0); [reflexivity|].
  destruct (Z.shiftr (wrap32 _) 16 =? 0); [reflexivity|].
  intros Hd. now apply Stop.
Qed.

(** The summation loop and the odd-byte step compute the plain word sum
    modulo [2^32]. *)
Lemma sum_words_total data acc :
  (if Z.rem (len data) 2 =? 1
   then wrap32 (sum_words data (wrap32 acc)
                + Z.shiftl (u8 (default Byte.x00 (last data))) 8)
   else sum_words data (wrap32 acc))
  = wrap32 (acc + total data).
Proof.
  revert acc. unfold total, len.
  induction data as [| x | x y l IH] using list_pair_ind; intros acc.
  - simpl. f_equal. lia.
  - cbn [length words foldr sum_words last default].
    change (Z.rem (Z.of_nat 1) 2 =? 1) with true. cbv iota.
    rewrite Z.shiftl_mul_pow2 by lia. change (2 ^ 8) with 256.
    unfold wrap32. rewrite Zplus_mod_idemp_l. f_equal. unfold id. lia.
  - change (words (x :: y :: l)) with ((u8 x * 256 + u8 y) :: words l).
    cbn [foldr sum_words length].
    assert (Hrem : Z.rem (Z.of_nat (S (S (length l)))) 2
                   = Z.rem (Z.of_nat (length l)) 2).
    { rewrite !Z.rem_mod_nonneg by lia.
      replace (Z.of_nat (S (S (length l))))
        with (Z.of_nat (length l) + 1 * 2) by lia.
      now rewrite Z.mod_add by lia. }
    rewrite Hrem.
    assert (Hlast : Z.rem (Z.of_nat (length l)) 2 = 1 ->
                    last (x :: y :: l) = last l).
    { destruct l; [discriminate|reflexivity]. }
    specialize (IH (acc + Uint16 x y)).
    replace (wrap32 (wrap32 acc + Uint16 x y)) with (wrap32 (acc + Uint16 x y))
      by (unfold wrap32; now rewrite Zplus_mod_idemp_l).
    destruct (Z.eqb_spec (Z.rem (Z.of_nat (length l)) 2) 1) as [Ho|Ho].
    + rewrite (Hlast Ho), IH. f_equal. rewrite Uint16_eq. lia.
    + rewrite IH. f_equal. rewrite Uint16_eq. lia.
Qed.

Lemma lxor_ffff x : 0 <= x <= 0xFFFF -> Z.lxor x 0xFFFF = 0xFFFF - x.
Proof.
  intros Hx.
  enough (E : x + Z.lxor x 0xFFFF = 0xFFFF) by lia.
  rewrite <- Z.add_lor_land.
  assert (L : Z.lor x (Z.lxor x 0xFFFF) = 0xFFFF).
  { change 0xFFFF with (Z.ones 16).
    apply Z.bits_inj'. intros n Hn.
    rewrite Z.lor_spec, Z.lxor_spec, Z.testbit_ones_nonneg by lia.
    destruct (Z.ltb_spec n 16).
    - destruct (Z.testbit x n); reflexivity.
    - destruct (Z.eq_dec x 0) as [->|]; [now rewrite Z.bits_0|].
      rewrite (Z.bits_above_log2 x); [reflexivity | lia |].
      apply Z.lt_le_trans with 16; [|lia]. apply Z.log2_lt_pow2; lia. }
  assert (A : Z.land x (Z.lxor x 0xFFFF) = 0).
  { apply Z.bits_inj'. intros n Hn.
    rewrite Z.land_spec, Z.lxor_spec, Z.bits_0.
    change 0xFFFF with (Z.ones 16). rewrite Z.testbit_ones_nonneg by lia.
    destruct (Z.ltb_spec n 16).
    - destruct (Z.testbit x n); reflexivity.
    - destruct (Z.eq_dec x 0) as [->|]; [now rewrite Z.bits_0|].
      rewrite (Z.bits_above_log2 x); [reflexivity | lia |].
      apply Z.lt_le_trans with 16; [|lia]. apply Z.log2_lt_pow2; lia. }
  rewrite L, A. lia.
Qed.

Lemma CalculateChecksum_eq data :
  CalculateChecksum data = 0xFFFF - oc_norm (wrap32 (total data)).
Proof.
  unfold CalculateChecksum.
  pose proof (sum_words_total data 0) as E.
  change (wrap32 0) with 0 in E. rewrite E. clear E.
  change (0 + total data) with (total data).
  assert (W : 0 <= wrap32 (total data) < 4294967296)
    by (apply Z.mod_pos_bound; lia).
  rewrite fold_carries_norm by assumption.
  pose proof (oc_norm_range (wrap32 (total data)) ltac:(lia)) as R.
  unfold wrap16 at 1. rewrite Z.mod_small by lia.
  apply lxor_ffff. lia.
Qed.

Lemma CalculateChecksum_range data : 0 <= CalculateChecksum data <= 0xFFFF.
Proof.
  rewrite CalculateChecksum_eq.
  assert (W : 0 <= wrap32 (total data) < 4294967296)
    by (apply Z.mod_pos_bound; lia).
  pose proof (oc_norm_range (wrap32 (total data)) ltac:(lia)). lia.
Qed.

(** Up to 65537 words (131074 bytes) the 32-bit accumulator cannot wrap, and
    the code computes the checksum of the specification. *)
Lemma CalculateChecksum_refines data :
  len data <= 131074 -> CalculateChecksum data = checksum data.
Proof.
  intros Hl. rewrite CalculateChecksum_eq. unfold checksum.
  rewrite oc_sum_total. f_equal. f_equal.
  pose proof (total_nonneg data). pose proof (total_bound data).
  assert ((len data + 1) / 2 < 65538)
    by (apply Z.div_lt_upper_bound; lia).
  unfold wrap32. apply Z.mod_small. lia.
Qed.

Lemma oc_norm_complement t :
  0 <= t -> oc_norm (t + (0xFFFF - oc_norm t)) = 0xFFFF.
Proof.
  intros Ht. unfold oc_norm.
  destruct (Z.eqb_spec t 0) as [->|Hnz]; [reflexivity|].
  pose proof (Z.mod_pos_bound (t - 1) 0xFFFF ltac:(lia)) as B.
  pose proof (Z.div_mod (t - 1) 0xFFFF ltac:(lia)) as E.
  set (r := (t - 1) mod 0xFFFF) in *. set (q := (t - 1) / 0xFFFF) in *.
  destruct (Z.eqb_spec (t + (0xFFFF - (r + 1))) 0); [lia|].
  replace (t + (0xFFFF - (r + 1)) - 1) with (0xFFFE + q * 0xFFFF) by lia.
  rewrite Z.mod_add by lia. reflexivity.
Qed.

Lemma PutUint16_app l1 a b l2 v :
  PutUint16 (length l1) v (l1 ++ a :: b :: l2)
  = l1 ++ to_byte (Z.shiftr v 8) :: to_byte v :: l2.
Proof.
  unfold PutUint16.
  replace (S (length l1)) with (length l1 + 1)%nat by lia.
  replace (length l1) with (length l1 + 0)%nat at 2 by lia.
  now rewrite !insert_app_r.
Qed.

Lemma total_PutUint16_zero l1 l2 v :
  Nat.Even (length l1) -> 0 <= v <= 0xFFFF ->
  total (PutUint16 (length l1) v (l1 ++ Byte.x00 :: Byte.x00 :: l2))
  = total (l1 ++ Byte.x00 :: Byte.x00 :: l2) + v.
Proof.
  intros Hev Hv. rewrite PutUint16_app, !total_app_even by assumption.
  unfold total.
  change (words (?x :: ?y :: l2)) with ((u8 x * 256 + u8 y) :: words l2).
  cbn [foldr]. rewrite !u8_to_byte.
  rewrite Z.shiftr_div_pow2 by lia. change (2 ^ 8) with 256.
  change (u8 Byte.x00) with 0.
  rewrite (Z.mod_small (v / 256)).
  - pose proof (Z.div_mod v 256 ltac:(lia)). lia.
  - split; [apply Z.div_pos; lia | apply Z.div_lt_upper_bound; lia].
Qed.

(** Storing the checksum of a buffer into a zeroed, word-aligned field of
    that buffer makes the buffer verify: the code's own check returns 0, and
    the one's-complement sum of the specification is [0xFFFF]. *)
Lemma stored_checksum_verifies data off :
  Nat.Even off ->
  data !! off = Some Byte.x00 -> data !! S off = Some Byte.x00 ->
  len data <= 131074 ->
  let data' := PutUint16 off (CalculateChecksum data) data in
  CalculateChecksum data' = 0 /\ verifies data'.
Proof.
  intros Hev H0 H1 Hlen data'.
  assert (Hoff : length (take off data) = off).
  { apply lookup_lt_Some in H0. rewrite length_take. lia. }
  assert (Hsplit : data = take off data ++ Byte.x00 :: Byte.x00
                                   :: drop (S (S off)) data).
  { rewrite <- (take_drop_middle data off Byte.x00 H0) at 1. f_equal. f_equal.
    rewrite <- (take_drop_middle (drop (S off) data) 0 Byte.x00).
    - simpl. now rewrite drop_drop, Nat.add_1_r.
    - rewrite lookup_drop. now rewrite Nat.add_0_r. }
  assert (Hlen' : len data' = len data)
    by (unfold data', len; now rewrite length_PutUint16).
  pose proof (CalculateChecksum_range data) as Hc.
  assert (Ht' : total data' = total data + CalculateChecksum data).
  { unfold data'. rewrite Hsplit at 2 3.
    rewrite <- Hoff at 1. apply total_PutUint16_zero; [|lia].
    now rewrite Hoff. }
  assert (Hb : forall d, len d <= 131074 -> 0 <= total d < 4294967296).
  { intros d Hd. pose proof (total_nonneg d). pose proof (total_bound d).
    assert ((len d + 1) / 2 < 65538) by (apply Z.div_lt_upper_bound; lia).
    lia. }
  assert (Hz : oc_norm (total data') = 0xFFFF).
  { rewrite Ht'. rewrite (CalculateChecksum_eq data). unfold wrap32.
    rewrite (Z.mod_small (total data)) by (apply Hb; lia).
    apply oc_norm_complement. apply total_nonneg. }
  split.
  - rewrite CalculateChecksum_eq. unfold wrap32.
    rewrite (Z.mod_small (total data')) by (apply Hb; lia).
    rewrite Hz. reflexivity.
  - unfold verifies. now rewrite oc_sum_total.
Qed.

End ChecksumFacts.

(** ** Headers built by [BuildIPHeader], [BuildTCPHeader] and [SendPacket] *)

Section HeaderFacts.
Import RawSocket InternetChecksum.

Lemma copy_from_middle {A} (pre mid post src : list A) :
  length mid = length src ->
  copy_from (length pre) src (pre ++ mid ++ post) = pre ++ src ++ post.
Proof.
  intros Hlen. unfold copy_from, copy_at.
  rewrite take_ge by (rewrite !length_app; lia).
  replace (length pre) with (length pre + 0)%nat at 1 by lia.
  rewrite list_inserts_app_r. f_equal.
  now apply list_inserts_0_r.
Qed.

Lemma make_add a b : 0 <= a -> 0 <= b -> make (a + b) = make a ++ make b.
Proof.
  intros Ha Hb. unfold make. rewrite Z2Nat.inj_add by lia.
  apply replicate_add.
Qed.

Lemma len_make n : 0 <= n -> len (make n) = n.
Proof. intros Hn. unfold len. rewrite length_make. lia. Qed.

Lemma len_nonneg {A} (l : list A) : 0 <= len l.
Proof. unfold len. lia. Qed.

(** The three [copy] calls that assemble [a ++ b ++ c] in a fresh buffer. *)
Lemma assemble3 (a b c : list byte) :
  copy_from (length a + length b) c
    (copy_from (length a) b
       (copy_from 0 a (make (len a + len b + len c))))
  = a ++ b ++ c.
Proof.
  pose proof (len_nonneg a). pose proof (len_nonneg b).
  pose proof (len_nonneg c).
  rewrite <- Z.add_assoc, !make_add by lia.
  pose proof (copy_from_middle [] (make (len a)) (make (len b) ++ make (len c)) a)
    as E1.
  simpl in E1. rewrite E1 by (rewrite length_make; unfold len; lia).
  pose proof (copy_from_middle a (make (len b)) (make (len c)) b) as E2.
  rewrite E2 by (rewrite length_make; unfold len; lia).
  pose proof (copy_from_middle (a ++ b) (make (len c)) [] c) as E3.
  rewrite length_app, !app_nil_r, <- !app_assoc in E3.
  rewrite E3 by (rewrite length_make; unfold len; lia).
  reflexivity.
Qed.

Lemma length_pseudo_header src dst n : length (pseudo_header src dst n) = 12%nat.
Proof.
  unfold pseudo_header.
  now rewrite length_PutUint16, !length_insert, !length_copy_at, length_make.
Qed.

Lemma checksum_input_eq src dst h p :
  checksum_input src dst h p = pseudo_header src dst (len h + len p) ++ h ++ p.
Proof. unfold checksum_input. apply assemble3. Qed.

Lemma length_BuildIPHeader src dst proto n :
  length (BuildIPHeader src dst proto n) = 20%nat.
Proof.
  unfold BuildIPHeader.
  now rewrite !length_PutUint16, !length_copy_at, !length_insert,
    !length_PutUint16, !length_insert, length_make.
Qed.

Ltac norm_length :=
  repeat first
    [ rewrite length_PutUint16 | rewrite length_PutUint32
    | rewrite length_copy_at | rewrite length_insert
    | rewrite length_inserts | rewrite length_make ].

Ltac lookup_write :=
  unfold PutUint16, PutUint32, copy_from, copy_at;
  repeat first
    [ rewrite list_lookup_inserts_lt by lia
    | rewrite list_lookup_insert_ne by lia
    | rewrite list_lookup_insert_eq
        by (norm_length; unfold IPHeaderSize, TCPHeaderSize, len in *; lia) ].

Lemma BuildIPHeader_verifies src dst proto n :
  CalculateChecksum (BuildIPHeader src dst proto n) = 0
  /\ verifies (BuildIPHeader src dst proto n).
Proof.
  unfold BuildIPHeader. cbv zeta.
  match goal with
  | |- CalculateChecksum (PutUint16 10 _ ?pre) = 0 /\ _ =>
      apply (stored_checksum_verifies pre 10)
  end.
  - exists 5%nat. reflexivity.
  - lookup_write. reflexivity.
  - lookup_write. reflexivity.
  - unfold len. norm_length. unfold IPHeaderSize. lia.
Qed.

Lemma BuildIPHeader_fields src dst proto n :
  let h := BuildIPHeader src dst proto n in
  byte_at h 0 = to_byte 0x45 /\ byte_at h 6 = to_byte 0x40 /\
  byte_at h 7 = to_byte 0 /\ byte_at h 8 = to_byte 64 /\ byte_at h 9 = proto.
Proof.
  unfold BuildIPHeader, byte_at. cbv zeta.
  repeat split; lookup_write; reflexivity.
Qed.

Lemma len_pad_options opts : len (pad_options opts) = 4 * ((len opts + 3) / 4).
Proof.
  unfold pad_options. pose proof (len_nonneg opts) as Hn.
  rewrite !Z.rem_mod_nonneg by lia.
  pose proof (Z.mod_pos_bound (len opts) 4 ltac:(lia)) as Hm.
  pose proof (Z.div_mod (len opts) 4 ltac:(lia)) as Hd.
  destruct (Z.eqb_spec (len opts mod 4) 0) as [E|E]; cbn [negb].
  - replace (len opts + 3) with (3 + (len opts / 4) * 4) by lia.
    rewrite Z.div_add by lia. change (3 / 4) with 0. lia.
  - unfold len at 1. rewrite length_app, length_make, Nat2Z.inj_add.
    rewrite Z2Nat.id by lia. fold (len opts).
    replace (len opts + 3) with (len opts mod 4 - 1 + (len opts / 4 + 1) * 4)
      by lia.
    rewrite Z.div_add by lia. rewrite (Z.div_small (len opts mod 4 - 1)) by lia.
    lia.
Qed.

Lemma length_BuildTCPHeader sp dp sq ak fl w opts :
  len (BuildTCPHeader sp dp sq ak fl w opts) = 20 + len (pad_options opts).
Proof.
  unfold BuildTCPHeader. cbv zeta. pose proof (len_nonneg (pad_options opts)).
  destruct (0 <? len (pad_options opts)); unfold len, copy_from in *;
    norm_length; unfold TCPHeaderSize; lia.
Qed.

Lemma BuildTCPHeader_fields sp dp sq ak fl w opts :
  let h := BuildTCPHeader sp dp sq ak fl w opts in
  byte_at h 12 = to_byte (wrap8 (Z.shiftl (wrap8 (Z.quot (len h) 4)) 4)) /\
  byte_at h 14 = to_byte (Z.shiftr w 8) /\ byte_at h 15 = to_byte w /\
  h !! 16%nat = Some Byte.x00 /\ h !! 17%nat = Some Byte.x00.
Proof.
  cbv zeta. rewrite length_BuildTCPHeader.
  unfold BuildTCPHeader, byte_at. cbv zeta.
  pose proof (len_nonneg (pad_options opts)).
  destruct (0 <? len (pad_options opts)); repeat split;
    change (Z.to_nat TCPHeaderSize) with 20%nat;
    lookup_write; reflexivity.
Qed.

Lemma length_segment_header src sp dst dp sq ak fl opts pl :
  len (segment_header src sp dst dp sq ak fl opts pl)
  = 20 + len (pad_options opts).
Proof.
  unfold segment_header. cbv zeta. unfold len at 1.
  rewrite length_PutUint16. apply length_BuildTCPHeader.
Qed.

Lemma segment_header_fields src sp dst dp sq ak fl opts pl :
  let h := segment_header src sp dst dp sq ak fl opts pl in
  byte_at h 12 = to_byte (wrap8 (Z.shiftl (wrap8 (Z.quot (len h) 4)) 4)) /\
  byte_at h 14 = to_byte 0xFF /\ byte_at h 15 = to_byte 0xFF.
Proof.
  cbv zeta. rewrite length_segment_header.
  pose proof (BuildTCPHeader_fields sp dp sq ak fl 65535 opts) as F.
  cbv zeta in F. rewrite length_BuildTCPHeader in F.
  destruct F as (F12 & F14 & F15 & _).
  unfold segment_header, byte_at in *. cbv zeta.
  unfold PutUint16. rewrite !list_lookup_insert_ne by lia.
  auto.
Qed.

(** The data-offset nibble holds the header length in words modulo 16. *)
Lemma tcp_data_offset_segment src sp dst dp sq ak fl opts pl :
  let h := segment_header src sp dst dp sq ak fl opts pl in
  tcp_data_offset h = (len h / 4) mod 16.
Proof.
  cbv zeta. pose proof (segment_header_fields src sp dst dp sq ak fl opts pl) as F.
  cbv zeta in F. destruct F as (F12 & _).
  unfold tcp_data_offset. rewrite F12, u8_to_byte. unfold wrap8.
  set (L := len (segment_header src sp dst dp sq ak fl opts pl)).
  assert (HL : 0 <= L) by apply len_nonneg.
  rewrite Z.quot_div_nonneg by lia.
  rewrite Z.shiftl_mul_pow2, Z.shiftr_div_pow2 by lia.
  change (2 ^ 4) with 16.
  rewrite Z.mod_mod by lia.
  set (q := L / 4).
  pose proof (Z.div_mod q 16 ltac:(lia)) as Dq.
  pose proof (Z.mod_pos_bound q 16 ltac:(lia)) as Bq.
  pose proof (Z.div_mod (q mod 256) 16 ltac:(lia)) as D1.
  pose proof (Z.mod_pos_bound (q mod 256) 16 ltac:(lia)) as B1.
  pose proof (Z.div_mod q 256 ltac:(lia)) as D2.
  pose proof (Z.mod_pos_bound q 256 ltac:(lia)) as B2.
  assert (E1 : (q mod 256) mod 16 = q mod 16).
  { replace q with (q mod 256 + (q / 256 * 16) * 16) at 2 by lia.
    now rewrite Z.mod_add by lia. }
  assert (E2 : (q mod 256 * 16) mod 256 = q mod 16 * 16).
  { replace (q mod 256 * 16)
      with (q mod 16 * 16 + (q mod 256 / 16) * 256) by lia.
    rewrite Z.mod_add by lia. apply Z.mod_small. lia. }
  rewrite E2. now rewrite Z.div_mul by lia.
Qed.

Lemma datagram_eq src sp dst dp sq ak fl opts pl :
  datagram src sp dst dp sq ak fl opts pl
  = BuildIPHeader src dst (to_byte IPPROTO_TCP)
      (len (segment_header src sp dst dp sq ak fl opts pl) + len pl)
    ++ segment_header src sp dst dp sq ak fl opts pl ++ pl.
Proof. unfold datagram. apply assemble3. Qed.

Lemma PutUint16_app_l off v (l1 l2 : list byte) :
  (S off < length l1)%nat ->
  PutUint16 off v (l1 ++ l2) = PutUint16 off v l1 ++ l2.
Proof.
  intros H. unfold PutUint16.
  rewrite (insert_app_l l1) by lia.
  rewrite insert_app_l by (rewrite length_insert; lia).
  reflexivity.
Qed.

Lemma PutUint16_app_r off v (l1 l2 : list byte) :
  PutUint16 (length l1 + off) v (l1 ++ l2) = l1 ++ PutUint16 off v l2.
Proof.
  unfold PutUint16.
  replace (S (length l1 + off)) with (length l1 + S off)%nat by lia.
  now rewrite !insert_app_r.
Qed.

(** The buffer a receiver sums to check a segment: pseudo header, TCP
    header as sent, payload. *)
Lemma segment_checksum_verifies src sp dst dp sq ak fl opts pl :
  let h := segment_header src sp dst dp sq ak fl opts pl in
  len h + len pl <= 65535 ->
  CalculateChecksum (checksum_input src dst h pl) = 0
  /\ verifies (checksum_input src dst h pl).
Proof.
  intros h Hsize. subst h.
  pose proof (length_segment_header src sp dst dp sq ak fl opts pl) as Lh.
  pose proof (length_BuildTCPHeader sp dp sq ak fl 65535 opts) as Lh0.
  pose proof (BuildTCPHeader_fields sp dp sq ak fl 65535 opts) as F.
  cbv zeta in F. destruct F as (_ & _ & _ & F16 & F17).
  pose proof (len_nonneg (pad_options opts)) as Ho.
  pose proof (len_nonneg pl) as Hp.
  rewrite checksum_input_eq, Lh.
  unfold segment_header in *. cbv zeta in *.
  set (h0 := BuildTCPHeader sp dp sq ak fl 65535 opts) in *.
  unfold CalculateTCPChecksum. rewrite checksum_input_eq, Lh0.
  set (ps := pseudo_header src dst (20 + len (pad_options opts) + len pl)).
  assert (Lps : length ps = 12%nat) by apply length_pseudo_header.
  set (c := CalculateChecksum (ps ++ h0 ++ pl)).
  assert (E : ps ++ PutUint16 16 c h0 ++ pl = PutUint16 28 c (ps ++ h0 ++ pl)).
  { change 28%nat with (12 + 16)%nat. rewrite <- Lps.
    rewrite PutUint16_app_r, PutUint16_app_l; [reflexivity|].
    unfold len in Lh0. lia. }
  rewrite E. apply stored_checksum_verifies.
  - exists 14%nat. reflexivity.
  - rewrite lookup_app_r by lia. rewrite Lps.
    rewrite lookup_app_l by (unfold len in Lh0; lia). exact F16.
  - rewrite lookup_app_r by lia. rewrite Lps.
    rewrite lookup_app_l by (unfold len in Lh0; lia). exact F17.
  - unfold len in *. rewrite !length_app, Lps. lia.
Qed.

Lemma SendPacket_sent sendto src sp dst dp sq ak fl opts pl :
  (forall p a, 65535 < len p -> sendto p a <> None) ->
  fst (SendPacket sendto src sp dst dp sq ak fl opts pl) = None ->
  len (datagram src sp dst dp sq ak fl opts pl) <= 65535.
Proof.
  intros Hk Hs. unfold SendPacket in Hs. cbv zeta in Hs.
  destruct (Z.le_gt_cases (len (datagram src sp dst dp sq ak fl opts pl)) 65535)
    as [|Hgt]; [assumption|exfalso].
  apply Z.gt_lt in Hgt || idtac.
  specialize (Hk _ (copy (make 4) (To4 dst)) Hgt).
  destruct (sendto _ _); [discriminate|congruence].
Qed.

Lemma Uint16_bytes v :
  Uint16 (to_byte (Z.shiftr v 8)) (to_byte v) = v mod 65536.
Proof.
  rewrite Uint16_eq, !u8_to_byte, Z.shiftr_div_pow2 by lia.
  change (2 ^ 8) with 256.
  pose proof (Z.div_mod v 256 ltac:(lia)).
  pose proof (Z.mod_pos_bound v 256 ltac:(lia)).
  pose proof (Z.div_mod (v / 256) 256 ltac:(lia)).
  pose proof (Z.mod_pos_bound (v / 256) 256 ltac:(lia)).
  apply (Z.mod_unique v 65536 (v / 256 / 256)); lia.
Qed.

Lemma byte_at_app_l (l1 l2 : list byte) i :
  (i < length l1)%nat -> byte_at (l1 ++ l2) i = byte_at l1 i.
Proof. intros Hi. unfold byte_at. now rewrite lookup_app_l. Qed.

Lemma To4_length ip : To4 ip = [] \/ length (To4 ip) = 4%nat.
Proof.
  unfold To4.
  destruct (Nat.eqb_spec (length ip) 4); [now right|].
  destruct (Nat.eqb_spec (length ip) 16); [|now left]. cbn [andb].
  destruct (bool_decide _); [right|now left].
  rewrite length_drop. lia.
Qed.

(** The pseudo header is the two addresses, four bytes each (zeros for an
    address that is not IPv4), then zero, the protocol and the length. *)
Lemma pseudo_header_eq src dst n :
  pseudo_header src dst n
  = copy (make 4) (To4 src) ++ copy (make 4) (To4 dst)
    ++ [to_byte 0; to_byte IPPROTO_TCP;
        to_byte (Z.shiftr (wrap16 n) 8); to_byte (wrap16 n)].
Proof.
  unfold pseudo_header. cbv zeta.
  destruct (To4_length src) as [Es|Ls], (To4_length dst) as [Ed|Ld].
  - rewrite Es, Ed. reflexivity.
  - rewrite Es. destruct (To4 dst) as [|d0 [|d1 [|d2 [|d3 [|]]]]];
      try discriminate Ld. reflexivity.
  - rewrite Ed. destruct (To4 src) as [|s0 [|s1 [|s2 [|s3 [|]]]]];
      try discriminate Ls. reflexivity.
  - destruct (To4 src) as [|s0 [|s1 [|s2 [|s3 [|]]]]]; try discriminate Ls.
    destruct (To4 dst) as [|d0 [|d1 [|d2 [|d3 [|]]]]]; try discriminate Ld.
    reflexivity.
Qed.

(** The IP header as its receiver reads it: five words long, the total
    length [20 + payloadLen] as a [uint16], the protocol, and the two
    addresses (zeros for an address that is not IPv4). *)
Lemma BuildIPHeader_wire src dst proto n :
  let h := BuildIPHeader src dst proto n in
  ip_header_len h = 20 /\ ip_total_length h = (20 + n) mod 65536
  /\ byte_at h 9 = proto
  /\ take 4 (drop 12 h) = copy (make 4) (To4 src)
  /\ take 4 (drop 16 h) = copy (make 4) (To4 dst).
Proof.
  cbv zeta. split; [|split; [|split; [|split]]].
  - unfold ip_header_len.
    destruct (BuildIPHeader_fields src dst proto n) as (-> & _). reflexivity.
  - unfold ip_total_length.
    assert (E : byte_at (BuildIPHeader src dst proto n) 2
                = to_byte (Z.shiftr (wrap16 (IPHeaderSize + n)) 8)
                /\ byte_at (BuildIPHeader src dst proto n) 3
                   = to_byte (wrap16 (IPHeaderSize + n))).
    { unfold BuildIPHeader, byte_at. cbv zeta.
      split; lookup_write; reflexivity. }
    destruct E as [-> ->]. rewrite Uint16_bytes. unfold wrap16, IPHeaderSize.
    apply Z.mod_mod. lia.
  - apply BuildIPHeader_fields.
  - unfold BuildIPHeader. cbv zeta.
    destruct (To4_length src) as [Es|Ls], (To4_length dst) as [Ed|Ld];
      repeat match goal with
             | H : To4 _ = [] |- _ => rewrite H; clear H
             | H : length (To4 ?ip) = 4%nat |- _ =>
                 destruct (To4 ip) as [|? [|? [|? [|? [|]]]]];
                 try discriminate H; clear H
             end; reflexivity.
  - unfold BuildIPHeader. cbv zeta.
    destruct (To4_length src) as [Es|Ls], (To4_length dst) as [Ed|Ld];
      repeat match goal with
             | H : To4 _ = [] |- _ => rewrite H; clear H
             | H : length (To4 ?ip) = 4%nat |- _ =>
                 destruct (To4 ip) as [|? [|? [|? [|? [|]]]]];
                 try discriminate H; clear H
             end; reflexivity.
Qed.

(** The buffer [CalculateTCPChecksum] sums is the pseudo header and the
    segment of the datagram on the wire. *)
Lemma checksum_input_on_wire src sp dst dp sq ak fl opts pl :
  let h := segment_header src sp dst dp sq ak fl opts pl in
  let packet := datagram src sp dst dp sq ak fl opts pl in
  len packet <= 65535 ->
  wire_tcp_length packet = len h + len pl
  /\ wire_segment packet = h ++ pl
  /\ wire_pseudo_header packet = pseudo_header src dst (len h + len pl)
  /\ checksum_input src dst h pl
     = wire_pseudo_header packet ++ wire_segment packet.
Proof.
  intros h packet Hsize. subst packet. rewrite datagram_eq in *. fold h in Hsize |- *.
  set (n := len h + len pl) in *.
  set (iph := BuildIPHeader src dst (to_byte IPPROTO_TCP) n) in *.
  destruct (BuildIPHeader_wire src dst (to_byte IPPROTO_TCP) n)
    as (Hihl & Htot & Hproto & Hsrc & Hdst).
  fold iph in Hihl, Htot, Hproto, Hsrc, Hdst.
  assert (Li : length iph = 20%nat) by apply length_BuildIPHeader.
  assert (Hn : 0 <= n /\ 20 + n <= 65535).
  { unfold len in *. rewrite !length_app, Li in Hsize. unfold n, len. lia. }
  assert (Eihl : ip_header_len (iph ++ h ++ pl) = 20).
  { unfold ip_header_len in *. rewrite byte_at_app_l by lia. exact Hihl. }
  assert (Etot : ip_total_length (iph ++ h ++ pl) = 20 + n).
  { unfold ip_total_length in *. rewrite !byte_at_app_l by lia.
    rewrite Htot. apply Z.mod_small. lia. }
  assert (Elen : wire_tcp_length (iph ++ h ++ pl) = n).
  { unfold wire_tcp_length. rewrite Eihl, Etot. lia. }
  assert (Eseg : wire_segment (iph ++ h ++ pl) = h ++ pl).
  { unfold wire_segment. rewrite Elen, Eihl.
    change (Z.to_nat 20) with 20%nat.
    rewrite drop_app_length' by (symmetry; exact Li).
    apply take_ge. unfold n, len. rewrite length_app. lia. }
  assert (Eps : wire_pseudo_header (iph ++ h ++ pl) = pseudo_header src dst n).
  { unfold wire_pseudo_header. rewrite Elen, pseudo_header_eq.
    rewrite byte_at_app_l by lia. rewrite Hproto.
    rewrite !drop_app_le by lia. rewrite !take_app_le
      by (rewrite length_drop; lia).
    rewrite Hsrc, Hdst. unfold wrap16. rewrite Z.mod_small by lia.
    reflexivity. }
  split; [exact Elen|]. split; [exact Eseg|]. split; [exact Eps|].
  rewrite Eps, Eseg. apply checksum_input_eq.
Qed.

End HeaderFacts.

(** ** Parsing in [RecvPacket] *)

Section RecvFacts.
Import RawSocket.

Lemma slice_ok s lo hi :
  0 <= lo -> lo <= hi -> hi <= len s ->
  slice s lo hi = Ok (take (Z.to_nat (hi - lo)) (drop (Z.to_nat lo) s)).
Proof.
  intros H1 H2 H3. unfold slice.
  destruct (Z.leb_spec 0 lo); [|lia].
  destruct (Z.leb_spec lo hi); [|lia].
  destruct (Z.leb_spec hi (len s)); [|lia].
  reflexivity.
Qed.

Lemma slice_panic s lo hi :
  slice s lo hi = Panic <-> ~ (0 <= lo /\ lo <= hi /\ hi <= len s).
Proof.
  unfold slice.
  destruct (Z.leb_spec 0 lo); destruct (Z.leb_spec lo hi);
    destruct (Z.leb_spec hi (len s)); simpl; split; intros; try lia;
    try discriminate; try reflexivity.
Qed.

Lemma index_take_drop s j k i :
  0 <= i -> (Z.to_nat i < k)%nat -> (j + k <= length s)%nat ->
  index (take k (drop j s)) i = Ok (byte_at (drop j s) (Z.to_nat i)).
Proof.
  intros Hi Hk Hs. unfold index, byte_at.
  destruct (Z.leb_spec 0 i); [|lia].
  rewrite lookup_take_lt by lia.
  destruct (drop j s !! Z.to_nat i) eqn:E; [reflexivity|].
  apply lookup_ge_None in E. rewrite length_drop in E. lia.
Qed.

Lemma land_0F_range x : 0 <= Z.land x 0x0F <= 15.
Proof.
  change (Z.land x 0x0F) with (Z.land x (Z.ones 4)).
  rewrite Z.land_ones by lia. change (2 ^ 4) with 16.
  pose proof (Z.mod_pos_bound x 16 ltac:(lia)). lia.
Qed.

Lemma shiftr4_u8_range b : 0 <= Z.shiftr (u8 b) 4 <= 15.
Proof.
  pose proof (u8_range b). rewrite Z.shiftr_div_pow2 by lia.
  change (2 ^ 4) with 16. split; [apply Z.div_pos; lia|].
  enough (u8 b / 16 < 16) by lia. apply Z.div_lt_upper_bound; lia.
Qed.

Lemma ip_header_len_range h : 0 <= ip_header_len h <= 60.
Proof.
  unfold ip_header_len. pose proof (land_0F_range (u8 (byte_at h 0))). lia.
Qed.

Lemma tcp_data_offset_range h : 0 <= tcp_data_offset h <= 15.
Proof. apply shiftr4_u8_range. Qed.

Lemma copy_same_length {A} (dst src : list A) :
  length dst = length src -> copy dst src = src.
Proof.
  intros E. unfold copy.
  rewrite take_ge by lia. rewrite drop_ge by lia. apply app_nil_r.
Qed.

Ltac nat_literals :=
  repeat match goal with
    | |- context [Z.to_nat (Zpos ?p)] =>
        let v := eval compute in (Z.to_nat (Zpos p)) in
        change (Z.to_nat (Zpos p)) with v
    | |- context [Z.to_nat 0] => change (Z.to_nat 0) with 0%nat
    end.

(** What a run of [RecvPacket] that got past the first size check returns,
    written without bounds checks. *)
Lemma RecvPacket_eval buf n :
  40 <= n -> n <= len buf ->
  RecvPacket buf (inl n) =
  let ihl := ip_header_len buf in
  if n <? ihl then Err ErrInvalidIHL
  else if negb (ip_protocol buf =? IPPROTO_TCP) then Err ErrNotTCP
  else if n <? ihl + TCPHeaderSize then Err ErrTooSmallForTCP
  else
    let t := drop (Z.to_nat ihl) buf in
    let payloadStart := ihl + tcp_data_offset t * 4 in
    Ok {| srcIP := IPv4 (byte_at buf 12) (byte_at buf 13)
                        (byte_at buf 14) (byte_at buf 15);
          srcPort := Uint16 (byte_at t 0) (byte_at t 1);
          dstIP := IPv4 (byte_at buf 16) (byte_at buf 17)
                        (byte_at buf 18) (byte_at buf 19);
          dstPort := Uint16 (byte_at t 2) (byte_at t 3);
          seq := Uint32 (byte_at t 4) (byte_at t 5) (byte_at t 6) (byte_at t 7);
          ack := Uint32 (byte_at t 8) (byte_at t 9) (byte_at t 10) (byte_at t 11);
          flags := byte_at t 13;
          payload :=
            if payloadStart <? n
            then Some (take (Z.to_nat (n - payloadStart))
                            (drop (Z.to_nat payloadStart) buf))
            else None |}.
Proof.
  intros Hn Hb. unfold RecvPacket. unfold len in Hb.
  unfold IPHeaderSize, TCPHeaderSize. change (20 + 20) with 40.
  destruct (Z.ltb_spec n 40); [lia|].
  rewrite slice_ok by (unfold len; lia). cbn [mbind outcome_bind].
  change (Z.to_nat (20 - 0)) with 20%nat. change (Z.to_nat 0) with 0%nat.
  rewrite !index_take_drop by (simpl; lia). cbn [mbind outcome_bind].
  rewrite !drop_0. nat_literals.
  pose proof (ip_header_len_range buf) as Hi.
  assert (Ei : wrap8 (Z.land (u8 (byte_at buf 0)) 15 * 4) = ip_header_len buf).
  { unfold wrap8. apply Z.mod_small. unfold ip_header_len in *. lia. }
  rewrite !Ei. cbv zeta.
  destruct (Z.ltb_spec n (ip_header_len buf)); [reflexivity|].
  fold (ip_protocol buf).
  destruct (negb (ip_protocol buf =? IPPROTO_TCP)); [reflexivity|].
  destruct (Z.ltb_spec n (ip_header_len buf + 20)); [reflexivity|].
  rewrite slice_ok by (unfold len; lia). cbn [mbind outcome_bind].
  replace (Z.to_nat (ip_header_len buf + 20 - ip_header_len buf)) with 20%nat
    by lia.
  rewrite !index_take_drop by (simpl; lia). cbn [mbind outcome_bind].
  nat_literals.
  set (t := drop (Z.to_nat (ip_header_len buf)) buf).
  pose proof (tcp_data_offset_range t) as Hd.
  assert (Ed : wrap8 (Z.shiftr (u8 (byte_at t 12)) 4 * 4) = tcp_data_offset t * 4).
  { unfold wrap8. apply Z.mod_small. unfold tcp_data_offset in *. lia. }
  rewrite !Ed.
  destruct (Z.ltb_spec (ip_header_len buf + tcp_data_offset t * 4) n).
  - rewrite slice_ok by (unfold len; lia). cbn [mbind outcome_bind].
    rewrite copy_same_length; [reflexivity|].
    rewrite length_make, length_take, length_drop. lia.
  - reflexivity.
Qed.

End RecvFacts.

(** ** Properties of the raw-socket component *)

Section RawSocketClaims.
Import RawSocket InternetChecksum RawSocketExamples.

(** C3. Every header built by [BuildIPHeader] verifies under the Internet
    checksum.  For every segment that [SendPacket] sent (the kernel accepted
    the datagram, so it is at most 65535 bytes long), the TCP checksum stored
    in the datagram verifies over pseudo header, TCP header and payload,
    where the pseudo header is the one the receiver forms from the datagram:
    the source and destination address and the protocol of its IP header and
    the length of its TCP segment; this pseudo header holds the 4-byte forms
    of the two addresses, zero, 6 and the segment length, and it is the one
    the code summed.  [CalculateChecksum] is the complemented 16-bit
    one's-complement sum with end-around carry, an odd trailing byte padded
    high, on every buffer of at most 131074 bytes (twice the largest IPv4
    datagram). *)
Theorem checksums_verify :
  (forall src dst proto n,
      let h := BuildIPHeader src dst proto n in
      length h = 20%nat /\ CalculateChecksum h = 0 /\ verifies h)
  /\ (forall sendto src sp dst dp sq ak fl opts pl,
         (forall p a, 65535 < len p -> sendto p a <> None) ->
         fst (SendPacket sendto src sp dst dp sq ak fl opts pl) = None ->
         let h := segment_header src sp dst dp sq ak fl opts pl in
         let data := pseudo_header src dst (len h + len pl) ++ h ++ pl in
         let packet := snd (SendPacket sendto src sp dst dp sq ak fl opts pl) in
         packet
           = BuildIPHeader src dst (to_byte IPPROTO_TCP) (len h + len pl)
             ++ h ++ pl
         /\ checksum_input src dst h pl = data
         /\ CalculateChecksum data = 0 /\ verifies data
         /\ wire_segment packet = h ++ pl
         /\ wire_pseudo_header packet
            = copy (make 4) (To4 src) ++ copy (make 4) (To4 dst)
              ++ [Byte.x00; to_byte IPPROTO_TCP;
                  to_byte (Z.shiftr (len h + len pl) 8);
                  to_byte (len h + len pl)]
         /\ data = wire_pseudo_header packet ++ wire_segment packet
         /\ CalculateChecksum (wire_pseudo_header packet ++ wire_segment packet)
            = 0
         /\ verifies (wire_pseudo_header packet ++ wire_segment packet))
  /\ (forall data, len data <= 131074 ->
         CalculateChecksum data = checksum data).
Proof.
  split; [|split].
  - intros src dst proto n h. split; [apply length_BuildIPHeader|].
    apply BuildIPHeader_verifies.
  - intros sendto src sp dst dp sq ak fl opts pl Hk Hsent h data packet.
    pose proof (SendPacket_sent _ _ _ _ _ _ _ _ _ _ Hk Hsent) as Hsize.
    assert (Ep : packet = datagram src sp dst dp sq ak fl opts pl).
    { subst packet. unfold SendPacket. cbv zeta.
      destruct (sendto _ _); reflexivity. }
    destruct (checksum_input_on_wire src sp dst dp sq ak fl opts pl Hsize)
      as (Elen & Eseg & Eps & Ein).
    rewrite <- Ep in Elen, Eseg, Eps, Ein. fold h in Elen, Eseg, Eps, Ein.
    assert (Hv : CalculateChecksum data = 0 /\ verifies data).
    { subst data. rewrite <- checksum_input_eq.
      apply segment_checksum_verifies. fold h.
      rewrite datagram_eq in Hsize. fold h in Hsize.
      unfold len in *. rewrite !length_app, length_BuildIPHeader in Hsize.
      lia. }
    assert (Ed : data = wire_pseudo_header packet ++ wire_segment packet).
    { subst data. rewrite <- checksum_input_eq. exact Ein. }
    assert (Hn : 0 <= len h + len pl <= 65535).
    { rewrite datagram_eq in Hsize. fold h in Hsize.
      unfold len in *. rewrite !length_app, length_BuildIPHeader in Hsize.
      lia. }
    split; [rewrite Ep; apply datagram_eq|].
    split; [apply checksum_input_eq|].
    split; [apply Hv|]. split; [apply Hv|].
    split; [exact Eseg|]. split.
    { rewrite Eps, pseudo_header_eq. unfold wrap16.
      rewrite Z.mod_small by lia. reflexivity. }
    split; [exact Ed|]. rewrite <- Ed. exact Hv.
  - apply CalculateChecksum_refines.
Qed.

(** Past 65537 words the accumulator of [CalculateChecksum] wraps: such a
    buffer is larger than any IPv4 datagram, and the two sums part. *)
Example CalculateChecksum_wraps :
  CalculateChecksum (replicate (Z.to_nat 131076) Byte.xff) = 1
  /\ checksum (replicate (Z.to_nat 131076) Byte.xff) = 0.
Proof. vm_compute. split; reflexivity. Qed.

Lemma checksums_verify_witness :
  verifies (wire_pseudo_header sample_packet ++ wire_segment sample_packet)
  /\ CalculateChecksum sample_packet = checksum sample_packet.
Proof.
  split.
  - refine (proj2 (proj2 (proj2 (proj2 (proj2 (proj2 (proj2 (proj2
      (proj1 (proj2 checksums_verify)
         sendto_ipv4 hostA 1234 hostB 80 1 2 PSH_ACK [Byte.x01] abc _ _))))))))).
    + intros p a Hp. unfold sendto_ipv4.
      destruct (Z.ltb_spec 65535 (len p)); [discriminate|lia].
    + vm_compute. reflexivity.
  - refine (proj2 (proj2 checksums_verify) sample_packet _).
    vm_compute. discriminate.
Defined.

(** C8, as stated, fails: with 44 option bytes the TCP header is 64 bytes
    long (16 words), which the 4-bit data-offset field cannot hold. The
    packet is handed to the kernel, and the field of its TCP header reads 0. *)
Lemma data_offset_wraps_on_long_options :
  let sent := SendPacket sendto_ipv4 hostA 1234 hostB 80 1 2 PSH_ACK
                long_options abc in
  let tcp := take 64 (drop 20 sent.2) in
  sent.1 = None
  /\ sent.2 = take 20 sent.2 ++ tcp ++ abc
  /\ tcp = segment_header hostA 1234 hostB 80 1 2 PSH_ACK long_options abc
  /\ len tcp = 20 + 4 * ((len long_options + 3) / 4)
  /\ len tcp / 4 = 16
  /\ tcp_data_offset tcp = 0.
Proof. vm_compute. repeat split; reflexivity. Qed.

(** C8 (amended). For every packet [SendPacket] hands to the kernel, whose
    options are at most 40 bytes long: the packet is IP header, TCP header and
    payload; the IP header is 20 bytes, version 4, IHL 5, DF set (and no
    fragment offset), TTL 64, protocol TCP; the TCP header carries window
    65535, is 20 bytes plus the options padded to a multiple of 4, and its
    data-offset field is that length divided by 4. *)
Theorem SendPacket_headers sendto src sp dst dp sq ak fl opts pl :
  len opts <= 40 ->
  let packet := snd (SendPacket sendto src sp dst dp sq ak fl opts pl) in
  let ip := take 20 packet in
  let tcp := segment_header src sp dst dp sq ak fl opts pl in
  packet = ip ++ tcp ++ pl
  /\ length ip = 20%nat
  /\ ip_version ip = 4 /\ ip_header_len ip = 20
  /\ ip_flags_fragment ip = IP_DF /\ ip_ttl ip = 64
  /\ ip_protocol ip = IPPROTO_TCP
  /\ tcp_window tcp = 65535
  /\ len tcp = 20 + 4 * ((len opts + 3) / 4)
  /\ tcp_data_offset tcp = len tcp / 4
  /\ 4 * tcp_data_offset tcp = len tcp.
Proof.
  intros Hopts packet ip tcp.
  assert (Hp : packet = BuildIPHeader src dst (to_byte IPPROTO_TCP)
                          (len tcp + len pl) ++ tcp ++ pl).
  { unfold packet, SendPacket. cbv zeta.
    destruct (sendto _ _); apply datagram_eq. }
  set (iph := BuildIPHeader src dst (to_byte IPPROTO_TCP) (len tcp + len pl))
    in Hp.
  assert (Hip : ip = iph).
  { unfold ip. rewrite Hp. apply take_app_length'.
    unfold iph. now rewrite length_BuildIPHeader. }
  pose proof (BuildIPHeader_fields src dst (to_byte IPPROTO_TCP)
                (len tcp + len pl)) as F.
  cbv zeta in F. fold iph in F. destruct F as (F0 & F6 & F7 & F8 & F9).
  pose proof (segment_header_fields src sp dst dp sq ak fl opts pl) as G.
  cbv zeta in G. fold tcp in G. destruct G as (_ & G14 & G15).
  pose proof (length_segment_header src sp dst dp sq ak fl opts pl) as L.
  fold tcp in L. rewrite len_pad_options in L.
  pose proof (tcp_data_offset_segment src sp dst dp sq ak fl opts pl) as D.
  cbv zeta in D. fold tcp in D.
  pose proof (len_nonneg opts) as Ho.
  assert (Hq : 0 <= (len opts + 3) / 4 <= 10).
  { split; [apply Z.div_pos; lia|].
    enough ((len opts + 3) / 4 < 11) by lia.
    apply Z.div_lt_upper_bound; lia. }
  assert (Hd : len tcp / 4 = 5 + (len opts + 3) / 4).
  { rewrite L. replace (20 + 4 * ((len opts + 3) / 4))
      with ((5 + (len opts + 3) / 4) * 4) by lia.
    apply Z.div_mul. lia. }
  rewrite Hip.
  repeat split.
  - now rewrite Hp.
  - unfold iph. apply length_BuildIPHeader.
  - unfold ip_version. now rewrite F0.
  - unfold ip_header_len. now rewrite F0.
  - unfold ip_flags_fragment. now rewrite F6, F7.
  - unfold ip_ttl. now rewrite F8.
  - unfold ip_protocol. now rewrite F9.
  - unfold tcp_window. now rewrite G14, G15.
  - exact L.
  - rewrite D, Hd. apply Z.mod_small. lia.
  - rewrite D, Hd. rewrite Z.mod_small by lia. lia.
Qed.

Lemma SendPacket_headers_witness :
  len [Byte.x01] <= 40
  /\ tcp_data_offset (segment_header hostA 1234 hostB 80 1 2 PSH_ACK [Byte.x01] abc)
     = len (segment_header hostA 1234 hostB 80 1 2 PSH_ACK [Byte.x01] abc) / 4.
Proof.
  assert (H : len [Byte.x01] <= 40) by (vm_compute; discriminate).
  split; [exact H|].
  destruct (SendPacket_headers sendto_ipv4 hostA 1234 hostB 80 1 2 PSH_ACK
              [Byte.x01] abc H) as (_ & _ & _ & _ & _ & _ & _ & _ & _ & D & _).
  exact D.
Defined.

(** C5, as stated, fails: no value of the TCP data offset makes [RecvPacket]
    return an error. A 40-byte frame that declares a 60-byte TCP header
    (data offset 15) is truncated, and is accepted with a nil payload; a
    frame with data offset 0 (below the minimum of 5) is accepted, and the
    TCP header itself comes back as payload. *)
Lemma RecvPacket_accepts_any_data_offset :
  (truncated_frame (frame_with_offset 15) 40
   /\ exists seg, RecvPacket (frame_with_offset 15) (inl 40) = Ok seg
                  /\ payload seg = None)
  /\ (tcp_data_offset (drop 20 (frame_with_offset 0 ++ abc)) = 0
      /\ exists seg, RecvPacket (frame_with_offset 0 ++ abc) (inl 43) = Ok seg
                     /\ payload seg
                        = Some (drop 20 (frame_with_offset 0) ++ abc)).
Proof.
  split; split.
  - right. vm_compute. reflexivity.
  - eexists. split; [vm_compute; reflexivity|reflexivity].
  - vm_compute. reflexivity.
  - eexists. split; [vm_compute; reflexivity|reflexivity].
Qed.

(** C5 (amended). For a buffer holding [n] received bytes, [RecvPacket]
    returns an error when [n < 40], when IHL*4 exceeds [n], when the
    protocol is not TCP, and when fewer than 20 bytes follow the IP header;
    in every other case it succeeds and returns the addresses, the ports,
    seq, ack and flags read at the IHL-derived TCP start, and as payload the
    bytes from TCP start + 4 * data offset up to [n] (nil when that start is
    not below [n]). The data offset is read, never rejected. *)
Theorem RecvPacket_parses buf n :
  n <= len buf ->
  let ihl := ip_header_len buf in
  let t := drop (Z.to_nat ihl) buf in
  let payloadStart := ihl + 4 * tcp_data_offset t in
  (n < 40 -> RecvPacket buf (inl n) = Err (ErrPacketTooSmall n))
  /\ (40 <= n -> n < ihl -> RecvPacket buf (inl n) = Err ErrInvalidIHL)
  /\ (40 <= n -> ihl <= n -> ip_protocol buf <> IPPROTO_TCP ->
        RecvPacket buf (inl n) = Err ErrNotTCP)
  /\ (40 <= n -> ihl <= n < ihl + 20 -> ip_protocol buf = IPPROTO_TCP ->
        RecvPacket buf (inl n) = Err ErrTooSmallForTCP)
  /\ (ip_protocol buf <> IPPROTO_TCP \/ n < 40 \/ n < ihl + 20 ->
        exists e, RecvPacket buf (inl n) = Err e)
  /\ (40 <= n -> ihl + 20 <= n -> ip_protocol buf = IPPROTO_TCP ->
        RecvPacket buf (inl n) =
        Ok {| srcIP := IPv4 (byte_at buf 12) (byte_at buf 13)
                            (byte_at buf 14) (byte_at buf 15);
              srcPort := Uint16 (byte_at t 0) (byte_at t 1);
              dstIP := IPv4 (byte_at buf 16) (byte_at buf 17)
                            (byte_at buf 18) (byte_at buf 19);
              dstPort := Uint16 (byte_at t 2) (byte_at t 3);
              seq := Uint32 (byte_at t 4) (byte_at t 5)
                            (byte_at t 6) (byte_at t 7);
              ack := Uint32 (byte_at t 8) (byte_at t 9)
                            (byte_at t 10) (byte_at t 11);
              flags := byte_at t 13;
              payload :=
                if payloadStart <? n
                then Some (take (Z.to_nat (n - payloadStart))
                                (drop (Z.to_nat payloadStart) buf))
                else None |}).
Proof.
  intros Hb ihl t payloadStart.
  assert (Small : n < 40 -> RecvPacket buf (inl n) = Err (ErrPacketTooSmall n)).
  { intros Hn. unfold RecvPacket, IPHeaderSize, TCPHeaderSize.
    change (20 + 20) with 40. destruct (Z.ltb_spec n 40); [reflexivity|lia]. }
  assert (Ev := fun H => RecvPacket_eval buf n H Hb). cbv zeta in Ev.
  fold ihl in Ev. fold t in Ev. unfold TCPHeaderSize in Ev.
  replace (ihl + tcp_data_offset t * 4) with payloadStart in Ev
    by (unfold payloadStart; lia).
  pose proof (ip_header_len_range buf) as Hi. fold ihl in Hi.
  repeat split.
  - exact Small.
  - intros Hn Hs. rewrite Ev by lia.
    destruct (Z.ltb_spec n ihl); [reflexivity|lia].
  - intros Hn Hs Hp. rewrite Ev by lia.
    destruct (Z.ltb_spec n ihl); [lia|].
    destruct (Z.eqb_spec (ip_protocol buf) IPPROTO_TCP); [contradiction|].
    reflexivity.
  - intros Hn Hs Hp. rewrite Ev by lia.
    destruct (Z.ltb_spec n ihl); [lia|].
    destruct (Z.eqb_spec (ip_protocol buf) IPPROTO_TCP); [|contradiction].
    cbn [negb]. destruct (Z.ltb_spec n (ihl + 20)); [reflexivity|lia].
  - intros Hbad.
    destruct (Z.lt_ge_cases n 40) as [Hn|Hn]; [rewrite Small; eauto|].
    rewrite Ev by lia.
    destruct (Z.ltb_spec n ihl); [eauto|].
    destruct (Z.eqb_spec (ip_protocol buf) IPPROTO_TCP); cbn [negb]; [|eauto].
    destruct (Z.ltb_spec n (ihl + 20)); [eauto|].
    destruct Hbad as [Hbad|[Hbad|Hbad]]; [contradiction|lia|lia].
  - intros Hn Hs Hp. rewrite Ev by lia.
    destruct (Z.ltb_spec n ihl); [lia|].
    destruct (Z.eqb_spec (ip_protocol buf) IPPROTO_TCP); [|contradiction].
    cbn [negb]. destruct (Z.ltb_spec n (ihl + 20)); [lia|reflexivity].
Qed.

Lemma RecvPacket_parses_witness :
  len sample_packet = 47
  /\ exists seg, RecvPacket sample_packet (inl 47) = Ok seg
                 /\ srcPort seg = 1234 /\ dstPort seg = 80
                 /\ payload seg = Some abc.
Proof.
  assert (Hlen : len sample_packet = 47) by (vm_compute; reflexivity).
  assert (Hb : 47 <= len sample_packet) by (rewrite Hlen; apply Z.le_refl).
  assert (H40 : 40 <= 47) by (vm_compute; discriminate).
  assert (Htcp : ip_header_len sample_packet + 20 <= 47)
    by (vm_compute; discriminate).
  assert (Hproto : ip_protocol sample_packet = IPPROTO_TCP)
    by (vm_compute; reflexivity).
  split; [exact Hlen|].
  destruct (RecvPacket_parses sample_packet 47 Hb) as (_ & _ & _ & _ & _ & Hok).
  eexists. split; [exact (Hok H40 Htcp Hproto)|].
  vm_compute. repeat split; reflexivity.
Defined.

(** C10. [RecvPacket] never indexes or slices out of range: for a buffer
    that holds the [n] received bytes ([n <= len buf]) it returns an error or
    a result, never a panic; fewer than 40 bytes always give an error; and a
    non-nil payload has length [n] minus the IHL-derived TCP start minus the
    data-offset-derived header length. *)
Theorem RecvPacket_total buf n :
  n <= len buf ->
  let ihl := ip_header_len buf in
  let doff := tcp_data_offset (drop (Z.to_nat ihl) buf) in
  RecvPacket buf (inl n) <> Panic
  /\ (n < 40 -> RecvPacket buf (inl n) = Err (ErrPacketTooSmall n))
  /\ (forall seg pl,
        RecvPacket buf (inl n) = Ok seg -> payload seg = Some pl ->
        len pl = n - ihl - 4 * doff).
Proof.
  intros Hb ihl doff.
  destruct (Z.lt_ge_cases n 40) as [Hn|Hn].
  - assert (E : RecvPacket buf (inl n) = Err (ErrPacketTooSmall n)).
    { unfold RecvPacket, IPHeaderSize, TCPHeaderSize.
      change (20 + 20) with 40. destruct (Z.ltb_spec n 40); [reflexivity|lia]. }
    rewrite E. repeat split; [discriminate | discriminate].
  - pose proof (RecvPacket_eval buf n Hn Hb) as Ev. cbv zeta in Ev.
    fold ihl in Ev. fold doff in Ev.
    pose proof (ip_header_len_range buf) as Hi. fold ihl in Hi.
    pose proof (tcp_data_offset_range (drop (Z.to_nat ihl) buf)) as Hd.
    fold doff in Hd.
    rewrite Ev. clear Ev.
    destruct (n <? ihl); [repeat split; try discriminate; lia|].
    destruct (negb _); [repeat split; try discriminate; lia|].
    destruct (n <? ihl + TCPHeaderSize);
      [repeat split; try discriminate; lia|].
    repeat split; [discriminate | lia |].
    intros seg pl [= <-]. cbn [payload].
    destruct (Z.ltb_spec (ihl + doff * 4) n); [|discriminate].
    intros [= <-]. unfold len in *.
    rewrite length_take, length_drop. lia.
Qed.

Lemma RecvPacket_total_witness :
  RecvPacket sample_packet (inl (len sample_packet)) <> Panic.
Proof.
  assert (Hb : len sample_packet <= len sample_packet) by apply Z.le_refl.
  exact (proj1 (RecvPacket_total sample_packet (len sample_packet) Hb)).
Defined.

(** Without [n <= len buf] (a count no [recvfrom] returns) slicing panics. *)
Example RecvPacket_short_buffer : RecvPacket [] (inl 40) = Panic.
Proof. reflexivity. Qed.

End RawSocketClaims.

(** ** The block codec *)

Section FECFacts.
Import FEC.
Context {RS : ReedSolomon}.

(** A loop [for i := 0; i < n; i++ { l[b+i] = g(i) }] over a long enough
    slice rewrites the [n] entries from [b] on. *)
Lemma foldl_insert_seqZ {A} (g : Z -> A) (b : Z) (n : nat) (l0 : list A) :
  0 <= b -> (Z.to_nat b + n <= length l0)%nat ->
  foldl (fun l i => <[Z.to_nat (b + i) := g i]> l) l0 (seqZ 0 (Z.of_nat n))
  = take (Z.to_nat b) l0 ++ (g <$> seqZ 0 (Z.of_nat n))
    ++ drop (Z.to_nat b + n) l0.
Proof.
  intros Hb. induction n as [|n IH]; intros Hlen.
  - simpl. rewrite Nat.add_0_r. now rewrite take_drop.
  - rewrite seqZ_S, foldl_snoc, IH by lia.
    rewrite fmap_app. cbn [fmap list_fmap]. rewrite Z.add_0_l.
    assert (Hl : length (take (Z.to_nat b) l0 ++ (g <$> seqZ 0 (Z.of_nat n)))
                 = (Z.to_nat b + n)%nat).
    { rewrite length_app, length_take, length_fmap, length_seqZ. lia. }
    replace (Z.to_nat (b + Z.of_nat n))
      with (length (take (Z.to_nat b) l0 ++ (g <$> seqZ 0 (Z.of_nat n))) + 0)%nat
      by lia.
    rewrite app_assoc, insert_app_r.
    destruct (lookup_lt_is_Some_2 l0 (Z.to_nat b + n)%nat ltac:(lia)) as [x Hx].
    rewrite (drop_S _ _ _ Hx). cbn [insert list_insert].
    rewrite <- !app_assoc. cbn [app].
    now replace (Z.to_nat b + S n)%nat with (S (Z.to_nat b + n)) by lia.
Qed.

Lemma foldl_insert_seqZ_0 {A} (g : Z -> A) (n : nat) (l0 : list A) :
  (n <= length l0)%nat ->
  foldl (fun l i => <[Z.to_nat i := g i]> l) l0 (seqZ 0 (Z.of_nat n))
  = (g <$> seqZ 0 (Z.of_nat n)) ++ drop n l0.
Proof.
  intros Hn. exact (foldl_insert_seqZ g 0 n l0 (Z.le_refl 0) Hn).
Qed.

Lemma split_eq (f : FEC) data :
  0 <= dataShards f -> 0 <= parityShards f ->
  split f data
  = ((fun i => Some (data_shard data (encode_shard_size f data) i))
       <$> seqZ 0 (dataShards f))
    ++ replicate (Z.to_nat (parityShards f))
         (Some (make (encode_shard_size f data))).
Proof.
  intros HD HP. unfold split. cbv zeta.
  set (sz := encode_shard_size f data).
  set (D := dataShards f) in *. set (P := parityShards f) in *.
  pose proof (foldl_insert_seqZ_0 (fun i => Some (data_shard data sz i))
                (Z.to_nat D) (replicate (Z.to_nat (D + P)) None)) as E1.
  rewrite Z2Nat.id in E1 by lia.
  rewrite E1 by (rewrite length_replicate; lia). clear E1.
  rewrite drop_replicate.
  replace (Z.to_nat (D + P) - Z.to_nat D)%nat with (Z.to_nat P) by lia.
  set (l1 := (fun i => Some (data_shard data sz i)) <$> seqZ 0 D).
  assert (Hl1 : length l1 = Z.to_nat D)
    by (unfold l1; now rewrite length_fmap, length_seqZ).
  pose proof (foldl_insert_seqZ (fun _ : Z => Some (make sz)) D
                (Z.to_nat P) (l1 ++ replicate (Z.to_nat P) None)) as E2.
  rewrite Z2Nat.id in E2 by lia.
  rewrite E2 by (rewrite ?length_app, ?length_replicate; lia). clear E2.
  rewrite take_app_length' by lia.
  rewrite drop_ge by (rewrite length_app, length_replicate; lia).
  rewrite app_nil_r. f_equal.
  apply list_eq. intros i.
  rewrite list_lookup_fmap.
  destruct (decide (i < Z.to_nat P)%nat) as [Hi|Hi].
  - rewrite lookup_seqZ_lt by lia. rewrite lookup_replicate_2 by lia.
    reflexivity.
  - rewrite lookup_seqZ_ge by lia. symmetry. apply lookup_replicate_None. lia.
Qed.

Lemma NewFEC_inv D P S f :
  NewFEC D P S = Ok f ->
  0 < D /\ 0 < P /\ 0 < S /\ dataShards f = D /\ parityShards f = P
  /\ shardSize f = S /\ New D P = Ok (encoder f).
Proof.
  unfold NewFEC.
  destruct (Z.leb_spec D 0); [discriminate|].
  destruct (Z.leb_spec P 0); [discriminate|]. cbn [orb].
  destruct (Z.leb_spec S 0); [discriminate|].
  destruct (New D P) as [enc|e] eqn:E; [|discriminate].
  intros [= <-]. cbn. repeat split; auto.
Qed.

Lemma encode_shard_size_eq (f : FEC) data :
  0 < dataShards f -> 0 < shardSize f ->
  0 < len data -> len data <= dataShards f * shardSize f ->
  encode_shard_size f data = shardSize f.
Proof.
  intros HD HS Hpos Hle. unfold encode_shard_size. cbv zeta.
  set (D := dataShards f) in *. set (S := shardSize f) in *.
  rewrite Z.quot_div_nonneg by lia.
  assert (Hq : (len data + D - 1) / D <= S).
  { enough ((len data + D - 1) / D < S + 1) by lia.
    apply Z.div_lt_upper_bound; nia. }
  assert (Hq' : S - 1 < (len data + D - 1) / D \/ (len data + D - 1) / D < S)
    by lia.
  destruct (Z.ltb_spec 0 S); [|lia]. cbn [andb].
  destruct (Z.ltb_spec ((len data + D - 1) / D) S); [reflexivity|lia].
Qed.

(** Data shard [i]: the [i]-th run of [sz] bytes of the payload, padded
    with zeros to [sz] bytes. *)
Lemma data_shard_chunk data sz i :
  0 <= i -> 0 <= sz ->
  let chunk := take (Z.to_nat sz) (drop (Z.to_nat i * Z.to_nat sz) data) in
  data_shard data sz i
  = chunk ++ replicate (Z.to_nat sz - length chunk) Byte.x00.
Proof.
  intros Hi Hsz chunk. unfold data_shard. cbv zeta.
  assert (Hstart : Z.to_nat (i * sz) = (Z.to_nat i * Z.to_nat sz)%nat) by nia.
  rewrite Hstart.
  set (rest := drop (Z.to_nat i * Z.to_nat sz) data) in *.
  assert (Hrest : length rest = (length data - Z.to_nat i * Z.to_nat sz)%nat)
    by (unfold rest; apply length_drop).
  unfold len.
  destruct (Z.ltb_spec (i * sz) (Z.of_nat (length data))) as [Hlt|Hge].
  - assert (Ht : take (Z.to_nat
                  ((if Z.of_nat (length data) <? i * sz + sz
                    then Z.of_nat (length data) else i * sz + sz) - i * sz))
                  rest = chunk).
    { unfold chunk.
      destruct (Z.ltb_spec (Z.of_nat (length data)) (i * sz + sz)).
      - rewrite !take_ge by lia. reflexivity.
      - f_equal. lia. }
    rewrite Ht. unfold copy. rewrite length_make.
    rewrite take_ge by (unfold chunk; rewrite length_take; lia).
    unfold make. now rewrite drop_replicate.
  - assert (Hnil : rest = []).
    { apply nil_length_inv. lia. }
    unfold chunk. rewrite Hnil, take_nil. cbn [app length].
    unfold make. f_equal. lia.
Qed.

Lemma len_data_shard data sz i :
  0 <= i -> 0 <= sz -> len (data_shard data sz i) = sz.
Proof.
  intros Hi Hsz. rewrite data_shard_chunk by assumption. cbv zeta.
  unfold len. rewrite length_app, length_replicate, length_take. lia.
Qed.

Lemma data_shard_succ data sz i :
  0 <= i -> 0 <= sz ->
  data_shard data sz (Z.succ i) = data_shard (drop (Z.to_nat sz) data) sz i.
Proof.
  intros Hi Hsz. rewrite !data_shard_chunk by lia. cbv zeta.
  rewrite drop_drop.
  replace (Z.to_nat (Z.succ i) * Z.to_nat sz)%nat
    with (Z.to_nat sz + Z.to_nat i * Z.to_nat sz)%nat by nia.
  reflexivity.
Qed.

(** The data shards, joined, are the payload followed by zeros. *)
Lemma concat_data_shards sz (D : nat) data :
  0 < sz -> (length data <= D * Z.to_nat sz)%nat ->
  concat (data_shard data sz <$> seqZ 0 (Z.of_nat D))
  = data ++ replicate (D * Z.to_nat sz - length data) Byte.x00.
Proof.
  intros Hsz. revert data. induction D as [|D IH]; intros data Hlen.
  - cbn. destruct data; [reflexivity|simpl in Hlen; lia].
  - rewrite seqZ_cons by lia. cbn [fmap list_fmap concat].
    replace (Z.pred (Z.of_nat (S D))) with (Z.of_nat D) by lia.
    change (Z.succ 0) with (1 + 0). rewrite <- fmap_add_seqZ.
    rewrite <- list_fmap_compose.
    rewrite (list_fmap_ext (data_shard data sz ∘ Z.add 1)
               (data_shard (drop (Z.to_nat sz) data) sz)
               (seqZ 0 (Z.of_nat D))).
    2:{ intros k x Hk. cbn.
        apply lookup_seqZ in Hk as [-> Hk].
        replace (1 + (0 + Z.of_nat k)) with (Z.succ (0 + Z.of_nat k)) by lia.
        apply data_shard_succ; lia. }
    rewrite IH by (rewrite length_drop; lia).
    rewrite data_shard_chunk by lia. cbv zeta.
    cbn [Z.to_nat Nat.mul]. rewrite drop_0, length_drop.
    destruct (decide (Z.to_nat sz <= length data)%nat) as [Hge|Hlt].
    + rewrite length_take.
      replace (Z.to_nat sz - Z.to_nat sz `min` length data)%nat with 0%nat
        by lia.
      cbn [replicate]. rewrite app_nil_r, app_assoc, take_drop.
      f_equal. f_equal. lia.
    + rewrite take_ge, drop_ge by lia. cbn [app length].
      rewrite <- app_assoc, <- replicate_add. f_equal. f_equal. lia.
Qed.

Lemma join_eq n (shards : list shard) :
  join n shards = concat (default [] <$> take (Z.to_nat n) shards).
Proof.
  unfold join.
  enough (G : forall l acc,
             foldl (fun result (s : shard) => result ++ default [] s) acc l
             = acc ++ concat (default [] <$> l)) by apply (G _ []).
  induction l as [|s l IH]; intros acc; cbn [foldl fmap list_fmap concat].
  - now rewrite app_nil_r.
  - now rewrite IH, app_assoc.
Qed.

Lemma presentCount_cons p ps :
  presentCount (p :: ps) = (if p then 1 else 0) + presentCount ps.
Proof.
  unfold presentCount. cbn [foldl].
  enough (G : forall l a,
             foldl (fun n (present : bool) => if present then n + 1 else n) a l
             = a + foldl (fun n (present : bool) => if present then n + 1 else n)
                     0 l).
  { rewrite G. destruct p; reflexivity. }
  induction l as [|q l IH]; intros a; cbn [foldl]; [lia|].
  rewrite (IH (if q then a + 1 else a)), (IH (if q then 0 + 1 else 0)).
  destruct q; lia.
Qed.

Lemma presentCount_range ps : 0 <= presentCount ps <= len ps.
Proof.
  unfold len. induction ps as [|p ps IH]; [cbn; lia|].
  rewrite presentCount_cons. cbn [length]. destruct p; lia.
Qed.

Lemma uniform_lookup sz (shards : list shard) i :
  uniform sz shards -> (i < length shards)%nat ->
  exists b, shards !! i = Some (Some b) /\ len b = sz.
Proof.
  intros Hu Hi. destruct (lookup_lt_is_Some_2 shards i Hi) as [s Hs].
  destruct (proj1 (Forall_lookup _ _) Hu i s Hs) as (b & -> & Hb). eauto.
Qed.

(** Shards that agree with a uniform set wherever the mask says present:
    the three scanning loops of [Decode]. *)
Lemma first_shard_size_received sz (sent got : list shard) present :
  0 < sz -> uniform sz sent -> received sent got present ->
  length present = length sent -> 0 < presentCount present ->
  first_shard_size got present = sz.
Proof.
  intros Hsz Hu [Hlen Hag]. revert sent got Hu Hlen Hag.
  induction present as [|p ps IH]; intros sent got Hu Hlen Hag Hpl Hc.
  - cbn in Hc. lia.
  - destruct sent as [|s sent]; [discriminate|].
    destruct got as [|g got]; [discriminate|].
    inversion Hu as [|? ? (b & -> & Hb) Hu']; subst.
    cbn [first_shard_size]. rewrite presentCount_cons in Hc.
    destruct p.
    + specialize (Hag 0%nat eq_refl). cbn in Hag. injection Hag as ->.
      cbn [andb shard_len]. rewrite bool_decide_true by discriminate.
      cbn [andb]. destruct (Z.ltb_spec 0 (len b)); [reflexivity|lia].
    + cbn [andb]. apply (IH sent got); auto; try lia.
      intros i Hi. apply (Hag (S i) Hi).
Qed.

Lemma inconsistent_received sz (sent got : list shard) present :
  uniform sz sent -> received sent got present ->
  inconsistent sz got present = false.
Proof.
  intros Hu [Hlen Hag]. revert sent got Hu Hlen Hag.
  induction present as [|p ps IH]; intros sent got Hu Hlen Hag.
  - destruct got; reflexivity.
  - destruct got as [|g got]; [reflexivity|].
    destruct sent as [|s sent]; [discriminate|].
    inversion Hu as [|? ? (b & -> & Hb) Hu']; subst.
    cbn [inconsistent].
    rewrite (IH sent got); auto; [|intros i Hi; apply (Hag (S i) Hi)].
    rewrite orb_false_r. destruct p; [|reflexivity].
    specialize (Hag 0%nat eq_refl). cbn in Hag. injection Hag as ->.
    cbn [shard_len andb]. rewrite Z.eqb_refl. apply andb_false_r.
Qed.

Lemma mark_missing_received (sent got : list shard) present :
  received sent got present -> length present = length sent ->
  mark_missing got present = mark_missing sent present.
Proof.
  intros [Hlen Hag]. revert sent got Hlen Hag.
  induction present as [|p ps IH]; intros sent got Hlen Hag Hpl.
  - destruct sent; [|discriminate]. destruct got; [reflexivity|discriminate].
  - destruct sent as [|s sent]; [discriminate|].
    destruct got as [|g got]; [discriminate|].
    cbn [mark_missing]. f_equal.
    + destruct p; [|reflexivity].
      specialize (Hag 0%nat eq_refl). cbn in Hag. now injection Hag.
    + apply IH; auto. intros i Hi. apply (Hag (S i) Hi).
Qed.

Context {Laws : ReedSolomonLaws RS}.

(** The shard array [Encode] hands to the encoder for a payload that fits
    one block. *)
Lemma split_block D P S f data :
  NewFEC D P S = Ok f -> data <> [] -> len data <= D * S ->
  split f data
  = ((fun i => Some (data_shard data S i)) <$> seqZ 0 D)
    ++ replicate (Z.to_nat P) (Some (make S))
  /\ len (split f data) = D + P /\ uniform S (split f data).
Proof.
  intros HN Hne Hle.
  destruct (NewFEC_inv _ _ _ _ HN) as (HD & HP & HS & ED & EP & ES & Enew).
  assert (Hpos : 0 < len data).
  { unfold len. destruct data; [contradiction|cbn [length]; lia]. }
  assert (Esz : encode_shard_size f data = S).
  { rewrite <- ES. apply encode_shard_size_eq; rewrite ?ED, ?ES; lia. }
  pose proof (split_eq f data ltac:(lia) ltac:(lia)) as Esp.
  rewrite Esz, ED, EP in Esp.
  split; [exact Esp|]. rewrite Esp. split.
  - unfold len.
    rewrite length_app, length_fmap, length_seqZ, length_replicate. lia.
  - apply Forall_app. split.
    + apply Forall_fmap, Forall_seqZ. intros i Hi. cbn.
      eexists. split; [reflexivity|]. apply len_data_shard; lia.
    + apply Forall_replicate. eexists. split; [reflexivity|].
      apply len_make. lia.
Qed.

Lemma Encode_Ok (f : FEC) data shards :
  Encode f data = Ok shards -> rsEncode (encoder f) (split f data) = Ok shards.
Proof.
  unfold Encode. destruct (len data =? 0); [discriminate|].
  destruct (rsEncode (encoder f) (split f data)); [|discriminate].
  now intros [= ->].
Qed.

(** What [Encode] returns for a payload that fits one block, when it
    returns shards. *)
Lemma Encode_block D P S f data shards :
  NewFEC D P S = Ok f -> data <> [] -> len data <= D * S ->
  Encode f data = Ok shards ->
  rsEncode (encoder f) (split f data) = Ok shards
  /\ len (split f data) = D + P
  /\ len shards = D + P /\ uniform S shards
  /\ take (Z.to_nat D) shards
     = (fun i => Some (data_shard data S i)) <$> seqZ 0 D.
Proof.
  intros HN Hne Hle HE.
  destruct (NewFEC_inv _ _ _ _ HN) as (HD & HP & HS & ED & EP & ES & Enew).
  destruct (split_block D P S f data HN Hne Hle) as (Esp & Hlen & Hu).
  pose proof (Encode_Ok f data shards HE) as Eenc.
  destruct (rsEncode_ok D P (encoder f) (split f data) S shards
              Enew Hlen HS Hu Eenc) as (Etake & Hlo & Huo).
  repeat split; auto.
  rewrite Etake, Esp. apply take_app_length'.
  rewrite length_fmap, length_seqZ. reflexivity.
Qed.

(** With at most 256 shards, or a shard size that is a multiple of 64, the
    encoder accepts the block. *)
Lemma Encode_block_accepted D P S f data :
  NewFEC D P S = Ok f -> data <> [] -> len data <= D * S ->
  D + P <= 256 \/ S mod 64 = 0 ->
  exists shards, Encode f data = Ok shards.
Proof.
  intros HN Hne Hle Hrule.
  destruct (NewFEC_inv _ _ _ _ HN) as (HD & HP & HS & ED & EP & ES & Enew).
  destruct (split_block D P S f data HN Hne Hle) as (Esp & Hlen & Hu).
  destruct (rsEncode_accepts D P (encoder f) (split f data) S
              Enew Hlen HS Hu Hrule) as (out & Eenc).
  exists out. unfold Encode.
  destruct (Z.eqb_spec (len data) 0) as [E0|_]; [|now rewrite Eenc].
  unfold len in E0. destruct data; [contradiction|cbn [length] in E0; lia].
Qed.

End FECFacts.

(** ** The XOR parity code meets the encoder contract *)

Section XorCodeFacts.
Import FEC XorCode.

Lemma lxor_byte_range x y :
  0 <= x < 256 -> 0 <= y < 256 -> 0 <= Z.lxor x y < 256.
Proof.
  intros Hx Hy. split; [apply Z.lxor_nonneg; lia|].
  destruct (Z.eq_dec (Z.lxor x y) 0) as [->|Hnz]; [lia|].
  assert (Hpos : 0 < Z.lxor x y) by (pose proof (proj2 (Z.lxor_nonneg x y)); lia).
  apply (Z.log2_lt_pow2 _ 8 Hpos).
  eapply Z.le_lt_trans; [apply Z.log2_lxor; lia|].
  apply Z.max_lub_lt.
  - destruct (Z.eq_dec x 0) as [->|]; [cbn; lia|]. apply Z.log2_lt_pow2; lia.
  - destruct (Z.eq_dec y 0) as [->|]; [cbn; lia|]. apply Z.log2_lt_pow2; lia.
Qed.

Lemma u8_bxor a b : u8 (bxor a b) = Z.lxor (u8 a) (u8 b).
Proof.
  unfold bxor. rewrite u8_to_byte. apply Z.mod_small.
  apply lxor_byte_range; apply u8_range.
Qed.

Lemma bxor_cancel_r a b : bxor (bxor a b) b = a.
Proof.
  apply u8_inj. rewrite !u8_bxor.
  now rewrite Z.lxor_assoc, Z.lxor_nilpotent, Z.lxor_0_r.
Qed.

Lemma bxor_cancel_l a b : bxor (bxor a b) a = b.
Proof.
  apply u8_inj. rewrite !u8_bxor.
  now rewrite (Z.lxor_comm (u8 a) (u8 b)), Z.lxor_assoc, Z.lxor_nilpotent,
    Z.lxor_0_r.
Qed.

Lemma length_xor_bytes a b : length (xor_bytes a b) = min (length a) (length b).
Proof. apply length_zip_with. Qed.

Lemma xor_bytes_cancel_r a b :
  length a = length b -> xor_bytes (xor_bytes a b) b = a.
Proof.
  revert b. induction a as [|x a IH]; intros [|y b] Hl; try discriminate.
  - reflexivity.
  - cbn. rewrite bxor_cancel_r. f_equal. apply IH. now injection Hl.
Qed.

Lemma xor_bytes_cancel_l a b :
  length a = length b -> xor_bytes (xor_bytes a b) a = b.
Proof.
  revert b. induction a as [|x a IH]; intros [|y b] Hl; try discriminate.
  - reflexivity.
  - cbn. rewrite bxor_cancel_l. f_equal. apply IH. now injection Hl.
Qed.

Lemma xor_code_New d p enc :
  @New xor_code d p = Ok enc -> d = 2 /\ p = 1.
Proof.
  cbn. destruct (Z.eqb_spec d 2); destruct (Z.eqb_spec p 1);
    cbn; intros; try discriminate; auto.
Qed.

Lemma xor_code_encode shards sz :
  len shards = 2 + 1 -> 0 < sz -> uniform sz shards ->
  exists a b c,
    shards = [Some a; Some b; Some c]
    /\ len a = sz /\ len b = sz
    /\ @rsEncode xor_code (tt : @Encoder xor_code) shards
       = Ok [Some a; Some b; Some (xor_bytes a b)].
Proof.
  intros Hlen Hsz Hu.
  destruct shards as [|s1 [|s2 [|s3 [|]]]];
    try (unfold len in Hlen; cbn [length] in Hlen; lia).
  inversion Hu as [|? ? (a & -> & Ha) Hu1]; subst.
  inversion Hu1 as [|? ? (b & -> & Hb) Hu2]; subst.
  inversion Hu2 as [|? ? (c & -> & Hc) _]; subst.
  assert (Hss : same_size a b c = true).
  { unfold same_size. rewrite Hb, Hc, !Z.eqb_refl.
    destruct (Z.ltb_spec 0 (len a)); [reflexivity|lia]. }
  exists a, b, c. repeat split; auto.
  cbn. now rewrite Hss.
Qed.

Lemma xor_code_laws : ReedSolomonLaws xor_code.
Proof.
  split.
  - intros d p enc shards sz Hnew Hlen Hsz Hu _.
    apply xor_code_New in Hnew as [-> ->]. destruct enc.
    destruct (xor_code_encode shards sz Hlen Hsz Hu)
      as (a & b & c & _ & _ & _ & E).
    eauto.
  - intros d p enc shards sz out Hnew Hlen Hsz Hu Henc.
    apply xor_code_New in Hnew as [-> ->]. destruct enc.
    destruct (xor_code_encode shards sz Hlen Hsz Hu)
      as (a & b & c & -> & Ha & Hb & E).
    rewrite E in Henc. injection Henc as <-.
    repeat split.
    repeat constructor; eexists; (split; [reflexivity|]); auto.
    unfold len in *. rewrite length_xor_bytes. lia.
  - intros d p enc shards out present Hnew Hlen Henc Hpl Hcount.
    apply xor_code_New in Hnew as [-> ->].
    destruct shards as [|[a|] [|[b|] [|[c|] [|]]]];
      try (cbn in Henc; discriminate Henc).
    cbn in Henc. destruct (same_size a b c) eqn:Hss; [|discriminate].
    injection Henc as <-.
    assert (Hab : length a = length b).
    { unfold same_size, len in Hss.
      destruct (Z.eqb_spec (Z.of_nat (length a)) (Z.of_nat (length b)));
        [lia|discriminate]. }
    destruct present as [|p1 [|p2 [|p3 [|]]]];
      try (unfold len in Hpl; cbn [length] in Hpl; lia).
    rewrite !presentCount_cons in Hcount.
    destruct p1, p2, p3; cbn in Hcount; try lia; cbn.
    + reflexivity.
    + reflexivity.
    + now rewrite xor_bytes_cancel_l.
    + now rewrite xor_bytes_cancel_r.
Qed.

(** The stand-in for the size rule on a small block: three data shards and
    two parity shards of two bytes are encoded, and a lost data shard comes
    back. *)
Example wide_code_small :
  let shards := [Some [A; B]; Some [C; A]; Some [B; B];
                 Some [zero; zero]; Some [zero; zero]] in
  exists out,
    WideCode.encode (3, 2) shards = Ok out
    /\ take 3 out = take 3 shards /\ len out = 5
    /\ WideCode.reconstruct (3, 2) (<[1%nat := None]> out) = Ok out.
Proof. eexists. vm_compute. repeat split. Qed.

End XorCodeFacts.

(** ** Properties of the block codec *)

Section FECClaims.
Import FEC XorCode.

(** C9, as stated, fails when there are more than 256 shards: the
    Reed-Solomon package then takes only shard sizes that are multiples of
    64.  [NewFEC(200, 100, 4)] succeeds, and [Encode] of a one-byte payload
    hands the encoder 300 shards of 4 bytes, which it refuses: [Encode]
    returns the error and no shards. *)
Lemma Encode_refused_above_256_shards :
  @NewFEC WideCode.wide_code 200 100 4 = Ok WideCode.fec_200_100_4
  /\ [A] <> [] /\ len [A] <= 200 * 4
  /\ len (@split WideCode.wide_code WideCode.fec_200_100_4 [A]) = 300
  /\ (exists e, @Encode WideCode.wide_code WideCode.fec_200_100_4 [A]
                = Error (ErrLibrary e))
  /\ ~ (exists shards,
          @Encode WideCode.wide_code WideCode.fec_200_100_4 [A] = Ok shards
          /\ len shards = 200 + 100 /\ uniform 4 shards).
Proof.
  assert (E : @Encode WideCode.wide_code WideCode.fec_200_100_4 [A]
              = Error (ErrLibrary ErrInvalidShardSize))
    by (vm_compute; reflexivity).
  split; [reflexivity|]. split; [discriminate|].
  split; [vm_compute; discriminate|]. split; [vm_compute; reflexivity|].
  split; [eauto|].
  intros (shards & H & _). rewrite E in H. discriminate H.
Qed.

(** C9 (amended). For a codec made by [NewFEC D P S] and a non-empty
    payload of at most [D * S] bytes: whenever [Encode] returns shards, it
    returns exactly [D + P] of them, each [S] bytes long; and it does return
    shards when [D + P <= 256] or [S] is a multiple of 64.  Its only other
    outcome is the error of the encoder. *)
Theorem Encode_uniform_shards (RS : ReedSolomon) (Laws : ReedSolomonLaws RS)
    D P S (f : FEC) data :
  NewFEC D P S = Ok f -> data <> [] -> len data <= D * S ->
  (forall shards, Encode f data = Ok shards ->
                  len shards = D + P /\ uniform S shards)
  /\ (D + P <= 256 \/ S mod 64 = 0 ->
      exists shards,
        Encode f data = Ok shards /\ len shards = D + P /\ uniform S shards)
  /\ (forall e, Encode f data = Error e -> exists e', e = ErrLibrary e').
Proof.
  intros HN Hne Hle.
  assert (Hok : forall shards, Encode f data = Ok shards ->
                               len shards = D + P /\ uniform S shards).
  { intros shards HE.
    destruct (Encode_block D P S f data shards HN Hne Hle HE)
      as (_ & _ & Hl & Hu & _).
    auto. }
  split; [exact Hok|]. split.
  - intros Hrule.
    destruct (Encode_block_accepted D P S f data HN Hne Hle Hrule)
      as (shards & HE).
    exists shards. split; [exact HE|]. now apply Hok.
  - intros e. unfold Encode.
    destruct (Z.eqb_spec (len data) 0) as [E0|_].
    + unfold len in E0. destruct data; [contradiction|cbn [length] in E0; lia].
    + destruct (rsEncode (encoder f) (split f data)); [discriminate|].
      intros [= <-]. eauto.
Qed.

Lemma Encode_uniform_shards_witness :
  exists shards,
    @Encode xor_code fec212 [A; B; C] = Ok shards
    /\ len shards = 2 + 1 /\ uniform 2 shards.
Proof.
  apply (Encode_uniform_shards xor_code xor_code_laws 2 1 2 fec212 [A; B; C]).
  - reflexivity.
  - discriminate.
  - vm_compute. discriminate.
  - left. lia.
Defined.

(** C1, as stated, fails for a payload shorter than [D * S]: the decoded
    block is the payload followed by zeros, not the payload. With
    [D = 2], [P = 1], [S = 2] and the one-byte payload [A], decoding all
    three shards, or any two of them, gives [A 0 0 0]. *)
Lemma Decode_pads_short_payload :
  @NewFEC xor_code 2 1 2 = Ok fec212
  /\ len [A] <= 2 * 2
  /\ @Encode xor_code fec212 [A] = Ok shards_A
  /\ @Decode xor_code fec212 shards_A [true; true; true]
     = Ok [A; zero; zero; zero]
  /\ @Decode xor_code fec212 (<[0%nat := None]> shards_A) [false; true; true]
     = Ok [A; zero; zero; zero]
  /\ @Decode xor_code fec212 shards_A [true; true; true] <> Ok [A].
Proof.
  repeat split; try reflexivity.
  - vm_compute. discriminate.
  - vm_compute. discriminate.
Qed.

(** C1 (amended). For a codec made by [NewFEC D P S] and a payload of at most
    [D * S] bytes: if [Encode] produced the shards of the block and at most
    [P] of them are lost, [Decode] on what arrived, with the mask of the
    survivors, returns the payload followed by zeros up to [D * S] bytes
    (so the payload itself when it is exactly [D * S] bytes long). *)
Theorem Decode_Encode_padded (RS : ReedSolomon) (Laws : ReedSolomonLaws RS)
    D P S (f : FEC) data shards got present :
  NewFEC D P S = Ok f -> len data <= D * S ->
  Encode f data = Ok shards ->
  received shards got present -> len present = D + P ->
  len present - presentCount present <= P ->
  Decode f got present = Ok (data ++ make (D * S - len data)).
Proof.
  intros HN Hle HE Hrecv Hpl Hlost.
  destruct (NewFEC_inv _ _ _ _ HN) as (HD & HP & HS & ED & EP & ES & Enew).
  assert (Hne : data <> []).
  { intros ->. unfold Encode in HE. cbn in HE. discriminate. }
  destruct (Encode_block D P S f data shards HN Hne Hle HE)
    as (Ers & Hsl & Hl & Hu & Htake).
  destruct Hrecv as [Hgl Hag].
  assert (Hrecv : received shards got present) by (split; assumption).
  assert (Hpl' : length present = length shards) by (unfold len in *; lia).
  unfold Decode. rewrite ED, EP.
  destruct (Z.eqb_spec (len got) (D + P)) as [_|Hbad];
    [|unfold len in *; lia]. cbn [negb].
  destruct (Z.eqb_spec (len present) (len got)) as [_|Hbad];
    [|unfold len in *; lia]. cbn [negb].
  destruct (Z.ltb_spec (presentCount present) D); [lia|].
  rewrite (first_shard_size_received S shards got present) by (auto; lia).
  destruct (Z.eqb_spec S 0); [lia|].
  rewrite (inconsistent_received S shards got present) by auto.
  rewrite (mark_missing_received shards got present) by auto.
  rewrite (rsReconstruct_ok D P (encoder f) (split f data) shards present)
    by (auto; lia).
  f_equal. rewrite join_eq, Htake, <- list_fmap_compose.
  rewrite (list_fmap_ext _ (data_shard data S) (seqZ 0 D))
    by (intros; reflexivity).
  rewrite <- (Z2Nat.id D) at 1 by lia.
  rewrite concat_data_shards by (unfold len in *; nia).
  unfold make. f_equal. f_equal. unfold len in *. nia.
Qed.

Lemma Decode_Encode_padded_witness :
  @Decode xor_code fec212 [None; Some [C; zero]; Some [bxor A C; B]]
    [false; true; true]
  = Ok ([A; B; C] ++ make (2 * 2 - len [A; B; C])).
Proof.
  apply (Decode_Encode_padded xor_code xor_code_laws 2 1 2 fec212 [A; B; C]
           shards_ABC).
  - reflexivity.
  - vm_compute. discriminate.
  - reflexivity.
  - split; [reflexivity|].
    intros [|[|[|i]]] Hi; try reflexivity; discriminate Hi.
  - reflexivity.
  - vm_compute. discriminate.
Defined.

(** C2. When fewer than [D] shards are present, [Decode] never returns a
    block; and when the call is well formed ([D + P] shards with a mask of
    the same length) and more than [P] shards are missing, the error is
    [ErrIncomplete]. *)
Theorem Decode_too_few_shards (RS : ReedSolomon) (f : FEC) shards present :
  (presentCount present < dataShards f ->
   forall block, Decode f shards present <> Ok block)
  /\ (len shards = dataShards f + parityShards f ->
      len present = len shards ->
      parityShards f < len present - presentCount present ->
      Decode f shards present = Error ErrIncomplete).
Proof.
  split.
  - intros Hc block. unfold Decode.
    destruct (negb _); [discriminate|].
    destruct (negb _); [discriminate|].
    destruct (Z.ltb_spec (presentCount present) (dataShards f));
      [discriminate|lia].
  - intros Hl Hp Hc. unfold Decode.
    destruct (Z.eqb_spec (len shards) (dataShards f + parityShards f));
      [|contradiction]. cbn [negb].
    destruct (Z.eqb_spec (len present) (len shards)); [|contradiction].
    cbn [negb].
    destruct (Z.ltb_spec (presentCount present) (dataShards f));
      [reflexivity|lia].
Qed.

Lemma Decode_too_few_shards_witness :
  @Decode xor_code fec212 [None; None; Some [bxor A C; B]]
    [false; false; true]
  = Error ErrIncomplete.
Proof.
  apply (proj2 (Decode_too_few_shards xor_code fec212
                  [None; None; Some [bxor A C; B]] [false; false; true])).
  - reflexivity.
  - reflexivity.
  - vm_compute. reflexivity.
Defined.

End FECClaims.

(** ** The firewall coordinator *)

Section IPTablesFacts.
Import IPTables.
Context {World : Type}.
Variable iptables : World -> list string -> option (string * string) * World.



End IPTablesFacts.

Section IPTablesClaims.
Import IPTables.


(** C7. [AddRuleForPort] checks before it adds: when the firewall reports
    the rule present, the call succeeds and the manager is unchanged; so a
    second call with the same arguments, made while the rule is present, adds
    no second rule and leaves the state of the first call. The rule is the
    same for both roles. *)
Theorem AddRuleForPort_idempotent {World : Type}
    (iptables : World -> list string -> option (string * string) * World)
    (m : IPTablesManager) (w : World) (port : Z) (isServer : bool) :
  (ruleExists iptables w (port_rule port isServer)).1 = true ->
  AddRuleForPort iptables m w port isServer
  = (None, m, (ruleExists iptables w (port_rule port isServer)).2)
  /\ (forall m0 w0,
        AddRuleForPort iptables m0 w0 port isServer = (None, m, w) ->
        (AddRuleForPort iptables m w port isServer).1 = (None, m))
  /\ port_rule port true = port_rule port false.
Proof.
  intros Hpresent.
  assert (E : AddRuleForPort iptables m w port isServer
              = (None, m, (ruleExists iptables w (port_rule port isServer)).2)).
  { unfold AddRuleForPort. cbv zeta.
    destruct (ruleExists iptables w (port_rule port isServer)) as [present w'].
    cbn in Hpresent. subst present. reflexivity. }
  repeat split.
  - exact E.
  - intros m0 w0 _. now rewrite E.
Qed.

Lemma AddRuleForPort_idempotent_witness :
  let first := AddRuleForPort table_iptables NewIPTablesManager [] 8080 true in
  first.1.1 = None
  /\ rules first.1.2 = [port_rule 8080 true]
  /\ (AddRuleForPort table_iptables first.1.2 first.2 8080 true).1
     = (None, first.1.2).
Proof.
  cbv zeta. split; [reflexivity|]. split; [reflexivity|].
  set (first := AddRuleForPort table_iptables NewIPTablesManager [] 8080 true).
  assert (Hp : (ruleExists table_iptables first.2 (port_rule 8080 true)).1 = true)
    by (vm_compute; reflexivity).
  destruct (AddRuleForPort_idempotent table_iptables first.1.2 first.2 8080 true Hp)
    as (E & _ & _).
  now rewrite E.
Defined.

(** Two runs against the in-memory table.  Three installs, then removal:
    manager and table end empty.  A manager that lists two rules the table
    does not hold: both removals are tried, both failures are reported. *)
Example install_then_remove_all :
  let installed :=
    run_calls table_iptables NewIPTablesManager []
      [ForPort 8080 true;
       ForConnection "10.0.0.1" 8080 "10.0.0.2" 4000 true;
       ForPort 9 false] in
  length (rules installed.1.2) = 3%nat
  /\ RemoveAllRules table_iptables installed.1.2 installed.2
     = (None, {| rules := [] |}, []).
Proof. vm_compute. split; reflexivity. Qed.

Example remove_all_reports_every_failure :
  RemoveAllRules table_iptables {| rules := ["a b"; "c d"; "e"] |} [["c"; "d"]]
  = (Some (aggregate_error
             [remove_error "a b" no_match.1 no_match.2;
              remove_error "e" no_match.1 no_match.2]),
     {| rules := [] |}, []).
Proof. vm_compute. reflexivity. Qed.

End IPTablesClaims.

(** ** Path-MTU discovery *)

Section MTUFacts.
Import MTU.
Context {World : Type}.
Variable SplitHostPort : string -> option string.
Variable LookupIP : World -> string -> option (list string) * World.
Variable dial : World -> string -> bool * World.

(** The two clamping tests of the source are a clamp into [500, 1371]. *)
Lemma budget_clamp optimal :
  budget optimal = clamp 500 1371 (optimal - 20 - 20 - 1 - 28).
Proof.
  unfold budget, clamp, ipHeaderSize, tcpHeaderSize, packetTypeOverhead,
    encryptionOverhead. cbv zeta.
  destruct (Z.ltb_spec (optimal - 20 - 20 - 1 - 28) 500);
    [destruct (Z.ltb_spec 1371 500)
    |destruct (Z.ltb_spec 1371 (optimal - 20 - 20 - 1 - 28))]; lia.
Qed.

(** The loop makes at most as many probes as attempts are left, probes only
    sizes between [low] and [high], and ends on the initial [optimal] or on
    a size it probed. *)
Lemma search_spec remaining : forall w ip low high optimal,
  0 <= low ->
  let r := search dial remaining w ip low high optimal in
  (length r.1.2 <= remaining)%nat
  /\ Forall (fun c => low <= c <= high) r.1.2
  /\ (r.1.1 = optimal \/ r.1.1 ∈ r.1.2).
Proof.
  induction remaining as [|n IH]; intros w ip low high optimal Hlow r.
  - subst r. cbn. split; [lia|]. split; [constructor | now left].
  - subst r. cbn [search].
    destruct (Z.leb_spec low high) as [Hle|Hgt].
    2:{ cbn. split; [lia|]. split; [constructor | now left]. }
    set (mtu := Z.quot (low + high) 2).
    assert (Hmid : low <= mtu <= high).
    { unfold mtu. rewrite Z.quot_div_nonneg by lia.
      pose proof (Z.div_mod (low + high) 2 ltac:(lia)).
      pose proof (Z.mod_pos_bound (low + high) 2 ltac:(lia)). lia. }
    destruct (testMTU dial w ip mtu) as [ok w1].
    destruct ok.
    + specialize (IH w1 ip (mtu + 1) high mtu ltac:(lia)). cbv zeta in IH.
      destruct (search dial n w1 ip (mtu + 1) high mtu) as [[opt probed] w2].
      cbn in *. destruct IH as (Hl & Hr & Ho). split; [|split].
      * lia.
      * constructor; [lia|]. eapply Forall_impl; [exact Hr|]. cbn. lia.
      * right. destruct Ho as [->|Ho]; [left|right]; auto.
    + specialize (IH w1 ip low (mtu - 1) optimal Hlow). cbv zeta in IH.
      destruct (search dial n w1 ip low (mtu - 1) optimal) as [[opt probed] w2].
      cbn in *. destruct IH as (Hl & Hr & Ho). split; [|split].
      * lia.
      * constructor; [lia|]. eapply Forall_impl; [exact Hr|]. cbn. lia.
      * destruct Ho as [->|Ho]; [now left|right; now right].
Qed.

(** When the probe answers by a threshold [T] (sizes up to [T] pass, larger
    ones fail), ten attempts are enough to halve [576, 1500] down to nothing,
    and the loop ends on the largest passing size, or on 576 when no size
    passes. *)
Lemma search_threshold T
    (Hprobe : forall w ip mtu, (testMTU dial w ip mtu).1 = (mtu <=? T)) :
  forall remaining w ip low high optimal,
    576 <= low -> low <= high + 1 -> high <= 1500 ->
    high - low + 1 < 2 ^ Z.of_nat remaining ->
    optimal = Z.max 576 (low - 1) ->
    (low = 576 \/ low - 1 <= T) -> Z.min T 1500 <= high ->
    (search dial remaining w ip low high optimal).1.1
    = Z.max 576 (Z.min T 1500).
Proof.
  induction remaining as [|n IH];
    intros w ip low high optimal Hlow Hlh Hhigh Hsize Hopt Hpass Hfail.
  - cbn in *. lia.
  - cbn [search].
    destruct (Z.leb_spec low high) as [Hle|Hgt]; [|cbn; lia].
    set (mtu := Z.quot (low + high) 2).
    assert (Hmid : low <= mtu <= high /\ 2 * mtu <= low + high < 2 * mtu + 2).
    { unfold mtu. rewrite Z.quot_div_nonneg by lia.
      pose proof (Z.div_mod (low + high) 2 ltac:(lia)).
      pose proof (Z.mod_pos_bound (low + high) 2 ltac:(lia)). lia. }
    assert (Hpow : 2 ^ Z.of_nat (S n) = 2 * 2 ^ Z.of_nat n).
    { rewrite Nat2Z.inj_succ, Z.pow_succ_r by lia. reflexivity. }
    pose proof (Hprobe w ip mtu) as Hp.
    destruct (testMTU dial w ip mtu) as [ok w1]. cbn in Hp. subst ok.
    destruct (Z.leb_spec mtu T) as [Hok|Hno].
    + specialize (IH w1 ip (mtu + 1) high mtu).
      destruct (search dial n w1 ip (mtu + 1) high mtu) as [[opt probed] w2].
      cbn in *. apply IH; lia.
    + specialize (IH w1 ip low (mtu - 1) optimal).
      destruct (search dial n w1 ip low (mtu - 1) optimal)
        as [[opt probed] w2].
      cbn in *. apply IH; lia.
Qed.

Lemma traced_dial_eq w log ip :
  traced_dial dial (w, log) ip
  = ((dial w ip).1, ((dial w ip).2, log ++ [(ip, (dial w ip).1)])).
Proof. unfold traced_dial. destruct (dial w ip); reflexivity. Qed.

(** The loop against the journalled network.  With enough attempts left to
    halve the range down to nothing, it is a binary search: its probes are
    the candidates for the answers it got, one connection attempt each, and
    it closes on a boundary [hf]: every probe up to [hf] passed, every probe
    above failed, [hf] itself passed (unless no probe did) and [hf + 1]
    failed (unless [hf] is the upper end). *)
Lemma search_traced remaining : forall w log ip low high optimal,
  576 <= low -> low <= high + 1 ->
  high - low + 1 < 2 ^ Z.of_nat remaining ->
  exists more hf,
    search (traced_dial dial) remaining (w, log) ip low high optimal
    = ((search dial remaining w ip low high optimal).1,
       ((search dial remaining w ip low high optimal).2, log ++ more))
    /\ length more = length (search dial remaining w ip low high optimal).1.2
    /\ Forall (fun e => e.1 = ip) more
    /\ (let probed := (search dial remaining w ip low high optimal).1.2 in
        let answers := zip_with probe_answer probed more.*2 in
        probed = candidates answers low high
        /\ low - 1 <= hf <= high
        /\ (search dial remaining w ip low high optimal).1.1
           = (if hf =? low - 1 then optimal else hf)
        /\ (forall c a, (c, a) ∈ zip probed answers ->
                        low <= c <= high /\ (a = true <-> c <= hf))
        /\ (hf = low - 1 \/ (hf, true) ∈ zip probed answers)
        /\ (hf = high \/ (hf + 1, false) ∈ zip probed answers)).
Proof.
  induction remaining as [|n IH]; intros w log ip low high optimal Hlow Hlh Hsize.
  - exists [], high. cbn in *. rewrite app_nil_r.
    assert (high = low - 1) by lia. subst high. rewrite Z.eqb_refl.
    split; [reflexivity|]. split; [reflexivity|]. split; [constructor|].
    split; [reflexivity|]. split; [lia|]. split; [reflexivity|].
    split; [intros c a Hin; inversion Hin|]. split; now left.
  - cbn [search].
    destruct (Z.leb_spec low high) as [Hle|Hgt].
    2:{ exists [], high. cbn. rewrite app_nil_r.
        assert (high = low - 1) by lia. subst high. rewrite Z.eqb_refl.
        split; [reflexivity|]. split; [reflexivity|]. split; [constructor|].
        split; [reflexivity|]. split; [lia|]. split; [reflexivity|].
        split; [intros c a Hin; inversion Hin|]. split; now left. }
    assert (Eq : Z.quot (low + high) 2 = (low + high) / 2)
      by (apply Z.quot_div_nonneg; lia).
    remember (Z.quot (low + high) 2) as mtu eqn:Emtu.
    assert (Hmid : low <= mtu <= high /\ 2 * mtu <= low + high < 2 * mtu + 2).
    { rewrite Eq.
      pose proof (Z.div_mod (low + high) 2 ltac:(lia)).
      pose proof (Z.mod_pos_bound (low + high) 2 ltac:(lia)). lia. }
    clear Emtu.
    assert (Hpow : 2 ^ Z.of_nat (S n) = 2 * 2 ^ Z.of_nat n).
    { rewrite Nat2Z.inj_succ, Z.pow_succ_r by lia. reflexivity. }
    unfold testMTU. rewrite traced_dial_eq.
    destruct (dial w ip) as [connected w1]. cbn [fst snd].
    assert (E1 : forall X (x : X),
               (if connected then (true, x) else (mtu <=? 1200, x))
               = (probe_answer mtu connected, x))
      by (intros; destruct connected; reflexivity).
    rewrite !E1.
    destruct (probe_answer mtu connected) eqn:Ea.
    + destruct (IH w1 (log ++ [(ip, connected)]) ip (mtu + 1) high mtu)
        as (more & hf & Erun & Hlen & Hip & Hb); try lia.
      cbv zeta in Hb. destruct Hb as (Hcand & Hhf & Hres & Hsep & Hlo & Hhi).
      exists ((ip, connected) :: more), hf. rewrite Erun.
      destruct (search dial n w1 ip (mtu + 1) high mtu) as [[opt probed] w2].
      cbn [fst snd] in *. rewrite <- app_assoc. cbn [app].
      split; [reflexivity|]. split; [cbn; lia|].
      split; [constructor; auto|].
      cbn [fst snd fmap list_fmap zip_with]. rewrite Ea.
      cbn [candidates zip zip_with]. rewrite <- Eq, <- Hcand.
      split; [reflexivity|]. split; [lia|]. split.
      { destruct (Z.eqb_spec hf (low - 1)); [lia|].
        rewrite Hres. destruct (Z.eqb_spec hf (mtu + 1 - 1)); lia. }
      split.
      { intros c a Hin. apply elem_of_cons in Hin as [[= -> ->]|Hin].
        - split; [lia|]. split; [lia|reflexivity].
        - destruct (Hsep c a Hin). split; [lia|assumption]. }
      split.
      { right. destruct Hlo as [->|Hlo]; [|now right].
        replace (mtu + 1 - 1) with mtu by lia. now left. }
      { destruct Hhi as [->|Hhi]; [now left|right; now right]. }
    + destruct (IH w1 (log ++ [(ip, connected)]) ip low (mtu - 1) optimal)
        as (more & hf & Erun & Hlen & Hip & Hb); try lia.
      cbv zeta in Hb. destruct Hb as (Hcand & Hhf & Hres & Hsep & Hlo & Hhi).
      exists ((ip, connected) :: more), hf. rewrite Erun.
      destruct (search dial n w1 ip low (mtu - 1) optimal) as [[opt probed] w2].
      cbn [fst snd] in *. rewrite <- app_assoc. cbn [app].
      split; [reflexivity|]. split; [cbn; lia|].
      split; [constructor; auto|].
      cbn [fst snd fmap list_fmap zip_with]. rewrite Ea.
      cbn [candidates zip zip_with]. rewrite <- Eq, <- Hcand.
      split; [reflexivity|]. split; [lia|]. split; [exact Hres|].
      split.
      { intros c a Hin. apply elem_of_cons in Hin as [[= -> ->]|Hin].
        - split; [lia|]. split; [discriminate|lia].
        - destruct (Hsep c a Hin). split; [lia|assumption]. }
      split.
      { destruct Hlo as [->|Hlo]; [now left|right; now right]. }
      { right. destruct Hhi as [->|Hhi]; [|now right].
        replace (mtu - 1 + 1) with mtu by lia. now left. }
Qed.

End MTUFacts.

Section MTUClaims.
Import MTU.

(** C4. For a discovery made by [NewMTUDiscovery], [DiscoverOptimalMTU]
    fails exactly when the address does not parse or does not resolve, and
    then returns the initial MTU without a probe.  Otherwise it binary
    searches [576, 1500]: its probes are the candidates of a binary search
    for the answers the probes gave, each probe is one connection attempt to
    the first resolved address, and there are at most 10.  The path MTU it
    finds is the boundary the search closes on: every probe up to it passed,
    every probe above it failed, the size itself passed (576 when no probe
    passed) and the next size failed (unless it is 1500).  The value
    returned is that path MTU less 20, 20, 1 and 28, clamped into
    [500, 1371]. *)
Theorem DiscoverOptimalMTU_budget {World : Type}
    (SplitHostPort : string -> option string)
    (LookupIP : World -> string -> option (list string) * World)
    (dial : World -> string -> bool * World)
    (remote : string) (initial : Z) (w : World) :
  let r := DiscoverOptimalMTU SplitHostPort LookupIP dial
             (NewMTUDiscovery remote initial) w in
  let run := DiscoverOptimalMTU SplitHostPort (untraced_lookup LookupIP)
               (traced_dial dial) (NewMTUDiscovery remote initial) (w, []) in
  let result := r.1.1.1 in
  let err := r.1.1.2 in
  let probed := r.1.2 in
  let log := run.2.2 in
  let answers := zip_with probe_answer probed log.*2 in
  (length probed <= 10)%nat
  /\ Forall (fun c => 576 <= c <= 1500) probed
  /\ (err = None ->
      exists pmtu, (pmtu = 576 \/ pmtu ∈ probed) /\ 576 <= pmtu <= 1500
                   /\ result = clamp 500 1371 (pmtu - 20 - 20 - 1 - 28))
  /\ (err <> None -> result = initial /\ probed = [])
  /\ (run.1 = r.1 /\ run.2.1 = r.2 /\ length log = length probed)
  /\ probed = candidates answers 576 1500
  /\ (err = None <->
      exists host ip ips,
        SplitHostPort remote = Some host
        /\ (LookupIP w host).1 = Some (ip :: ips))
  /\ (forall host ip ips,
        SplitHostPort remote = Some host ->
        (LookupIP w host).1 = Some (ip :: ips) ->
        Forall (fun e => e.1 = ip) log)
  /\ (err = None ->
      exists hf,
        575 <= hf <= 1500
        /\ result = clamp 500 1371 (Z.max 576 hf - 20 - 20 - 1 - 28)
        /\ (forall c a, (c, a) ∈ zip probed answers -> (a = true <-> c <= hf))
        /\ (hf = 575 \/ (hf, true) ∈ zip probed answers)
        /\ (hf = 1500 \/ (hf + 1, false) ∈ zip probed answers)).
Proof.
  cbv zeta. unfold DiscoverOptimalMTU, untraced_lookup.
  cbn [remoteAddr currentMTU minMTU maxMTU NewMTUDiscovery].
  destruct (SplitHostPort remote) as [host|] eqn:ES.
  2:{ cbn. split; [lia|]. split; [constructor|].
      split; [discriminate|]. split; [auto|]. split; [auto|].
      split; [reflexivity|]. split.
      { split; [discriminate|]. intros (h & ip & ips & H & _). discriminate H. }
      split; [intros h ip ips H; discriminate H|]. discriminate. }
  destruct (LookupIP w host) as [[[|ip ips]|] w1] eqn:EL.
  1,3: cbn; (split; [lia|]); (split; [constructor|]);
       (split; [discriminate|]); (split; [auto|]); (split; [auto|]);
       (split; [reflexivity|]);
       (split; [split; [discriminate|];
                intros (h & ip' & ips' & H & H'); injection H as <-;
                rewrite EL in H'; discriminate H'|]);
       (split; [intros h ip' ips' H H'; injection H as <-;
                rewrite EL in H'; discriminate H'|]); discriminate.
  pose proof (search_spec dial (Z.to_nat maxAttempts) w1 ip 576 1500 576
                ltac:(lia)) as Hs.
  cbv zeta in Hs.
  destruct (search_traced dial (Z.to_nat maxAttempts) w1 [] ip 576 1500 576)
    as (more & hf & Erun & Hlen & Hip & Hb); try lia.
  { vm_compute. reflexivity. }
  cbv zeta in Hb. rewrite Erun.
  destruct (search dial (Z.to_nat maxAttempts) w1 ip 576 1500 576)
    as [[optimal probed] w2].
  cbn [fst snd app] in *.
  destruct Hs as (Hl & Hr & Ho).
  destruct Hb as (Hcand & Hhf & Hres & Hsep & Hlo & Hhi).
  change (576 - 1) with 575 in *.
  assert (Eopt : optimal = Z.max 576 hf).
  { rewrite Hres. destruct (Z.eqb_spec hf 575); lia. }
  split; [exact Hl|]. split; [exact Hr|]. split.
  { intros _. exists optimal. split; [exact Ho|]. split; [|apply budget_clamp].
    destruct Ho as [->|Hin]; [lia|].
    exact (proj1 (Forall_forall _ _) Hr _ Hin). }
  split; [intros H; congruence|].
  split; [auto|]. split; [exact Hcand|]. split.
  { split; [|reflexivity]. intros _. exists host, ip, ips.
    rewrite EL. auto. }
  split.
  { intros h ip' ips' [= <-] H'. rewrite EL in H'. cbn in H'.
    injection H' as <- _. exact Hip. }
  intros _. exists hf. split; [lia|]. split.
  { rewrite budget_clamp, Eopt. reflexivity. }
  split; [intros c a Hin; apply (Hsep c a Hin)|]. auto.
Qed.

(** On a network whose probes answer by a threshold, the value returned is
    the budget of the largest passing size in [576, 1500]. *)
Lemma DiscoverOptimalMTU_threshold {World : Type}
    (SplitHostPort : string -> option string)
    (LookupIP : World -> string -> option (list string) * World)
    (dial : World -> string -> bool * World)
    (remote : string) (initial : Z) (w : World) (T : Z) :
  (forall w ip mtu, (testMTU dial w ip mtu).1 = (mtu <=? T)) ->
  let r := DiscoverOptimalMTU SplitHostPort LookupIP dial
             (NewMTUDiscovery remote initial) w in
  r.1.1.2 = None ->
  r.1.1.1 = clamp 500 1371 (Z.max 576 (Z.min T 1500) - 20 - 20 - 1 - 28).
Proof.
  intros Hprobe. cbv zeta. unfold DiscoverOptimalMTU.
  cbn [remoteAddr currentMTU minMTU maxMTU NewMTUDiscovery].
  destruct (SplitHostPort remote) as [host|]; [|discriminate].
  destruct (LookupIP w host) as [[[|ip ips]|] w1]; try discriminate.
  pose proof (search_threshold dial T Hprobe (Z.to_nat maxAttempts) w1 ip
                576 1500 576) as Hs.
  destruct (search dial (Z.to_nat maxAttempts) w1 ip 576 1500 576)
    as [[optimal probed] w2].
  cbn [fst snd] in *. intros _. rewrite budget_clamp.
  rewrite Hs; [reflexivity | lia | lia | lia | | reflexivity | lia | lia].
  vm_compute. reflexivity.
Qed.

(** Two runs: port 80 unreachable (sizes above 1200 count as too large) and
    reachable (every size passes). *)
Example DiscoverOptimalMTU_unreachable :
  DiscoverOptimalMTU host_of resolve_self (static_dial false)
    (NewMTUDiscovery "example.org:9000" 1400) tt
  = (1200 - 69, None,
     [1038; 1269; 1153; 1211; 1182; 1196; 1203; 1199; 1201; 1200], tt).
Proof. reflexivity. Qed.

Example DiscoverOptimalMTU_reachable :
  DiscoverOptimalMTU host_of resolve_self (static_dial true)
    (NewMTUDiscovery "example.org:9000" 1400) tt
  = (1371, None,
     [1038; 1269; 1385; 1443; 1472; 1486; 1493; 1497; 1499; 1500], tt).
Proof. reflexivity. Qed.

End MTUClaims.

(** * Further properties of the code *)

(** ** Raw socket: what is built is what is parsed *)

Ltac write_lengths :=
  repeat first
    [ rewrite length_PutUint16 | rewrite length_PutUint32
    | rewrite length_copy_at | rewrite length_insert
    | rewrite length_inserts | rewrite length_make ].

Ltac read_written :=
  unfold PutUint16, PutUint32, copy_from, copy_at;
  repeat first
    [ rewrite list_lookup_inserts_lt by lia
    | rewrite list_lookup_insert_ne by lia
    | rewrite list_lookup_insert_eq
        by (write_lengths;
            unfold RawSocket.IPHeaderSize, RawSocket.TCPHeaderSize, len in *;
            lia) ].

Section RawSocketRoundTrip.
Import RawSocket InternetChecksum.

Lemma lor_disjoint a b k :
  0 <= k -> a mod 2 ^ k = 0 -> 0 <= b < 2 ^ k -> Z.lor a b = a + b.
Proof.
  intros Hk Ha Hb.
  assert (E : a = Z.shiftl (a / 2 ^ k) k).
  { rewrite Z.shiftl_mul_pow2 by lia.
    pose proof (Z.div_mod a (2 ^ k) ltac:(lia)). lia. }
  rewrite E at 1. rewrite lor_shiftl_small by lia.
  pose proof (Z.div_mod a (2 ^ k) ltac:(lia)). lia.
Qed.

Lemma Uint32_bytes v :
  Uint32 (to_byte (Z.shiftr v 24)) (to_byte (Z.shiftr v 16))
         (to_byte (Z.shiftr v 8)) (to_byte v)
  = v mod 4294967296.
Proof.
  unfold Uint32. rewrite !u8_to_byte, !Z.shiftr_div_pow2 by lia.
  rewrite !Z.shiftl_mul_pow2 by lia.
  change (2 ^ 8) with 256. change (2 ^ 16) with (256 * 256).
  change (2 ^ 24) with (256 * 256 * 256).
  rewrite <- !Z.div_div by lia.
  set (q1 := v / 256). set (q2 := q1 / 256). set (q3 := q2 / 256).
  pose proof (Z.div_mod v 256 ltac:(lia)) as D0.
  pose proof (Z.mod_pos_bound v 256 ltac:(lia)) as B0.
  pose proof (Z.div_mod q1 256 ltac:(lia)) as D1.
  pose proof (Z.mod_pos_bound q1 256 ltac:(lia)) as B1.
  pose proof (Z.div_mod q2 256 ltac:(lia)) as D2.
  pose proof (Z.mod_pos_bound q2 256 ltac:(lia)) as B2.
  pose proof (Z.div_mod q3 256 ltac:(lia)) as D3.
  pose proof (Z.mod_pos_bound q3 256 ltac:(lia)) as B3.
  fold q1 in D0. fold q2 in D1. fold q3 in D2.
  set (c3 := q3 mod 256) in *. set (c2 := q2 mod 256) in *.
  set (c1 := q1 mod 256) in *. set (c0 := v mod 256) in *.
  rewrite (lor_disjoint (c3 * (256 * 256 * 256)) (c2 * (256 * 256)) 24);
    [| lia | apply Z.mod_mul; lia | change (2 ^ 24) with 16777216; lia].
  rewrite (lor_disjoint (c3 * (256 * 256 * 256) + c2 * (256 * 256))
             (c1 * 256) 16);
    [| lia | | change (2 ^ 16) with 65536; lia].
  2:{ replace (c3 * (256 * 256 * 256) + c2 * (256 * 256))
        with ((c3 * 256 + c2) * 2 ^ 16) by lia.
      apply Z.mod_mul. lia. }
  rewrite (lor_disjoint (c3 * (256 * 256 * 256) + c2 * (256 * 256) + c1 * 256)
             c0 8);
    [| lia | | change (2 ^ 8) with 256; lia].
  2:{ replace (c3 * (256 * 256 * 256) + c2 * (256 * 256) + c1 * 256)
        with ((c3 * 65536 + c2 * 256 + c1) * 2 ^ 8) by lia.
      apply Z.mod_mul. lia. }
  apply (Z.mod_unique v 4294967296 (q3 / 256)); lia.
Qed.

Lemma BuildTCPHeader_bytes sp dp sq ak fl w opts :
  let h := BuildTCPHeader sp dp sq ak fl w opts in
  (byte_at h 0 = to_byte (Z.shiftr sp 8) /\ byte_at h 1 = to_byte sp)
  /\ (byte_at h 2 = to_byte (Z.shiftr dp 8) /\ byte_at h 3 = to_byte dp)
  /\ (byte_at h 4 = to_byte (Z.shiftr sq 24)
      /\ byte_at h 5 = to_byte (Z.shiftr sq 16)
      /\ byte_at h 6 = to_byte (Z.shiftr sq 8) /\ byte_at h 7 = to_byte sq)
  /\ (byte_at h 8 = to_byte (Z.shiftr ak 24)
      /\ byte_at h 9 = to_byte (Z.shiftr ak 16)
      /\ byte_at h 10 = to_byte (Z.shiftr ak 8) /\ byte_at h 11 = to_byte ak)
  /\ byte_at h 13 = fl.
Proof.
  unfold BuildTCPHeader, byte_at. cbv zeta.
  pose proof (len_nonneg (pad_options opts)).
  destruct (0 <? len (pad_options opts)); repeat split;
    change (Z.to_nat TCPHeaderSize) with 20%nat;
    read_written; reflexivity.
Qed.

Lemma BuildIPHeader_addresses src dst proto n s0 s1 s2 s3 d0 d1 d2 d3 :
  To4 src = [s0; s1; s2; s3] -> To4 dst = [d0; d1; d2; d3] ->
  let h := BuildIPHeader src dst proto n in
  (byte_at h 12 = s0 /\ byte_at h 13 = s1 /\ byte_at h 14 = s2
   /\ byte_at h 15 = s3)
  /\ (byte_at h 16 = d0 /\ byte_at h 17 = d1 /\ byte_at h 18 = d2
      /\ byte_at h 19 = d3).
Proof.
  intros Hs Hd. unfold BuildIPHeader. cbv zeta. rewrite Hs, Hd.
  repeat split; reflexivity.
Qed.

(** X1. [RecvPacket] undoes [SendPacket]: for IPv4 addresses and at most 40
    option bytes, parsing the datagram that [SendPacket] builds, received
    into a buffer at least as long as the datagram, returns the addresses,
    the ports, seq, ack and flags it was built from (ports as [uint16], seq
    and ack as [uint32]) and the payload (nil for an empty payload). *)
Theorem RecvPacket_SendPacket src sp dst dp sq ak fl opts pl rest
    s0 s1 s2 s3 d0 d1 d2 d3 :
  To4 src = [s0; s1; s2; s3] -> To4 dst = [d0; d1; d2; d3] ->
  len opts <= 40 ->
  let packet := datagram src sp dst dp sq ak fl opts pl in
  RecvPacket (packet ++ rest) (inl (len packet))
  = Ok {| srcIP := IPv4 s0 s1 s2 s3; srcPort := sp mod 65536;
          dstIP := IPv4 d0 d1 d2 d3; dstPort := dp mod 65536;
          seq := sq mod 4294967296; ack := ak mod 4294967296;
          flags := fl;
          payload := match pl with [] => None | _ => Some pl end |}.
Proof.
  intros Hs Hd Hopts packet.
  set (tcp := segment_header src sp dst dp sq ak fl opts pl).
  set (iph := BuildIPHeader src dst (to_byte IPPROTO_TCP) (len tcp + len pl)).
  assert (Hp : packet = iph ++ tcp ++ pl) by apply datagram_eq.
  assert (Li : length iph = 20%nat) by apply length_BuildIPHeader.
  pose proof (length_segment_header src sp dst dp sq ak fl opts pl) as Lt.
  fold tcp in Lt. rewrite len_pad_options in Lt.
  pose proof (len_nonneg opts) as Ho. pose proof (len_nonneg pl) as Hpl.
  assert (Hq : 0 <= (len opts + 3) / 4 <= 10).
  { split; [apply Z.div_pos; lia|].
    enough ((len opts + 3) / 4 < 11) by lia.
    apply Z.div_lt_upper_bound; lia. }
  assert (Ln : len packet = 20 + len tcp + len pl).
  { rewrite Hp. unfold len in *. rewrite !length_app. lia. }
  assert (Lt' : (20 <= length tcp)%nat) by (unfold len in *; lia).
  pose proof (BuildIPHeader_fields src dst (to_byte IPPROTO_TCP)
                (len tcp + len pl)) as F.
  cbv zeta in F. fold iph in F. destruct F as (F0 & _ & _ & _ & F9).
  pose proof (BuildIPHeader_addresses src dst (to_byte IPPROTO_TCP)
                (len tcp + len pl) _ _ _ _ _ _ _ _ Hs Hd) as A.
  cbv zeta in A. fold iph in A.
  destruct A as ((A12 & A13 & A14 & A15) & (A16 & A17 & A18 & A19)).
  pose proof (BuildTCPHeader_bytes sp dp sq ak fl 65535 opts) as B.
  cbv zeta in B.
  assert (Bseg : forall i, (i < 16)%nat ->
            byte_at tcp i
            = byte_at (BuildTCPHeader sp dp sq ak fl 65535 opts) i).
  { intros i Hi. unfold tcp, segment_header, byte_at, PutUint16. cbv zeta.
    now rewrite !list_lookup_insert_ne by lia. }
  destruct B as ((B0 & B1) & (B2 & B3) & (B4 & B5 & B6 & B7)
                 & (B8 & B9 & B10 & B11) & B13).
  pose proof (tcp_data_offset_segment src sp dst dp sq ak fl opts pl) as D.
  cbv zeta in D. fold tcp in D.
  assert (Hd4 : len tcp / 4 = 5 + (len opts + 3) / 4).
  { rewrite Lt. replace (20 + 4 * ((len opts + 3) / 4))
      with ((5 + (len opts + 3) / 4) * 4) by lia.
    apply Z.div_mul. lia. }
  rewrite Hd4, Z.mod_small in D by lia.
  set (buf := packet ++ rest).
  assert (Hbuf : buf = iph ++ (tcp ++ pl ++ rest)).
  { unfold buf. rewrite Hp. now rewrite <- !app_assoc. }
  assert (Hih : forall i, (i < 20)%nat -> byte_at buf i = byte_at iph i).
  { intros i Hi. rewrite Hbuf. apply byte_at_app_l. lia. }
  assert (Hihl : ip_header_len buf = 20).
  { unfold ip_header_len. rewrite Hih, F0 by lia. reflexivity. }
  assert (Hproto : ip_protocol buf = IPPROTO_TCP).
  { unfold ip_protocol. rewrite Hih, F9 by lia. reflexivity. }
  assert (Ht : drop (Z.to_nat 20) buf = tcp ++ pl ++ rest).
  { rewrite Hbuf. apply drop_app_length'. rewrite Li. reflexivity. }
  assert (Hth : forall i, (i < 16)%nat ->
            byte_at (tcp ++ pl ++ rest) i
            = byte_at (BuildTCPHeader sp dp sq ak fl 65535 opts) i).
  { intros i Hi. rewrite byte_at_app_l by lia. now apply Bseg. }
  assert (Hoff : tcp_data_offset (tcp ++ pl ++ rest) = tcp_data_offset tcp).
  { unfold tcp_data_offset. now rewrite byte_at_app_l by lia. }
  rewrite RecvPacket_eval.
  2:{ lia. }
  2:{ unfold buf, len. rewrite length_app. lia. }
  cbv zeta. rewrite Hihl, Hproto, Ht, Hoff, D.
  unfold TCPHeaderSize.
  destruct (Z.ltb_spec (len packet) 20); [lia|].
  rewrite Z.eqb_refl. cbn [negb].
  destruct (Z.ltb_spec (len packet) (20 + 20)); [lia|].
  rewrite !Hih, !Hth by lia.
  rewrite A12, A13, A14, A15, A16, A17, A18, A19.
  rewrite B0, B1, B2, B3, B4, B5, B6, B7, B8, B9, B10, B11, B13.
  rewrite !Uint16_bytes, !Uint32_bytes.
  f_equal. f_equal.
  replace (20 + (5 + (len opts + 3) / 4) * 4) with (20 + len tcp) by lia.
  destruct (Z.ltb_spec (20 + len tcp) (len packet)) as [Hlt|Hge].
  - destruct pl as [|b pl']; [unfold len in *; cbn [length] in *; lia|].
    f_equal. rewrite Hbuf.
    replace (Z.to_nat (20 + len tcp)) with (length iph + length tcp)%nat
      by (unfold len; lia).
    rewrite app_assoc, <- length_app, drop_app_length.
    apply take_app_length'. unfold len in *. lia.
  - destruct pl as [|b pl']; [reflexivity|].
    unfold len in *. cbn [length] in *. lia.
Qed.

Lemma RecvPacket_SendPacket_witness :
  RecvPacket (RawSocketExamples.sample_packet ++ [Byte.x00; Byte.x00])
    (inl (len RawSocketExamples.sample_packet))
  = Ok {| srcIP := IPv4 Byte.x0a Byte.x00 Byte.x00 Byte.x01;
          srcPort := 1234 mod 65536;
          dstIP := IPv4 Byte.xc0 Byte.xa8 Byte.x01 Byte.xfe;
          dstPort := 80 mod 65536;
          seq := 1 mod 4294967296; ack := 2 mod 4294967296;
          flags := RawSocketExamples.PSH_ACK;
          payload := Some RawSocketExamples.abc |}.
Proof.
  apply (RecvPacket_SendPacket RawSocketExamples.hostA 1234
           RawSocketExamples.hostB 80 1 2 RawSocketExamples.PSH_ACK
           [Byte.x01] RawSocketExamples.abc [Byte.x00; Byte.x00]).
  - reflexivity.
  - reflexivity.
  - vm_compute. discriminate.
Defined.

(** X2. The total-length field of the IP header is [20 + payloadLen] as a
    [uint16]; in a datagram built by [SendPacket] that is at most 65535 bytes
    long it is the length of the datagram. *)
Theorem ip_total_length_built src sp dst dp sq ak fl opts pl :
  (forall proto n,
      ip_total_length (BuildIPHeader src dst proto n) = (20 + n) mod 65536)
  /\ (let packet := datagram src sp dst dp sq ak fl opts pl in
      len packet <= 65535 -> ip_total_length (take 20 packet) = len packet).
Proof.
  assert (G : forall proto n,
             ip_total_length (BuildIPHeader src dst proto n)
             = (20 + n) mod 65536).
  { intros proto n. unfold ip_total_length.
    assert (E : byte_at (BuildIPHeader src dst proto n) 2
                = to_byte (Z.shiftr (wrap16 (IPHeaderSize + n)) 8)
                /\ byte_at (BuildIPHeader src dst proto n) 3
                   = to_byte (wrap16 (IPHeaderSize + n))).
    { unfold BuildIPHeader, byte_at. cbv zeta.
      split; read_written; reflexivity. }
    destruct E as [-> ->]. rewrite Uint16_bytes. unfold wrap16, IPHeaderSize.
    apply Z.mod_mod. lia. }
  split; [exact G|].
  intros packet Hlen. subst packet. rewrite datagram_eq in *.
  rewrite take_app_length' by (now rewrite length_BuildIPHeader).
  rewrite G. unfold len in *.
  rewrite !length_app, length_BuildIPHeader in *.
  rewrite Z.mod_small; lia.
Qed.

Lemma ip_total_length_built_witness :
  ip_total_length (take 20 RawSocketExamples.sample_packet)
  = len RawSocketExamples.sample_packet.
Proof.
  apply (proj2 (ip_total_length_built RawSocketExamples.hostA 1234
                  RawSocketExamples.hostB 80 1 2 RawSocketExamples.PSH_ACK
                  [Byte.x01] RawSocketExamples.abc)).
  vm_compute. discriminate.
Defined.

Lemma drop_copy_from {A} lo (src buf : list A) :
  length buf = (lo + length src)%nat -> drop lo (copy_from lo src buf) = src.
Proof.
  intros Hl.
  assert (Hpre : length (take lo buf) = lo) by (rewrite length_take; lia).
  pose proof (copy_from_middle (take lo buf) (drop lo buf) [] src) as E.
  rewrite app_nil_r, take_drop, Hpre in E.
  rewrite E by (rewrite length_drop; lia).
  rewrite app_nil_r. apply drop_app_length'. now rewrite Hpre.
Qed.

(** X3. The options travel verbatim behind the 20 fixed bytes of the TCP
    header, followed by fewer than four zero bytes that bring the header to a
    multiple of four bytes; options whose length is already a multiple of
    four are not padded. *)
Theorem BuildTCPHeader_options sp dp sq ak fl w opts :
  let h := BuildTCPHeader sp dp sq ak fl w opts in
  drop 20 h = pad_options opts
  /\ exists k, 0 <= k < 4 /\ pad_options opts = opts ++ make k
               /\ (len opts + k) mod 4 = 0
               /\ (len opts mod 4 = 0 -> k = 0).
Proof.
  cbv zeta. split.
  - pose proof (length_BuildTCPHeader sp dp sq ak fl w opts) as L.
    unfold BuildTCPHeader in *. cbv zeta in *.
    pose proof (len_nonneg (pad_options opts)) as Hn.
    destruct (Z.ltb_spec 0 (len (pad_options opts))) as [Hpos|Hz].
    + change (Z.to_nat TCPHeaderSize) with 20%nat.
      apply drop_copy_from. write_lengths. unfold TCPHeaderSize, len. lia.
    + assert (E : pad_options opts = []).
      { apply nil_length_inv. unfold len in *. lia. }
      rewrite E. apply drop_ge. write_lengths.
      unfold TCPHeaderSize, len. cbn. lia.
  - unfold pad_options. pose proof (len_nonneg opts) as Hn.
    rewrite !Z.rem_mod_nonneg by lia.
    pose proof (Z.mod_pos_bound (len opts) 4 ltac:(lia)) as Hm.
    destruct (Z.eqb_spec (len opts mod 4) 0) as [E|E]; cbn [negb].
    + exists 0. repeat split; try lia.
      * unfold make. cbn. now rewrite app_nil_r.
      * now rewrite Z.add_0_r.
    + exists (4 - len opts mod 4). repeat split; try lia.
      pose proof (Z.div_mod (len opts) 4 ltac:(lia)).
      replace (len opts + (4 - len opts mod 4))
        with ((len opts / 4 + 1) * 4) by lia.
      apply Z.mod_mul. lia.
Qed.

End RawSocketRoundTrip.

(** ** Internet checksum: padding and error detection *)

Section ChecksumDetection.
Import RawSocket InternetChecksum.

Lemma total_cons2 x y l : total (x :: y :: l) = u8 x * 256 + u8 y + total l.
Proof. reflexivity. Qed.

Lemma total_zeros k : total (replicate k Byte.x00) = 0.
Proof.
  enough (G : forall l, Forall (fun b => b = Byte.x00) l -> total l = 0).
  { apply G. apply Forall_replicate. reflexivity. }
  induction l as [| x | x y l IH] using list_pair_ind; intros Hz.
  - reflexivity.
  - inversion Hz; subst. reflexivity.
  - inversion Hz as [|? ? -> Hz']; subst. inversion Hz' as [|? ? -> Hz'']; subst.
    rewrite total_cons2, IH by assumption. reflexivity.
Qed.

Lemma total_app_zeros data k : total (data ++ replicate k Byte.x00) = total data.
Proof.
  induction data as [| x | x y l IH] using list_pair_ind.
  - apply total_zeros.
  - destruct k as [|k]; [reflexivity|].
    cbn [app replicate]. rewrite total_cons2, total_zeros.
    unfold total. cbn. lia.
  - cbn [app]. now rewrite !total_cons2, IH.
Qed.

(** X4. Zero bytes appended to a buffer do not change its checksum: an
    odd-length buffer sums as if padded with a zero byte, and trailing zero
    words add nothing. *)
Theorem CalculateChecksum_zero_padding data k :
  CalculateChecksum (data ++ make k) = CalculateChecksum data.
Proof.
  rewrite !CalculateChecksum_eq. unfold make. now rewrite total_app_zeros.
Qed.

Lemma total_insert data : forall i b b',
  data !! i = Some b ->
  total (<[i := b']> data)
  = total data + (u8 b' - u8 b) * (if Nat.even i then 256 else 1).
Proof.
  induction data as [| x | x y l IH] using list_pair_ind; intros i b b' Hi.
  - discriminate.
  - destruct i as [|i]; [|discriminate]. injection Hi as ->.
    unfold total. cbn. lia.
  - destruct i as [|[|i]].
    + injection Hi as ->. cbn [insert list_insert]. rewrite !total_cons2.
      cbn [Nat.even]. lia.
    + injection Hi as ->. cbn [insert list_insert]. rewrite !total_cons2.
      cbn [Nat.even]. lia.
    + change (<[S (S i) := b']> (x :: y :: l))
        with (x :: y :: <[i := b']> l).
      rewrite !total_cons2, (IH i b b' Hi). cbn [Nat.even]. lia.
Qed.

Lemma checksum_zero_iff data :
  len data <= 131074 ->
  (CalculateChecksum data = 0
   <-> 0 < total data /\ exists k, total data = 65535 * k).
Proof.
  intros Hlen. rewrite CalculateChecksum_eq.
  pose proof (total_nonneg data) as Hn. pose proof (total_bound data) as Hb.
  assert ((len data + 1) / 2 < 65538) by (apply Z.div_lt_upper_bound; lia).
  unfold wrap32. rewrite Z.mod_small by lia.
  unfold oc_norm. destruct (Z.eqb_spec (total data) 0) as [E|E].
  - split; [lia|]. intros [Hpos _]. lia.
  - pose proof (Z.div_mod (total data - 1) 65535 ltac:(lia)) as D.
    pose proof (Z.mod_pos_bound (total data - 1) 65535 ltac:(lia)) as B.
    split.
    + intros Hz. split; [lia|].
      exists ((total data - 1) / 65535 + 1). lia.
    + intros [Hpos [k Hk]].
      assert (M : (total data - 1) mod 65535 = 65534).
      { symmetry. apply (Z.mod_unique _ _ (k - 1)); lia. }
      lia.
Qed.

(** X5. The checksum detects every single-byte error: in a buffer (of at
    most 131074 bytes) that verifies, changing any one byte to another
    value makes the verification fail. *)
Theorem CalculateChecksum_detects_byte_error data i b b' :
  len data <= 131074 -> data !! i = Some b -> b' <> b ->
  CalculateChecksum data = 0 ->
  CalculateChecksum (<[i := b']> data) <> 0.
Proof.
  intros Hlen Hi Hne Hok Hbad.
  assert (Hlen' : len (<[i := b']> data) <= 131074)
    by (unfold len in *; now rewrite length_insert).
  apply checksum_zero_iff in Hok as [Hpos [k Hk]]; [|assumption].
  apply checksum_zero_iff in Hbad as [Hpos' [k' Hk']]; [|assumption].
  rewrite (total_insert data i b b' Hi) in Hk'.
  pose proof (u8_range b). pose proof (u8_range b').
  assert (u8 b' <> u8 b) by (intros E; apply Hne; now apply u8_inj).
  destruct (Nat.even i); lia.
Qed.

Lemma CalculateChecksum_detects_byte_error_witness :
  CalculateChecksum
    (<[8%nat := Byte.x3f]> (take 20 RawSocketExamples.sample_packet)) <> 0.
Proof.
  apply (CalculateChecksum_detects_byte_error
           (take 20 RawSocketExamples.sample_packet) 8 Byte.x40 Byte.x3f).
  - vm_compute. discriminate.
  - reflexivity.
  - discriminate.
  - vm_compute. reflexivity.
Defined.

End ChecksumDetection.

(** ** Block codec: payloads of any length, lost slots, error kinds *)

Section FECMore.
Import FEC.
Context {RS : ReedSolomon}.

Lemma encode_shard_size_max (f : FEC) data :
  0 < dataShards f -> 0 < shardSize f -> 0 < len data ->
  let sz := encode_shard_size f data in
  sz = Z.max (shardSize f) ((len data + dataShards f - 1) / dataShards f)
  /\ 0 < sz /\ len data <= dataShards f * sz.
Proof.
  intros HD HS Hpos. unfold encode_shard_size. cbv zeta.
  set (D := dataShards f) in *. set (S := shardSize f) in *.
  rewrite Z.quot_div_nonneg by lia.
  pose proof (Z.div_mod (len data + D - 1) D ltac:(lia)) as Hd.
  pose proof (Z.mod_pos_bound (len data + D - 1) D ltac:(lia)) as Hm.
  set (q := (len data + D - 1) / D) in *.
  assert (Hq : len data <= D * q) by lia.
  assert (Hq0 : 0 < q) by nia.
  destruct (Z.ltb_spec 0 S); [|lia]. cbn [andb].
  destruct (Z.ltb_spec q S); repeat split; try lia; nia.
Qed.

Lemma first_shard_size_agree (a b : list shard) present :
  received a b present -> first_shard_size b present = first_shard_size a present.
Proof.
  intros [Hlen Hag]. revert a b Hlen Hag.
  induction present as [|p ps IH]; intros a b Hlen Hag.
  - destruct a, b; reflexivity || discriminate.
  - destruct a as [|x a], b as [|y b]; try discriminate; [reflexivity|].
    cbn [first_shard_size].
    rewrite (IH a b); auto; [|intros i Hi; apply (Hag (S i) Hi)].
    destruct p; [|reflexivity].
    specialize (Hag 0%nat eq_refl). cbn in Hag. now injection Hag as ->.
Qed.

Lemma inconsistent_agree sz (a b : list shard) present :
  received a b present -> inconsistent sz b present = inconsistent sz a present.
Proof.
  intros [Hlen Hag]. revert a b Hlen Hag.
  induction present as [|p ps IH]; intros a b Hlen Hag.
  - destruct a, b; reflexivity || discriminate.
  - destruct a as [|x a], b as [|y b]; try discriminate; [reflexivity|].
    cbn [inconsistent].
    rewrite (IH a b); auto; [|intros i Hi; apply (Hag (S i) Hi)].
    destruct p; [|reflexivity].
    specialize (Hag 0%nat eq_refl). cbn in Hag. now injection Hag as ->.
Qed.

(** X8. What [Decode] returns depends only on the shards marked present:
    whatever the slots marked missing hold (stale data, garbage, nil), the
    result is the same. *)
Theorem Decode_ignores_missing_slots (f : FEC) shards shards' present :
  length shards' = length shards ->
  (forall i, present !! i = Some true -> shards' !! i = shards !! i) ->
  Decode f shards' present = Decode f shards present.
Proof.
  intros Hlen Hag.
  assert (Hr : received shards shards' present) by (split; assumption).
  unfold Decode. unfold len. rewrite Hlen.
  destruct (negb _); [reflexivity|].
  destruct (Z.eqb_spec (Z.of_nat (length present)) (Z.of_nat (length shards)))
    as [Hpl|]; [|reflexivity]. cbn [negb].
  rewrite (first_shard_size_agree shards shards' present Hr).
  rewrite (inconsistent_agree _ shards shards' present Hr).
  rewrite (mark_missing_received shards shards' present Hr) by lia.
  reflexivity.
Qed.


Lemma presentCount_all ps :
  presentCount ps = len ps -> forall i, (i < length ps)%nat -> ps !! i = Some true.
Proof.
  unfold len. induction ps as [|p ps IH]; intros Hc i Hi; [cbn in Hi; lia|].
  rewrite presentCount_cons in Hc. pose proof (presentCount_range ps) as Hr.
  unfold len in Hr. cbn [length] in *.
  destruct p; [|lia].
  destruct i as [|i]; [reflexivity|]. cbn. apply IH; lia.
Qed.

(** X9. The two error values keep their meaning: [Decode] returns
    [ErrUnrecoverable] only when every shard was marked present, and
    [ErrIncomplete] only when at least one shard was marked missing. *)
Theorem Decode_error_kinds (f : FEC) shards present :
  0 <= parityShards f ->
  (Decode f shards present = Error ErrUnrecoverable ->
   len present = TotalShards f
   /\ forall i, (i < length present)%nat -> present !! i = Some true)
  /\ (Decode f shards present = Error ErrIncomplete ->
      len present = TotalShards f /\ presentCount present < TotalShards f).
Proof.
  intros HP. unfold Decode, TotalShards.
  destruct (Z.eqb_spec (len shards) (dataShards f + parityShards f))
    as [Hl|]; cbn [negb]; [|split; discriminate].
  destruct (Z.eqb_spec (len present) (len shards)) as [Hp|]; cbn [negb];
    [|split; discriminate].
  pose proof (presentCount_range present) as Hr.
  destruct (Z.ltb_spec (presentCount present) (dataShards f)).
  { split; [discriminate|]. intros _. lia. }
  destruct (first_shard_size shards present =? 0); [split; discriminate|].
  destruct (inconsistent _ shards present); [split; discriminate|].
  destruct (rsReconstruct _ _); [split; discriminate|].
  destruct (Z.eqb_spec (presentCount present)
              (dataShards f + parityShards f)) as [Hall|Hsome].
  - split; [|discriminate]. intros _. split; [lia|].
    apply presentCount_all. lia.
  - split; [discriminate|]. intros _. lia.
Qed.


Context {Laws : ReedSolomonLaws RS}.

(** The shard array [Encode] hands to the encoder, for a payload of any
    length. *)
Lemma split_any D P S (f : FEC) data :
  NewFEC D P S = Ok f -> data <> [] ->
  let sz := Z.max S ((len data + D - 1) / D) in
  split f data
  = ((fun i => Some (data_shard data sz i)) <$> seqZ 0 D)
    ++ replicate (Z.to_nat P) (Some (make sz))
  /\ len (split f data) = D + P /\ uniform sz (split f data)
  /\ 0 < sz /\ len data <= D * sz.
Proof.
  intros HN Hne sz.
  destruct (NewFEC_inv _ _ _ _ HN) as (HD & HP & HS & ED & EP & ES & Enew).
  assert (Hpos : 0 < len data).
  { unfold len. destruct data; [contradiction|cbn [length]; lia]. }
  pose proof (encode_shard_size_max f data ltac:(lia) ltac:(lia) Hpos) as Hm.
  cbv zeta in Hm. destruct Hm as (Esz & Hsz & Hcap).
  rewrite ED, ES in Esz. fold sz in Esz. rewrite Esz in Hsz, Hcap.
  rewrite ED in Hcap.
  pose proof (split_eq f data ltac:(lia) ltac:(lia)) as Esp.
  rewrite Esz, ED, EP in Esp.
  split; [exact Esp|]. rewrite Esp. split; [|split; [|split; [lia|lia]]].
  - unfold len.
    rewrite length_app, length_fmap, length_seqZ, length_replicate. lia.
  - apply Forall_app. split.
    + apply Forall_fmap, Forall_seqZ. intros i Hi. cbn.
      eexists. split; [reflexivity|]. apply len_data_shard; lia.
    + apply Forall_replicate. eexists. split; [reflexivity|].
      apply len_make. lia.
Qed.

Lemma Encode_any D P S (f : FEC) data shards :
  NewFEC D P S = Ok f -> data <> [] ->
  Encode f data = Ok shards ->
  let sz := Z.max S ((len data + D - 1) / D) in
  rsEncode (encoder f) (split f data) = Ok shards
  /\ len (split f data) = D + P
  /\ len shards = D + P /\ uniform sz shards
  /\ 0 < sz /\ len data <= D * sz
  /\ take (Z.to_nat D) shards
     = (fun i => Some (data_shard data sz i)) <$> seqZ 0 D.
Proof.
  intros HN Hne HE sz.
  destruct (NewFEC_inv _ _ _ _ HN) as (HD & HP & HS & ED & EP & ES & Enew).
  destruct (split_any D P S f data HN Hne) as (Esp & Hlen & Hu & Hsz & Hcap).
  fold sz in Esp, Hu, Hsz, Hcap.
  pose proof (Encode_Ok f data shards HE) as Eenc.
  destruct (rsEncode_ok D P (encoder f) (split f data) sz shards
              Enew Hlen Hsz Hu Eenc) as (Etake & Hlo & Huo).
  repeat split; auto.
  rewrite Etake, Esp. apply take_app_length'.
  rewrite length_fmap, length_seqZ. reflexivity.
Qed.

Lemma Encode_any_accepted D P S (f : FEC) data :
  NewFEC D P S = Ok f -> data <> [] ->
  D + P <= 256 \/ Z.max S ((len data + D - 1) / D) mod 64 = 0 ->
  exists shards, Encode f data = Ok shards.
Proof.
  intros HN Hne Hrule.
  destruct (NewFEC_inv _ _ _ _ HN) as (HD & HP & HS & ED & EP & ES & Enew).
  destruct (split_any D P S f data HN Hne) as (Esp & Hlen & Hu & Hsz & Hcap).
  destruct (rsEncode_accepts D P (encoder f) (split f data) _
              Enew Hlen Hsz Hu Hrule) as (out & Eenc).
  exists out. unfold Encode.
  destruct (Z.eqb_spec (len data) 0) as [E0|_]; [|now rewrite Eenc].
  unfold len in E0. destruct data; [contradiction|cbn [length] in E0; lia].
Qed.

End FECMore.

Section FECMoreClaims.
Import FEC.

Lemma Decode_ignores_missing_slots_witness :
  @Decode XorCode.xor_code XorCode.fec212
    [Some [XorCode.B]; Some [XorCode.C; XorCode.zero];
     Some [XorCode.bxor XorCode.A XorCode.C; XorCode.B]]
    [false; true; true]
  = @Decode XorCode.xor_code XorCode.fec212
      [None; Some [XorCode.C; XorCode.zero];
       Some [XorCode.bxor XorCode.A XorCode.C; XorCode.B]]
      [false; true; true].
Proof.
  apply (@Decode_ignores_missing_slots XorCode.xor_code XorCode.fec212).
  - reflexivity.
  - intros [|[|[|i]]] Hi; try reflexivity; discriminate Hi.
Defined.

Lemma Decode_error_kinds_witness :
  len [false; false; true] = @TotalShards XorCode.xor_code XorCode.fec212
  /\ presentCount [false; false; true]
     < @TotalShards XorCode.xor_code XorCode.fec212.
Proof.
  assert (HP : 0 <= @parityShards XorCode.xor_code XorCode.fec212)
    by (vm_compute; discriminate).
  apply (proj2 (@Decode_error_kinds XorCode.xor_code XorCode.fec212
                  [None; None; Some [XorCode.A; XorCode.B]]
                  [false; false; true] HP)).
  reflexivity.
Defined.

(** X6. [Encode] takes a payload of any length: for a non-empty payload
    the shard size is the larger of the configured shard size and the payload
    length divided by [D], rounded up, so the [D] data shards have room for
    the whole payload.  Whenever [Encode] returns shards it returns
    [TotalShards] of them, all of that size; it does return shards when
    [D + P <= 256] or that size is a multiple of 64, and otherwise its only
    other outcome is the error of the encoder. *)
Theorem Encode_any_payload (RS : ReedSolomon) (Laws : ReedSolomonLaws RS)
    D P S (f : FEC) data :
  NewFEC D P S = Ok f -> data <> [] ->
  let sz := Z.max S ((len data + D - 1) / D) in
  len data <= D * sz /\ TotalShards f = D + P
  /\ (forall shards, Encode f data = Ok shards ->
                     len shards = TotalShards f /\ uniform sz shards)
  /\ (D + P <= 256 \/ sz mod 64 = 0 -> exists shards, Encode f data = Ok shards)
  /\ (forall e, Encode f data = Error e -> exists e', e = ErrLibrary e').
Proof.
  intros HN Hne sz.
  destruct (NewFEC_inv _ _ _ _ HN) as (_ & _ & _ & ED & EP & _).
  destruct (split_any D P S f data HN Hne) as (_ & _ & _ & _ & Hcap).
  assert (ET : TotalShards f = D + P) by (unfold TotalShards; now rewrite ED, EP).
  split; [exact Hcap|]. split; [exact ET|]. split; [|split].
  - intros shards HE.
    destruct (Encode_any D P S f data shards HN Hne HE)
      as (_ & _ & Hl & Hu & _).
    rewrite ET. auto.
  - intros Hrule. now apply (Encode_any_accepted D P S f data).
  - intros e. unfold Encode.
    destruct (Z.eqb_spec (len data) 0) as [E0|_].
    + unfold len in E0. destruct data; [contradiction|cbn [length] in E0; lia].
    + destruct (rsEncode (encoder f) (split f data)); [discriminate|].
      intros [= <-]. eauto.
Qed.

Lemma Encode_any_payload_witness :
  exists shards,
    @Encode XorCode.xor_code XorCode.fec212
      [XorCode.A; XorCode.B; XorCode.C; XorCode.A; XorCode.B] = Ok shards.
Proof.
  destruct (Encode_any_payload XorCode.xor_code xor_code_laws 2 1 2
              XorCode.fec212
              [XorCode.A; XorCode.B; XorCode.C; XorCode.A; XorCode.B]
              eq_refl ltac:(discriminate))
    as (_ & _ & _ & Hacc & _).
  apply Hacc. left. lia.
Defined.

(** X7. No payload byte is lost, whatever the payload length: if [Encode]
    produced the shards of a non-empty payload and at most [P] of them are
    lost, [Decode] returns the payload followed by zeros, [D] times the shard
    size of the block in all. *)
Theorem Decode_Encode_any (RS : ReedSolomon) (Laws : ReedSolomonLaws RS)
    D P S (f : FEC) data shards got present :
  NewFEC D P S = Ok f -> Encode f data = Ok shards ->
  received shards got present -> len present = D + P ->
  len present - presentCount present <= P ->
  let sz := Z.max S ((len data + D - 1) / D) in
  Decode f got present = Ok (data ++ make (D * sz - len data)).
Proof.
  intros HN HE Hrecv Hpl Hlost sz.
  destruct (NewFEC_inv _ _ _ _ HN) as (HD & HP & HS & ED & EP & ES & Enew).
  assert (Hne : data <> []).
  { intros ->. unfold Encode in HE. cbn in HE. discriminate. }
  destruct (Encode_any D P S f data shards HN Hne HE)
    as (Ers & Hsl & Hl & Hu & Hsz & Hcap & Htake).
  fold sz in Hu, Hsz, Hcap, Htake.
  pose proof Hrecv as [Hgl Hag].
  assert (Hpl' : length present = length shards) by (unfold len in *; lia).
  unfold Decode. rewrite ED, EP.
  destruct (Z.eqb_spec (len got) (D + P)) as [_|Hbad];
    [|unfold len in *; lia]. cbn [negb].
  destruct (Z.eqb_spec (len present) (len got)) as [_|Hbad];
    [|unfold len in *; lia]. cbn [negb].
  destruct (Z.ltb_spec (presentCount present) D); [lia|].
  rewrite (first_shard_size_received sz shards got present) by (auto; lia).
  destruct (Z.eqb_spec sz 0); [lia|].
  rewrite (inconsistent_received sz shards got present) by auto.
  rewrite (mark_missing_received shards got present) by auto.
  rewrite (rsReconstruct_ok D P (encoder f) (split f data) shards present)
    by (auto; lia).
  f_equal. rewrite join_eq, Htake, <- list_fmap_compose.
  rewrite (list_fmap_ext _ (data_shard data sz) (seqZ 0 D))
    by (intros; reflexivity).
  rewrite <- (Z2Nat.id D) at 1 by lia.
  rewrite concat_data_shards by (unfold len in *; nia).
  unfold make. f_equal. f_equal. unfold len in *. nia.
Qed.

Lemma Decode_Encode_any_witness :
  @Decode XorCode.xor_code XorCode.fec212
    [Some [XorCode.A; XorCode.B; XorCode.C]; None;
     Some [XorCode.zero; XorCode.zero; XorCode.C]]
    [true; false; true]
  = Ok ([XorCode.A; XorCode.B; XorCode.C; XorCode.A; XorCode.B]
        ++ make (2 * Z.max 2 ((5 + 2 - 1) / 2) - 5)).
Proof.
  apply (Decode_Encode_any XorCode.xor_code xor_code_laws 2 1 2 XorCode.fec212
           [XorCode.A; XorCode.B; XorCode.C; XorCode.A; XorCode.B]
           [Some [XorCode.A; XorCode.B; XorCode.C];
            Some [XorCode.A; XorCode.B; XorCode.zero];
            Some [XorCode.zero; XorCode.zero; XorCode.C]]).
  - reflexivity.
  - reflexivity.
  - split; [reflexivity|].
    intros [|[|[|i]]] Hi; try reflexivity; discriminate Hi.
  - reflexivity.
  - vm_compute. discriminate.
Defined.

End FECMoreClaims.

(** ** The firewall manager: what a session does to the firewall *)

Ltac traced_step iptables w args :=
  let err := fresh "err" in
  let w1 := fresh "w" in
  let E := fresh "E" in
  destruct (iptables w args) as [err w1] eqn:E;
  cbn [fst snd].

Section IPTablesMore.
Import IPTables.
Context {World : Type}.
Variable iptables : World -> list string -> option (string * string) * World.

Lemma logged_eq w log args :
  logged iptables (w, log) args
  = ((iptables w args).1,
     ((iptables w args).2, log ++ [(args, (iptables w args).1)])).
Proof. unfold logged. destruct (iptables w args); reflexivity. Qed.

Lemma appended_app l1 l2 : appended (l1 ++ l2) = appended l1 ++ appended l2.
Proof. apply omap_app. Qed.

Lemma appended_check rule r : appended [(command "-C" rule, r)] = [].
Proof. destruct r; reflexivity. Qed.

Lemma appended_added rule :
  appended [(command "-A" rule, None)] = [command "-A" rule].
Proof. reflexivity. Qed.

Lemma appended_refused rule e : appended [(command "-A" rule, Some e)] = [].
Proof. reflexivity. Qed.

Lemma check_is_check_or_append rule r : check_or_append (command "-C" rule, r).
Proof. exists rule. now left. Qed.

Lemma append_is_check_or_append rule r : check_or_append (command "-A" rule, r).
Proof. exists rule. now right. Qed.

Hint Resolve check_is_check_or_append append_is_check_or_append : core.

(** One rule, checked and then appended: the three installers share this
    step and differ in the message of a failure. *)
Lemma add_rules_traced todo : forall m w log,
  exists more,
    add_rules (logged iptables) m (w, log) todo
    = ((add_rules iptables m w todo).1, ((add_rules iptables m w todo).2, log ++ more))
    /\ Forall check_or_append more
    /\ command "-A" <$> rules (add_rules iptables m w todo).1.2
       = (command "-A" <$> rules m) ++ appended more.
Proof.
  induction todo as [|rule todo IH]; intros m w log.
  - exists []. cbn. rewrite !app_nil_r. auto.
  - cbn [add_rules]. unfold ruleExists. rewrite logged_eq.
    traced_step iptables w (command "-C" rule).
    destruct err as [e|].
    + rewrite !bool_decide_eq_false_2 by discriminate. rewrite logged_eq.
      traced_step iptables w0 (command "-A" rule).
      destruct err as [[e' output]|].
      * exists [(command "-C" rule, Some e); (command "-A" rule, Some (e', output))].
        cbn [fst snd]. rewrite <- app_assoc. cbn [app].
        split; [reflexivity|]. split; [repeat constructor; auto|].
        cbn. now rewrite app_nil_r.
      * destruct (IH {| rules := rules m ++ [rule] |} w1
                    ((log ++ [(command "-C" rule, Some e)])
                       ++ [(command "-A" rule, None)]))
          as (more & H1 & H2 & H3).
        exists ((command "-C" rule, Some e) :: (command "-A" rule, None) :: more).
        unfold journal in *. rewrite H1, <- !app_assoc. cbn [app].
        split; [reflexivity|]. split; [repeat constructor; auto|].
        rewrite H3. cbn [rules]. rewrite fmap_app, <- app_assoc. reflexivity.
    + rewrite !bool_decide_eq_true_2 by reflexivity.
      destruct (IH m w0 (log ++ [(command "-C" rule, None)]))
        as (more & H1 & H2 & H3).
      exists ((command "-C" rule, None) :: more).
      unfold journal in *. rewrite H1, <- !app_assoc. cbn [app].
      split; [reflexivity|]. split; [constructor; auto|].
      rewrite H3. reflexivity.
Qed.

Lemma AddRuleForPort_traced m w log port isServer :
  exists more,
    AddRuleForPort (logged iptables) m (w, log) port isServer
    = ((AddRuleForPort iptables m w port isServer).1,
       ((AddRuleForPort iptables m w port isServer).2, log ++ more))
    /\ Forall check_or_append more
    /\ command "-A" <$> rules (AddRuleForPort iptables m w port isServer).1.2
       = (command "-A" <$> rules m) ++ appended more.
Proof.
  unfold AddRuleForPort, ruleExists. cbv zeta.
  set (rule := port_rule port isServer). rewrite logged_eq.
  traced_step iptables w (command "-C" rule).
  destruct err as [e|].
  - rewrite !bool_decide_eq_false_2 by discriminate. rewrite logged_eq.
    traced_step iptables w0 (command "-A" rule).
    destruct err as [[e' output]|].
    + exists [(command "-C" rule, Some e); (command "-A" rule, Some (e', output))].
      cbn [fst snd]. rewrite <- app_assoc. cbn [app].
      split; [reflexivity|]. split; [repeat constructor; auto|].
      cbn. now rewrite app_nil_r.
    + exists [(command "-C" rule, Some e); (command "-A" rule, None)].
      cbn [fst snd]. rewrite <- app_assoc. cbn [app].
      split; [reflexivity|]. split; [repeat constructor; auto|].
      cbn [rules]. rewrite fmap_app. reflexivity.
  - rewrite !bool_decide_eq_true_2 by reflexivity.
    exists [(command "-C" rule, None)]. cbn [fst snd].
    split; [reflexivity|]. split; [repeat constructor; auto|].
    cbn. now rewrite app_nil_r.
Qed.

Lemma AddCustomRule_traced m w log rule :
  exists more,
    AddCustomRule (logged iptables) m (w, log) rule
    = ((AddCustomRule iptables m w rule).1,
       ((AddCustomRule iptables m w rule).2, log ++ more))
    /\ Forall check_or_append more
    /\ command "-A" <$> rules (AddCustomRule iptables m w rule).1.2
       = (command "-A" <$> rules m) ++ appended more.
Proof.
  unfold AddCustomRule, ruleExists. rewrite logged_eq.
  traced_step iptables w (command "-C" rule).
  destruct err as [e|].
  - rewrite !bool_decide_eq_false_2 by discriminate. rewrite logged_eq.
    traced_step iptables w0 (command "-A" rule).
    destruct err as [[e' output]|].
    + exists [(command "-C" rule, Some e); (command "-A" rule, Some (e', output))].
      cbn [fst snd]. rewrite <- app_assoc. cbn [app].
      split; [reflexivity|]. split; [repeat constructor; auto|].
      cbn. now rewrite app_nil_r.
    + exists [(command "-C" rule, Some e); (command "-A" rule, None)].
      cbn [fst snd]. rewrite <- app_assoc. cbn [app].
      split; [reflexivity|]. split; [repeat constructor; auto|].
      cbn [rules]. rewrite fmap_app. reflexivity.
  - rewrite !bool_decide_eq_true_2 by reflexivity.
    exists [(command "-C" rule, None)]. cbn [fst snd].
    split; [reflexivity|]. split; [repeat constructor; auto|].
    cbn. now rewrite app_nil_r.
Qed.

Lemma run_install_traced i m w log :
  exists more,
    run_install (logged iptables) m (w, log) i
    = ((run_install iptables m w i).1,
       ((run_install iptables m w i).2, log ++ more))
    /\ Forall check_or_append more
    /\ command "-A" <$> rules (run_install iptables m w i).1.2
       = (command "-A" <$> rules m) ++ appended more.
Proof.
  destruct i as [[port isServer|lip lport rip rport isServer]|rule];
    cbn [run_install run_call].
  - apply AddRuleForPort_traced.
  - apply add_rules_traced.
  - apply AddCustomRule_traced.
Qed.

Lemma run_installs_traced todo : forall m w log,
  exists more,
    run_installs (logged iptables) m (w, log) todo
    = ((run_installs iptables m w todo).1,
       ((run_installs iptables m w todo).2, log ++ more))
    /\ Forall check_or_append more
    /\ command "-A" <$> rules (run_installs iptables m w todo).1
       = (command "-A" <$> rules m) ++ appended more.
Proof.
  induction todo as [|i todo IH]; intros m w log.
  - exists []. cbn. rewrite !app_nil_r. auto.
  - cbn [run_installs].
    destruct (run_install_traced i m w log) as (more1 & H1 & H2 & H3).
    unfold journal in *. rewrite H1.
    destruct (run_install iptables m w i) as [[err m1] w1]. cbn [fst snd] in *.
    destruct (IH m1 w1 (log ++ more1)) as (more2 & G1 & G2 & G3).
    exists (more1 ++ more2). rewrite G1, <- app_assoc.
    split; [reflexivity|]. split; [now apply Forall_app|].
    rewrite G3, H3, appended_app, <- app_assoc. reflexivity.
Qed.

(** X10. Whatever the firewall answers, a sequence of installs
    ([AddRuleForPort], [AddRuleForConnection], [AddCustomRule]) on a fresh
    manager only ever runs [-C] and [-A] commands, and at its end
    [GetRules] lists exactly the rules whose [-A] command succeeded, in the
    order of the commands.  Keeping the journal changes neither the manager
    nor the firewall. *)
Theorem installs_match_journal (todo : list install) (w : World) :
  let plain := run_installs iptables NewIPTablesManager w todo in
  let traced := run_installs (logged iptables) NewIPTablesManager (w, []) todo in
  traced.1 = plain.1 /\ traced.2.1 = plain.2
  /\ Forall check_or_append traced.2.2
  /\ command "-A" <$> GetRules plain.1 = appended traced.2.2.
Proof.
  intros plain traced. subst plain traced.
  destruct (run_installs_traced todo NewIPTablesManager w [])
    as (more & H1 & H2 & H3).
  unfold journal in *. rewrite H1. cbn [fst snd app].
  unfold GetRules. rewrite copy_same_length by apply length_replicate.
  repeat split; auto.
Qed.

(** X11. One install either leaves the manager as it was or appends one
    rule to its list; when it returns an error the manager is as it was. *)
Theorem install_appends_or_keeps (i : install) (m : IPTablesManager) (w : World) :
  let r := run_install iptables m w i in
  (r.1.1 <> None -> r.1.2 = m)
  /\ (r.1.2 = m \/ exists rule, r.1.1 = None /\ rules r.1.2 = rules m ++ [rule]).
Proof.
  cbv zeta.
  destruct i as [[port isServer|lip lport rip rport isServer]|rule];
    cbn [run_install run_call].
  - unfold AddRuleForPort, ruleExists. cbv zeta.
    traced_step iptables w (command "-C" (port_rule port isServer)).
    destruct err as [e|].
    + rewrite bool_decide_eq_false_2 by discriminate.
      traced_step iptables w0 (command "-A" (port_rule port isServer)).
      destruct err as [[e' output]|]; cbn [fst snd]; split; auto.
      * intros H. now destruct H.
      * right. eauto.
    + cbn. split; auto.
  - unfold AddRuleForConnection.
    assert (Hone : exists rule,
               connection_rules lip lport rip rport isServer = [rule])
      by (unfold connection_rules; destruct isServer; eauto).
    destruct Hone as [rule ->]. cbn [add_rules]. unfold ruleExists.
    traced_step iptables w (command "-C" rule).
    destruct err as [e|].
    + rewrite bool_decide_eq_false_2 by discriminate.
      traced_step iptables w0 (command "-A" rule).
      destruct err as [[e' output]|]; cbn [fst snd]; split; auto.
      * intros H. now destruct H.
      * right. eauto.
    + cbn. split; auto.
  - unfold AddCustomRule, ruleExists.
    traced_step iptables w (command "-C" rule).
    destruct err as [e|].
    + rewrite bool_decide_eq_false_2 by discriminate.
      traced_step iptables w0 (command "-A" rule).
      destruct err as [[e' output]|]; cbn [fst snd]; split; auto.
      * intros H. now destruct H.
      * right. eauto.
    + cbn. split; auto.
Qed.

(** X12. [RemoveAllRules] forgets every rule, so calling it again runs no
    command: the second call returns no error and leaves manager and
    firewall as the first call left them.  The same holds on a fresh
    manager. *)
Theorem RemoveAllRules_again (m : IPTablesManager) (w : World) :
  let first := RemoveAllRules iptables m w in
  RemoveAllRules iptables first.1.2 first.2 = (None, first.1.2, first.2)
  /\ RemoveAllRules (logged iptables) first.1.2 (first.2, [])
     = (None, first.1.2, (first.2, []))
  /\ RemoveAllRules iptables NewIPTablesManager w = (None, NewIPTablesManager, w).
Proof.
  cbv zeta.
  set (first := RemoveAllRules iptables m w).
  assert (Em : first.1.2 = {| rules := [] |}).
  { subst first. unfold RemoveAllRules.
    destruct (remove_rules iptables [] w (rules m)) as [errors w'].
    destruct (0 <? Z.of_nat (length errors)); reflexivity. }
  rewrite Em. repeat split.
Qed.

End IPTablesMore.

Section IPTablesSession.
Import IPTables.

Lemma AddRuleForPort_add_rules {World : Type}
    (iptables : World -> list string -> option (string * string) * World)
    m w port isServer :
  AddRuleForPort iptables m w port isServer
  = add_rules iptables m w [port_rule port isServer].
Proof.
  unfold AddRuleForPort. cbn [add_rules]. cbv zeta.
  destruct (ruleExists iptables w (port_rule port isServer)) as [[|] w1];
    [reflexivity|].
  destruct (iptables w1 (command "-A" (port_rule port isServer)))
    as [[[e output]|] w2]; reflexivity.
Qed.

Lemma AddCustomRule_add_rules {World : Type}
    (iptables : World -> list string -> option (string * string) * World)
    m w rule :
  (AddCustomRule iptables m w rule).1.2 = (add_rules iptables m w [rule]).1.2
  /\ (AddCustomRule iptables m w rule).2 = (add_rules iptables m w [rule]).2.
Proof.
  unfold AddCustomRule. cbn [add_rules].
  destruct (ruleExists iptables w rule) as [[|] w1]; [split; reflexivity|].
  destruct (iptables w1 (command "-A" rule)) as [[[e output]|] w2];
    split; reflexivity.
Qed.

Lemma delete_first_app (rule : list string) T rest :
  rule ∉ T -> delete_first rule (T ++ rule :: rest) = T ++ rest.
Proof.
  induction T as [|r T IH]; intros Hn; cbn [app delete_first].
  - now rewrite bool_decide_eq_true_2.
  - rewrite bool_decide_eq_false_2, IH; [reflexivity| |];
      intros H; apply Hn; [now right | subst; now left].
Qed.

Lemma table_check T rule :
  table_iptables T (command "-C" rule)
  = (if bool_decide (Split " " rule ∈ T) then None else Some no_match, T).
Proof. reflexivity. Qed.

Lemma table_append T rule :
  table_iptables T (command "-A" rule) = (None, T ++ [Split " " rule]).
Proof. reflexivity. Qed.

Lemma table_delete T rule :
  table_iptables T (command "-D" rule)
  = if bool_decide (Split " " rule ∈ T)
    then (None, delete_first (Split " " rule) T)
    else (Some no_match, T).
Proof. reflexivity. Qed.

(** Against the table, the table is what it was at the start followed by
    the rules the manager lists, none of which the table held before. *)
Lemma add_rules_table T todo : forall m Tc,
  Tc = T ++ (Split " " <$> rules m) ->
  Forall (fun r => Split " " r ∉ T) (rules m) ->
  let r := add_rules table_iptables m Tc todo in
  r.2 = T ++ (Split " " <$> rules r.1.2)
  /\ Forall (fun r => Split " " r ∉ T) (rules r.1.2).
Proof.
  induction todo as [|rule todo IH]; intros m Tc HT Hnew; cbv zeta.
  - cbn. auto.
  - cbn [add_rules]. unfold ruleExists. rewrite table_check.
    destruct (bool_decide (Split " " rule ∈ Tc)) eqn:Hin; cbn [fst snd].
    + rewrite bool_decide_eq_true_2 by reflexivity. now apply IH.
    + rewrite bool_decide_eq_false_2 by discriminate.
      rewrite table_append. apply IH.
      * cbn [rules]. rewrite fmap_app, app_assoc, <- HT. reflexivity.
      * cbn [rules]. apply Forall_app. split; [exact Hnew|].
        constructor; [|constructor].
        apply bool_decide_eq_false in Hin. intros H. apply Hin.
        rewrite HT. apply elem_of_app. now left.
Qed.

Lemma run_install_table T i m Tc :
  Tc = T ++ (Split " " <$> rules m) ->
  Forall (fun r => Split " " r ∉ T) (rules m) ->
  let r := run_install table_iptables m Tc i in
  r.2 = T ++ (Split " " <$> rules r.1.2)
  /\ Forall (fun r => Split " " r ∉ T) (rules r.1.2).
Proof.
  intros HT Hnew.
  destruct i as [[port isServer|lip lport rip rport isServer]|rule];
    cbn [run_install run_call].
  - rewrite AddRuleForPort_add_rules. now apply add_rules_table.
  - now apply add_rules_table.
  - cbv zeta.
    destruct (AddCustomRule_add_rules table_iptables m Tc rule) as [-> ->].
    now apply add_rules_table.
Qed.

Lemma run_installs_table T todo : forall m Tc,
  Tc = T ++ (Split " " <$> rules m) ->
  Forall (fun r => Split " " r ∉ T) (rules m) ->
  let r := run_installs table_iptables m Tc todo in
  r.2 = T ++ (Split " " <$> rules r.1)
  /\ Forall (fun r => Split " " r ∉ T) (rules r.1).
Proof.
  induction todo as [|i todo IH]; intros m Tc HT Hnew; cbv zeta.
  - cbn. auto.
  - cbn [run_installs].
    pose proof (run_install_table T i m Tc HT Hnew) as H. cbv zeta in H.
    destruct (run_install table_iptables m Tc i) as [[err m1] T1].
    cbn [fst snd] in H. destruct H. now apply IH.
Qed.

Lemma remove_rules_table T todo : forall errors,
  Forall (fun r => Split " " r ∉ T) todo ->
  remove_rules table_iptables errors (T ++ (Split " " <$> todo)) todo
  = (errors, T).
Proof.
  induction todo as [|rule todo IH]; intros errors Hnew.
  - cbn. now rewrite app_nil_r.
  - inversion Hnew as [|? ? Hr Hrest]; subst.
    cbn [remove_rules fmap list_fmap]. rewrite table_delete.
    rewrite bool_decide_eq_true_2
      by (apply elem_of_app; right; now left).
    rewrite delete_first_app by exact Hr. now apply IH.
Qed.

(** X13. A session leaves the firewall as it found it.  Against a firewall
    that behaves as a list of rules ([-A] appends, [-C] looks up, [-D]
    deletes the first copy), any sequence of installs on a fresh manager
    followed by [RemoveAllRules] returns no error and restores the table
    the session started with, whatever that table held: rules that were
    already present are neither added again nor deleted. *)
Theorem session_restores_table (T : list (list string)) (todo : list install) :
  let installed := run_installs table_iptables NewIPTablesManager T todo in
  installed.2 = T ++ (Split " " <$> rules installed.1)
  /\ RemoveAllRules table_iptables installed.1 installed.2
     = (None, {| rules := [] |}, T).
Proof.
  cbv zeta.
  destruct (run_installs_table T todo NewIPTablesManager T) as [HT Hnew].
  { cbn. now rewrite app_nil_r. }
  { constructor. }
  split; [exact HT|].
  unfold RemoveAllRules. rewrite HT at 1.
  rewrite remove_rules_table by exact Hnew. reflexivity.
Qed.

(** A word without a space is one word, also in front of a space. *)
Lemma Split_word s t :
  Split " " s = [s] -> Split " " (s +:+ String " " t) = s :: Split " " t.
Proof.
  induction s as [|c s IH]; intros H.
  - reflexivity.
  - change (String c s +:+ String " " t) with (String c (s +:+ String " " t)).
    cbn [Split] in *.
    destruct (Ascii.eqb c " ") eqn:Ec; [discriminate H|].
    destruct (Split " " s) as [|w ws] eqn:Es.
    + injection H as H. subst s. discriminate Es.
    + injection H as H1 H2. subst w ws. rewrite IH by reflexivity.
      reflexivity.
Qed.

Lemma pretty_N_go_word x : forall s,
  Split " " s = [s] -> Split " " (pretty_N_go x s) = [pretty_N_go x s].
Proof.
  induction (N.lt_wf_0 x) as [x _ IH]; intros s Hs.
  destruct (N.eq_dec x 0%N) as [->|Hx]; [exact Hs|].
  rewrite pretty_N_go_step by lia.
  apply IH; [apply N.div_lt; lia|].
  cbn [Split].
  assert (Hd : Ascii.eqb (pretty_N_char (x `mod` 10)%N) " " = false)
    by (unfold pretty_N_char; repeat case_match; reflexivity).
  now rewrite Hd, Hs.
Qed.

Lemma decimal_word port : Split " " (decimal port) = [decimal port].
Proof.
  unfold decimal, pretty, pretty_N.
  destruct (decide (Z.to_N (port mod 65536) = 0%N)); [reflexivity|].
  now apply pretty_N_go_word.
Qed.

(** X14. The command [AddRuleForPort] runs for a port is, word for word,
    [-A OUTPUT -p tcp --tcp-flags RST RST --sport <port> -j DROP], for both
    roles; the line [GenerateRule] prints is [iptables] followed by these
    words. *)
Theorem port_rule_words (port : Z) (isServer : bool) :
  command "-A" (port_rule port isServer)
  = ["-A"; "OUTPUT"; "-p"; "tcp"; "--tcp-flags"; "RST"; "RST"; "--sport";
     decimal port; "-j"; "DROP"]
  /\ Split " " (GenerateRule port isServer)
     = "iptables" :: command "-A" (port_rule port isServer).
Proof.
  assert (E : Split " " (decimal port +:+ " -j DROP")
              = [decimal port; "-j"; "DROP"])
    by (rewrite Split_word by apply decimal_word; reflexivity).
  unfold command, GenerateRule, port_rule.
  remember (decimal port +:+ " -j DROP") as tail eqn:Ht.
  destruct isServer; simpl; change ("" +:+ tail) with tail; rewrite E; auto.
Qed.

End IPTablesSession.

Section IPTablesClear.
Import IPTables.
Context {World : Type}.
Variable iptables : World -> list string -> option (string * string) * World.

(** X15. [ClearAllRules] always runs two [-D] commands, the second also
    when the first fails: one for the [--sport] rule of the port, which is
    the rule [AddRuleForPort] installs, and one for the [--dport] rule.  It
    returns no error exactly when every command either succeeded or printed
    output containing [No chain/target/match]. *)
Theorem ClearAllRules_tries_both (w : World) (port : Z) :
  let plain := ClearAllRules iptables w port in
  let traced := ClearAllRules (logged iptables) (w, []) port in
  traced.1 = plain.1 /\ traced.2.1 = plain.2
  /\ traced.2.2.*1 = (command "-D" <$> stale_rules port)
  /\ (forall isServer, head (stale_rules port) = Some (port_rule port isServer))
  /\ (plain.1 = None
      <-> Forall (fun r => match r with
                           | None => True
                           | Some (_, output) =>
                               Contains output "No chain/target/match" = true
                           end) traced.2.2.*2).
Proof.
  cbv zeta. unfold ClearAllRules, stale_rules. cbn [clear_rules].
  rewrite logged_eq.
  match goal with |- context [iptables w ?a] =>
    destruct (iptables w a) as [r1 w1] end.
  cbn [fst snd].
  destruct r1 as [[e1 o1]|];
    [destruct (Contains o1 "No chain/target/match") eqn:C1|];
    cbn [negb app]; rewrite logged_eq;
    match goal with |- context [iptables w1 ?a] =>
      destruct (iptables w1 a) as [r2 w2] end;
    cbn [fst snd];
    (destruct r2 as [[e2 o2]|];
     [destruct (Contains o2 "No chain/target/match") eqn:C2|]);
    cbn;
    repeat match goal with
           | |- context [0 <? Z.of_nat ?n] =>
               let b := eval vm_compute in (0 <? Z.of_nat n) in
               change (0 <? Z.of_nat n) with b
           end;
    cbn;
    (split; [reflexivity|]; split; [reflexivity|]; split; [reflexivity|];
     split; [intros []; reflexivity|]);
    rewrite ?Forall_cons, ?Forall_nil; intuition congruence.
Qed.

End IPTablesClear.

(** ** Path MTU discovery on an arbitrary network *)

Section MTUMore.
Import MTU.
Context {World : Type}.
Variable SplitHostPort : string -> option string.
Variable LookupIP : World -> string -> option (list string) * World.
Variable dial : World -> string -> bool * World.

(** With enough attempts left to halve the range down to nothing, the loop
    ends on [Z.max 576 hf], where [hf] is the upper end it closed on.  A
    probe of a size up to 1200 never fails, so [hf] stays above 1200 when
    it started there; and [hf] is the initial upper end when every
    connection succeeds. *)
Lemma search_ends remaining : forall w ip low high optimal,
  576 <= low -> low <= high + 1 ->
  high - low + 1 < 2 ^ Z.of_nat remaining ->
  optimal = Z.max 576 (low - 1) ->
  exists hf,
    (search dial remaining w ip low high optimal).1.1 = Z.max 576 hf
    /\ low - 1 <= hf <= high
    /\ (1200 <= high -> 1200 <= hf)
    /\ ((forall w ip, (dial w ip).1 = true) -> hf = high)
    /\ ((forall w ip, (dial w ip).1 = false) -> low <= 1201 ->
        hf = Z.min high 1200).
Proof.
  induction remaining as [|n IH]; intros w ip low high optimal Hlow Hlh Hsize Hopt.
  - cbn in *. exists high. repeat split; try lia.
  - cbn [search].
    destruct (Z.leb_spec low high) as [Hle|Hgt].
    2:{ cbn. exists high. repeat split; try lia. }
    set (mtu := Z.quot (low + high) 2).
    assert (Hmid : low <= mtu <= high /\ 2 * mtu <= low + high < 2 * mtu + 2).
    { unfold mtu. rewrite Z.quot_div_nonneg by lia.
      pose proof (Z.div_mod (low + high) 2 ltac:(lia)).
      pose proof (Z.mod_pos_bound (low + high) 2 ltac:(lia)). lia. }
    assert (Hpow : 2 ^ Z.of_nat (S n) = 2 * 2 ^ Z.of_nat n).
    { rewrite Nat2Z.inj_succ, Z.pow_succ_r by lia. reflexivity. }
    unfold testMTU.
    destruct (dial w ip) as [connected w1] eqn:Ed.
    assert (Hd : (dial w ip).1 = connected) by now rewrite Ed.
    destruct connected; [|destruct (Z.leb_spec mtu 1200) as [Hs|Hl]].
    + destruct (IH w1 ip (mtu + 1) high mtu) as (hf & E & Hb & H12 & Hup & Hdown);
        try lia.
      destruct (search dial n w1 ip (mtu + 1) high mtu) as [[opt probed] w2].
      cbn [fst snd] in *. exists hf.
      split; [exact E|]. split; [lia|]. split; [exact H12|].
      split; [exact Hup|].
      intros Hall. specialize (Hall w ip). congruence.
    + destruct (IH w1 ip (mtu + 1) high mtu) as (hf & E & Hb & H12 & Hup & Hdown);
        try lia.
      destruct (search dial n w1 ip (mtu + 1) high mtu) as [[opt probed] w2].
      cbn [fst snd] in *. exists hf.
      split; [exact E|]. split; [lia|]. split; [exact H12|].
      split; [exact Hup|].
      intros Hall Hl. apply Hdown; [exact Hall | lia].
    + destruct (IH w1 ip low (mtu - 1) optimal) as (hf & E & Hb & H12 & Hup & Hdown);
        try lia.
      destruct (search dial n w1 ip low (mtu - 1) optimal) as [[opt probed] w2].
      cbn [fst snd] in *. exists hf.
      split; [exact E|]. split; [lia|]. split; [lia|]. split.
      * intros Hall. specialize (Hall w ip). congruence.
      * intros Hall Hl'. rewrite Hdown by auto. lia.
Qed.

Lemma budget_values optimal :
  (1200 <= optimal <= 1500 -> 1131 <= budget optimal <= 1371)
  /\ budget 1500 = 1371 /\ budget 1200 = 1131.
Proof.
  split; [|split; reflexivity].
  intros H. unfold budget, ipHeaderSize, tcpHeaderSize, packetTypeOverhead,
    encryptionOverhead. cbv zeta.
  destruct (Z.ltb_spec (optimal - 20 - 20 - 1 - 28) 500); [lia|].
  destruct (Z.ltb_spec 1371 (optimal - 20 - 20 - 1 - 28)); lia.
Qed.

(** X16. On every network, whatever the connection attempts answer,
    a discovery that returns no error returns a value between 1131 and
    1371: a probe of a size up to 1200 never counts as failed, so the loop
    never ends below 1200.  When every connection succeeds the value is
    1371, when every connection fails it is 1131. *)
Theorem DiscoverOptimalMTU_range (remote : string) (initial : Z) (w : World) :
  let r := DiscoverOptimalMTU SplitHostPort LookupIP dial
             (NewMTUDiscovery remote initial) w in
  let result := r.1.1.1 in
  let err := r.1.1.2 in
  (err = None -> 1131 <= result <= 1371)
  /\ ((forall w ip, (dial w ip).1 = true) -> err = None -> result = 1371)
  /\ ((forall w ip, (dial w ip).1 = false) -> err = None -> result = 1131).
Proof.
  cbv zeta. unfold DiscoverOptimalMTU.
  cbn [remoteAddr currentMTU minMTU maxMTU NewMTUDiscovery].
  destruct (SplitHostPort remote) as [host|];
    [|cbn; repeat split; intros; discriminate].
  destruct (LookupIP w host) as [[[|ip ips]|] w1];
    try (cbn; repeat split; intros; discriminate).
  destruct (search_ends (Z.to_nat maxAttempts) w1 ip 576 1500 576)
    as (hf & E & Hb & H12 & Hup & Hdown); try lia.
  { vm_compute. reflexivity. }
  destruct (search dial (Z.to_nat maxAttempts) w1 ip 576 1500 576)
    as [[optimal probed] w2].
  cbn [fst snd] in *. subst optimal.
  destruct (budget_values (Z.max 576 hf)) as (Hr & H1500 & H1200).
  split; [|split].
  - intros _. apply Hr. lia.
  - intros Hall _. rewrite (Hup Hall). exact H1500.
  - intros Hall _. rewrite (Hdown Hall) by lia. exact H1200.
Qed.

End MTUMore.

Section NetworkType.
Import MTU.

Lemma detect_values ifaces :
  detect ifaces = "wifi" \/ detect ifaces = "pppoe" \/ detect ifaces = "ethernet".
Proof.
  induction ifaces as [|iface ifaces IH]; cbn [detect]; [auto|].
  repeat (match goal with |- context [if ?b then _ else _] => destruct b end;
          auto).
Qed.

(** X17. The network type detected from the interfaces is "wifi", "pppoe"
    or "ethernet", never "mobile" or "vpn"; so the MTU recommended for it is
    1343 for "pppoe" and 1371 otherwise.  Interfaces that are down or
    loopback, and names shorter than two characters or with another prefix,
    do not count: the answer is that of the remaining interfaces.  For every
    network type, known or not, the recommendation is between 1200 and
    1371. *)
Theorem AutoDetectNetworkType_recommendation ifaces :
  let t := AutoDetectNetworkType ifaces in
  (t = "wifi" \/ t = "pppoe" \/ t = "ethernet")
  /\ GetRecommendedMTU t = (if String.eqb t "pppoe" then 1343 else 1371)
  /\ (forall iface rest,
        Z.land (Flags iface) FlagUp = 0 \/ Z.land (Flags iface) FlagLoopback <> 0
        \/ (String.length (Name iface) < 2)%nat ->
        AutoDetectNetworkType (Some (iface :: rest))
        = AutoDetectNetworkType (Some rest))
  /\ (forall networkType, 1200 <= GetRecommendedMTU networkType <= 1371).
Proof.
  cbv zeta. split; [|split; [|split]].
  - destruct ifaces as [ifaces|]; cbn; [apply detect_values | auto].
  - assert (H : AutoDetectNetworkType ifaces = "wifi"
                \/ AutoDetectNetworkType ifaces = "pppoe"
                \/ AutoDetectNetworkType ifaces = "ethernet")
      by (destruct ifaces as [ifaces|]; cbn; [apply detect_values | auto]).
    destruct H as [-> | [-> | ->]]; reflexivity.
  - intros iface rest H. cbn [AutoDetectNetworkType detect].
    destruct (Z.eqb_spec (Z.land (Flags iface) FlagUp) 0); [reflexivity|].
    destruct (Z.eqb_spec (Z.land (Flags iface) FlagLoopback) 0);
      [|reflexivity]. cbn [negb].
    destruct (Z.leb_spec 2 (Z.of_nat (String.length (Name iface))));
      [|reflexivity].
    destruct H as [H | [H | H]]; [congruence | congruence | lia].
  - intros networkType. unfold GetRecommendedMTU.
    repeat (match goal with |- context [if ?b then _ else _] => destruct b end);
      lia.
Qed.

End NetworkType.

(** ** Opening a raw socket *)

Ltac sys_step sys :=
  match goal with
  | |- context [sys ?w ?c] =>
      let v := fresh "v" in
      let e := fresh "e" in
      let w' := fresh "w" in
      destruct (sys w c) as [[v [e|]] w']; cbn [fst snd]
  end.

Section RawSocketSetup.
Import Bytes RawSocket.
Context {World : Type}.
Variable sys : World -> syscall -> (Z * option string) * World.

Lemma traced_eq w log c :
  traced sys (w, log) c
  = ((sys w c).1, ((sys w c).2, log ++ [(c, (sys w c).1)])).
Proof. unfold traced. destruct (sys w c); reflexivity. Qed.

(** X18. [NewRawSocket] leaks no descriptor: whatever the kernel answers
    to each call, when it returns an error every socket it opened has been
    closed, and when it succeeds the one descriptor left open is the one in
    the [RawSocket] returned, whose other fields are the arguments.  It
    binds only as a server with a local address. *)
Theorem NewRawSocket_no_leak (w : World) (lip : option IP) (lport : Z)
    (rip : option IP) (rport : Z) (srv : bool) :
  let plain := NewRawSocket sys w lip lport rip rport srv in
  let run := NewRawSocket (traced sys) (w, []) lip lport rip rport srv in
  let log := run.2.2 in
  run.1 = plain.1 /\ run.2.1 = plain.2
  /\ match plain.1 with
     | inl _ => open_fds log = []
     | inr rs =>
         open_fds log = [fd rs]
         /\ rs = {| fd := fd rs; localIP := lip; localPort := lport;
                    remoteIP := rip; remotePort := rport; isServer := srv |}
     end
  /\ (srv = false \/ lip = None -> Forall (fun e => is_bind e.1 = false) log).
Proof.
  cbv zeta. unfold NewRawSocket.
  rewrite traced_eq. sys_step sys.
  { cbn. repeat split. intros _. repeat constructor. }
  rewrite traced_eq. sys_step sys.
  { rewrite traced_eq. sys_step sys; cbn; rewrite Z.eqb_refl; cbn;
      repeat split; intros _; repeat constructor. }
  rewrite traced_eq. sys_step sys.
  { rewrite traced_eq. sys_step sys; cbn; rewrite Z.eqb_refl; cbn;
      repeat split; intros _; repeat constructor. }
  rewrite traced_eq.
  destruct (sys w2 (SetsockoptInt v SO_RCVBUF (4 * 1024 * 1024))) as [r3 w3].
  cbn [fst snd]. rewrite traced_eq.
  destruct (sys w3 (SetsockoptInt v SO_SNDBUF (4 * 1024 * 1024))) as [r4 w4].
  cbn [fst snd].
  destruct srv, lip as [ip|];
    try (cbn; destruct r3 as [? ?], r4 as [? ?]; cbn; repeat split;
         intros _; repeat constructor).
  rewrite traced_eq. sys_step sys.
  - rewrite traced_eq.
    destruct (sys w5 (Close v)) as [[v5 e5] w6].
    cbn. destruct r3 as [? ?], r4 as [? ?]; cbn. rewrite Z.eqb_refl. cbn.
    repeat split. intros [H|H]; discriminate H.
  - cbn. destruct r3 as [? ?], r4 as [? ?]; cbn.
    repeat split. intros [H|H]; discriminate H.
Qed.

End RawSocketSetup.

(** ** The mode switch *)

Section ModeSwitch.
Import FakeTCP.
Context {World Conn ConnRaw Listener ListenerRaw : Type}.
Variable Dial : World -> string -> Z -> (string + Conn) * World.
Variable DialRaw : World -> string -> Z -> (string + ConnRaw) * World.
Variable Listen : World -> string -> (string + Listener) * World.
Variable ListenRaw : World -> string -> (string + ListenerRaw) * World.

(** X19. Initially and after any sequence of [SetMode] calls,
    [EnableRawSocket] is set exactly when the current mode is [ModeRaw]; so
    [DialAuto] does what [DialWithMode] does for the mode [GetMode] reports,
    which is the last mode set, and [ListenWithMode] for that mode returns
    the listener of [ListenAuto] inside its wrapper.  Every mode other than
    [ModeRaw] selects the UDP transport. *)
Theorem auto_follows_mode (modes : list Mode) (w : World) (addr : string)
    (timeout : Z) :
  let s := foldl SetMode initial modes in
  GetMode s = default ModeUDP (last modes)
  /\ EnableRawSocket s = (GetMode s =? ModeRaw)
  /\ DialAuto Dial DialRaw s w addr timeout
     = DialWithMode Dial DialRaw w addr timeout (GetMode s)
  /\ ListenAuto Listen ListenRaw s w addr
     = tag unwrap (ListenWithMode Listen ListenRaw w addr (GetMode s))
  /\ (forall mode, mode <> ModeRaw ->
        DialWithMode Dial DialRaw w addr timeout mode
        = DialWithMode Dial DialRaw w addr timeout ModeUDP
        /\ ListenWithMode Listen ListenRaw w addr mode
           = ListenWithMode Listen ListenRaw w addr ModeUDP).
Proof.
  cbv zeta.
  assert (Hs : foldl SetMode initial modes
               = {| CurrentMode := default ModeUDP (last modes);
                    EnableRawSocket := (default ModeUDP (last modes) =? ModeRaw) |}).
  { destruct modes as [|m modes _] using rev_ind; [reflexivity|].
    rewrite foldl_app, last_snoc. reflexivity. }
  rewrite Hs. unfold GetMode. cbn [CurrentMode EnableRawSocket].
  split; [reflexivity|]. split; [reflexivity|].
  unfold DialAuto, ListenAuto, DialWithMode, ListenWithMode, tag.
  cbn [CurrentMode EnableRawSocket].
  split; [reflexivity|]. split.
  - destruct (default ModeUDP (last modes) =? ModeRaw).
    + destruct (ListenRaw w addr) as [[?|?] ?]; reflexivity.
    + destruct (Listen w addr) as [[?|?] ?]; reflexivity.
  - intros mode Hmode. destruct (Z.eqb_spec mode ModeRaw); [contradiction|].
    split; reflexivity.
Qed.

End ModeSwitch.

(** ** What [RecvPacket] reads *)

Section RecvReads.
Import Bytes RawSocket.

Lemma RecvPacket_small buf n :
  n < 40 -> RecvPacket buf (inl n) = Err (ErrPacketTooSmall n).
Proof.
  intros Hn. unfold RecvPacket, IPHeaderSize, TCPHeaderSize.
  change (20 + 20) with 40. destruct (Z.ltb_spec n 40); [reflexivity|lia].
Qed.

(** The result depends on the buffer through the bytes 0, 9 and 12 to 19,
    the first fourteen bytes at the IHL, and the bytes from the data offset
    up to [n]. *)
Lemma RecvPacket_ext buf buf' n :
  n <= len buf -> n <= len buf' ->
  let ihl := Z.to_nat (ip_header_len buf) in
  let start :=
    Z.to_nat (ip_header_len buf
              + tcp_data_offset (drop (Z.to_nat (ip_header_len buf)) buf) * 4) in
  (forall j, (j < Z.to_nat n)%nat ->
     (j = 0 \/ j = 9 \/ 12 <= j <= 19 \/ ihl <= j < ihl + 14 \/ start <= j)%nat ->
     buf' !! j = buf !! j) ->
  RecvPacket buf' (inl n) = RecvPacket buf (inl n).
Proof.
  intros Hb Hb' ihl start Hsame.
  destruct (Z.lt_ge_cases n 40) as [Hn|Hn].
  { now rewrite !RecvPacket_small. }
  rewrite !RecvPacket_eval by assumption. cbv zeta.
  assert (H0 : forall j, (j = 0 \/ j = 9 \/ 12 <= j <= 19)%nat ->
                         byte_at buf' j = byte_at buf j).
  { intros j Hj. unfold byte_at. rewrite Hsame; [reflexivity|lia|lia]. }
  assert (Ei : ip_header_len buf' = ip_header_len buf)
    by (unfold ip_header_len; rewrite H0 by lia; reflexivity).
  assert (Ep : ip_protocol buf' = ip_protocol buf)
    by (unfold ip_protocol; rewrite H0 by lia; reflexivity).
  rewrite Ei, Ep. fold ihl.
  pose proof (ip_header_len_range buf) as Hi.
  destruct (Z.ltb_spec n (ip_header_len buf)); [reflexivity|].
  destruct (negb (ip_protocol buf =? IPPROTO_TCP)); [reflexivity|].
  unfold TCPHeaderSize.
  destruct (Z.ltb_spec n (ip_header_len buf + 20)); [reflexivity|].
  assert (Ht : forall k, (k < 14)%nat ->
                         byte_at (drop ihl buf') k = byte_at (drop ihl buf) k).
  { intros k Hk. unfold byte_at. rewrite !lookup_drop.
    rewrite Hsame; [reflexivity| |]; unfold ihl; lia. }
  assert (Ed : tcp_data_offset (drop ihl buf') = tcp_data_offset (drop ihl buf))
    by (unfold tcp_data_offset; rewrite Ht by lia; reflexivity).
  rewrite Ed, !H0, !Ht by lia. fold start.
  pose proof (tcp_data_offset_range (drop ihl buf)) as Hd.
  set (ps := ip_header_len buf + tcp_data_offset (drop ihl buf) * 4) in *.
  f_equal. destruct (Z.ltb_spec ps n); [|reflexivity].
  f_equal. apply (f_equal Some).
  apply list_eq. intros k.
  destruct (decide (k < Z.to_nat (n - ps))%nat) as [Hk|Hk].
  - rewrite !lookup_take_lt, !lookup_drop by exact Hk.
    assert (Es : start = Z.to_nat ps) by reflexivity.
    assert (Hps : 0 <= ps) by (unfold ps; lia).
    apply Hsame; lia.
  - rewrite !lookup_take_ge by lia. reflexivity.
Qed.

(** X20. [RecvPacket] reads only the [n] bytes that were received: what
    the buffer holds behind them (left over from an earlier, longer packet)
    never reaches the result. *)
Theorem RecvPacket_reads_received buf buf' n :
  n <= len buf -> n <= len buf' ->
  take (Z.to_nat n) buf' = take (Z.to_nat n) buf ->
  RecvPacket buf' (inl n) = RecvPacket buf (inl n).
Proof.
  intros Hb Hb' Htake. apply RecvPacket_ext; try assumption.
  intros j Hj _.
  rewrite <- (lookup_take_lt buf' (Z.to_nat n) j) by exact Hj.
  rewrite <- (lookup_take_lt buf (Z.to_nat n) j) by exact Hj.
  now rewrite Htake.
Qed.

(** X21. [RecvPacket] verifies no checksum and no length field.  A byte of
    the IP header other than the IHL byte, the protocol and the addresses
    (so: type of service, total length, identification, fragment, TTL, IP
    checksum, IP options), and a byte of the TCP header from the window on
    (window, TCP checksum, urgent pointer, TCP options) can hold any value:
    the segment returned is the same. *)
Theorem RecvPacket_ignores_checksums buf n i b :
  n <= len buf ->
  let ihl := ip_header_len buf in
  let doff := tcp_data_offset (drop (Z.to_nat ihl) buf) in
  i <> 0%nat -> i <> 9%nat -> ~ (12 <= i <= 19)%nat ->
  Z.of_nat i < ihl \/ ihl + 14 <= Z.of_nat i < ihl + 4 * doff ->
  RecvPacket (<[i := b]> buf) (inl n) = RecvPacket buf (inl n).
Proof.
  intros Hb ihl doff H0 H9 H12 Hwhere. subst ihl doff.
  pose proof (ip_header_len_range buf) as Hi.
  pose proof (tcp_data_offset_range
                (drop (Z.to_nat (ip_header_len buf)) buf)) as Hd.
  apply RecvPacket_ext.
  - exact Hb.
  - unfold len in *. now rewrite length_insert.
  - cbv zeta. intros j Hj Hrel.
    apply list_lookup_insert_ne. lia.
Qed.

End RecvReads.

Section RecvReadsWitnesses.
Import Bytes RawSocket RawSocketExamples.

Lemma RecvPacket_reads_received_witness :
  RecvPacket (sample_packet ++ [Byte.xff; Byte.xff]) (inl 47)
  = RecvPacket (sample_packet ++ [Byte.x00]) (inl 47).
Proof.
  apply RecvPacket_reads_received.
  - vm_compute. discriminate.
  - vm_compute. discriminate.
  - reflexivity.
Defined.

Lemma RecvPacket_ignores_checksums_witness :
  RecvPacket (<[36%nat := Byte.xff]> sample_packet) (inl 47)
  = RecvPacket sample_packet (inl 47).
Proof.
  apply RecvPacket_ignores_checksums.
  - vm_compute. discriminate.
  - discriminate.
  - discriminate.
  - lia.
  - right. vm_compute. split; [discriminate | reflexivity].
Defined.

End RecvReadsWitnesses.

(** ** What the checksum cannot tell apart *)

Section ChecksumOrder.
Import Bytes RawSocket InternetChecksum.

Lemma total_swap a x y b :
  Nat.Even (length a) -> Nat.Even (length x) -> Nat.Even (length y) ->
  total (a ++ x ++ y ++ b) = total (a ++ y ++ x ++ b).
Proof.
  intros Ha Hx Hy. rewrite !total_app_even by assumption. lia.
Qed.

(** X22. The checksum does not see the order of the 16-bit words: two
    neighbouring blocks of even length, at an even offset, can be exchanged
    without changing it. *)
Theorem CalculateChecksum_block_order a x y b :
  Nat.Even (length a) -> Nat.Even (length x) -> Nat.Even (length y) ->
  CalculateChecksum (a ++ x ++ y ++ b) = CalculateChecksum (a ++ y ++ x ++ b).
Proof.
  intros Ha Hx Hy. rewrite !CalculateChecksum_eq.
  now rewrite (total_swap a x y b).
Qed.

Lemma CalculateChecksum_block_order_witness :
  CalculateChecksum ([Byte.x45; Byte.x00] ++ [Byte.x12; Byte.x34]
                     ++ [Byte.xab; Byte.xcd; Byte.x00; Byte.x01] ++ [Byte.x07])
  = CalculateChecksum ([Byte.x45; Byte.x00]
                       ++ [Byte.xab; Byte.xcd; Byte.x00; Byte.x01]
                       ++ [Byte.x12; Byte.x34] ++ [Byte.x07]).
Proof.
  apply CalculateChecksum_block_order.
  - exists 1%nat. reflexivity.
  - exists 1%nat. reflexivity.
  - exists 2%nat. reflexivity.
Defined.

(** X23. The TCP checksum is the same when the source and the destination
    address are exchanged, for every pair of addresses, header and
    payload. *)
Theorem CalculateTCPChecksum_symmetric src dst tcpHeader payload :
  CalculateTCPChecksum src dst tcpHeader payload
  = CalculateTCPChecksum dst src tcpHeader payload.
Proof.
  unfold CalculateTCPChecksum.
  rewrite !checksum_input_eq, !pseudo_header_eq, !CalculateChecksum_eq.
  rewrite <- !app_assoc.
  assert (E4 : forall ip, Nat.Even (length (copy (make 4) (To4 ip))))
    by (intros ip; rewrite length_copy; exists 2%nat; reflexivity).
  match goal with
  | |- context [total (?x ++ ?y ++ ?r)] =>
      pose proof (total_swap [] x y r) as Hsw
  end.
  assert (Hsw' := Hsw ltac:(exists 0%nat; reflexivity) (E4 src) (E4 dst)).
  exact (f_equal (fun t => 65535 - oc_norm (wrap32 t)) Hsw').
Qed.

(** X24. An address that is not IPv4 (neither 4 bytes nor 16 bytes with the
    IPv4-in-IPv6 prefix) is written as 0.0.0.0: the header is built all the
    same, and its checksum verifies. *)
Theorem BuildIPHeader_non_ipv4 src dst proto n :
  let h := BuildIPHeader src dst proto n in
  (length src <> 4%nat -> length src <> 16%nat -> To4 src = [])
  /\ (To4 src = [] -> take 4 (drop 12 h) = make 4)
  /\ (To4 dst = [] -> take 4 (drop 16 h) = make 4)
  /\ length h = 20%nat /\ CalculateChecksum h = 0.
Proof.
  cbv zeta. split; [|split; [|split; [|split]]].
  - intros H4 H16. unfold To4.
    destruct (Nat.eqb_spec (length src) 4); [contradiction|].
    destruct (Nat.eqb_spec (length src) 16); [contradiction|]. reflexivity.
  - intros Hs. unfold BuildIPHeader. cbv zeta. rewrite Hs.
    destruct (To4_length dst) as [Ed|Ld].
    + rewrite Ed. reflexivity.
    + destruct (To4 dst) as [|d0 [|d1 [|d2 [|d3 [|]]]]]; try discriminate Ld.
      reflexivity.
  - intros Hd. unfold BuildIPHeader. cbv zeta. rewrite Hd.
    destruct (To4_length src) as [Es|Ls].
    + rewrite Es. reflexivity.
    + destruct (To4 src) as [|s0 [|s1 [|s2 [|s3 [|]]]]]; try discriminate Ls.
      reflexivity.
  - apply length_BuildIPHeader.
  - apply BuildIPHeader_verifies.
Qed.

End ChecksumOrder.

(** ** What a successful [Decode] implies, and the probes of the search *)

Section DecodeAccepts.
Import Bytes FEC.
Context {RS : ReedSolomon}.

Lemma first_shard_size_nonneg shards : forall present,
  0 <= first_shard_size shards present.
Proof.
  induction shards as [|s shards IH]; intros [|p present]; cbn; try lia.
  destruct (p && bool_decide (s <> None) && (0 <? shard_len s)) eqn:E; [|apply IH].
  apply andb_prop in E as [_ E]. apply Z.ltb_lt in E. lia.
Qed.

Lemma inconsistent_false sz shards : forall present,
  inconsistent sz shards present = false ->
  forall i b, present !! i = Some true -> shards !! i = Some (Some b) ->
              len b = sz.
Proof.
  induction shards as [|s shards IH]; intros [|p present] H i b Hp Hs;
    try discriminate.
  cbn [inconsistent] in H. apply orb_false_elim in H as [H1 H2].
  destruct i as [|i]; cbn in Hp, Hs.
  - injection Hp as ->. injection Hs as ->.
    rewrite bool_decide_eq_true_2 in H1 by discriminate. cbn in H1.
    apply negb_false_iff, Z.eqb_eq in H1. exact H1.
  - eapply IH; eauto.
Qed.

Lemma first_shard_size_found shards : forall present,
  first_shard_size shards present <> 0 ->
  exists i b, present !! i = Some true /\ shards !! i = Some (Some b)
              /\ len b = first_shard_size shards present.
Proof.
  induction shards as [|s shards IH]; intros [|p present] H;
    cbn [first_shard_size] in *; try contradiction.
  destruct (p && bool_decide (s <> None) && (0 <? shard_len s)) eqn:E.
  - apply andb_prop in E as [E _]. apply andb_prop in E as [Ep Es].
    destruct p; [|discriminate Ep]. destruct s as [b|].
    + exists 0%nat, b. repeat split.
    + apply bool_decide_eq_true in Es. contradiction.
  - destruct (IH present H) as (i & b & Hp & Hs & Hl).
    exists (S i), b. auto.
Qed.

(** X25. [Decode] returns data only for a well-formed call: the shard
    array has [TotalShards] entries, the mask has as many, at least
    [DataShards] shards are marked present, at least one shard marked
    present is non-nil, and all the non-nil shards marked present have one
    size, which is positive.  (A nil shard marked present is not looked at
    here: it goes to the encoder as it is.)  This holds for every
    encoder. *)
Theorem Decode_ok_wellformed (f : FEC) shards present out :
  Decode f shards present = Ok out ->
  len shards = TotalShards f /\ len present = len shards
  /\ DataShards f <= presentCount present
  /\ exists sz, 0 < sz
       /\ (exists i b, present !! i = Some true
                       /\ shards !! i = Some (Some b) /\ len b = sz)
       /\ forall i b, present !! i = Some true ->
                      shards !! i = Some (Some b) -> len b = sz.
Proof.
  unfold Decode, TotalShards, DataShards. intros H.
  destruct (Z.eqb_spec (len shards) (dataShards f + parityShards f));
    [|discriminate H]. cbn [negb] in H.
  destruct (Z.eqb_spec (len present) (len shards)); [|discriminate H].
  cbn [negb] in H.
  destruct (Z.ltb_spec (presentCount present) (dataShards f));
    [discriminate H|].
  pose proof (first_shard_size_nonneg shards present) as Hnn.
  destruct (Z.eqb_spec (first_shard_size shards present) 0) as [|Hnz];
    [discriminate H|].
  destruct (inconsistent (first_shard_size shards present) shards present)
    eqn:Hinc; [discriminate H|].
  split; [assumption|]. split; [assumption|]. split; [assumption|].
  exists (first_shard_size shards present). split; [lia|].
  split; [now apply first_shard_size_found|].
  now apply inconsistent_false.
Qed.

End DecodeAccepts.

Section DecodeAcceptsWitness.
Import Bytes FEC.

Lemma Decode_ok_wellformed_witness :
  len [Some [XorCode.A; XorCode.B]; None; Some [XorCode.C; XorCode.A]]
  = @TotalShards XorCode.xor_code XorCode.fec212
  /\ len [true; false; true]
     = len [Some [XorCode.A; XorCode.B]; None; Some [XorCode.C; XorCode.A]]
  /\ @DataShards XorCode.xor_code XorCode.fec212
     <= presentCount [true; false; true]
  /\ exists sz, 0 < sz
       /\ (exists i b, [true; false; true] !! i = Some true
              /\ [Some [XorCode.A; XorCode.B]; None;
                  Some [XorCode.C; XorCode.A]] !! i = Some (Some b)
              /\ len b = sz)
       /\ forall i b, [true; false; true] !! i = Some true ->
            [Some [XorCode.A; XorCode.B]; None; Some [XorCode.C; XorCode.A]] !! i
            = Some (Some b) -> len b = sz.
Proof.
  destruct (@Decode XorCode.xor_code XorCode.fec212
              [Some [XorCode.A; XorCode.B]; None; Some [XorCode.C; XorCode.A]]
              [true; false; true]) as [out|e] eqn:E;
    [|vm_compute in E; discriminate E].
  exact (@Decode_ok_wellformed XorCode.xor_code XorCode.fec212 _ _ out E).
Defined.

End DecodeAcceptsWitness.

Section SearchProbes.
Import MTU.
Context {World : Type}.
Variable SplitHostPort : string -> option string.
Variable LookupIP : World -> string -> option (list string) * World.
Variable dial : World -> string -> bool * World.

(** After a size passed the loop probes only larger sizes, after a size
    failed only smaller ones. *)
Lemma search_sorted remaining : forall w ip low high optimal,
  0 <= low ->
  NoDup (search dial remaining w ip low high optimal).1.2.
Proof.
  induction remaining as [|n IH]; intros w ip low high optimal Hlow.
  - cbn. constructor.
  - cbn [search].
    destruct (Z.leb_spec low high) as [Hle|Hgt]; [|cbn; constructor].
    set (mtu := Z.quot (low + high) 2).
    assert (Hmid : low <= mtu <= high).
    { unfold mtu. rewrite Z.quot_div_nonneg by lia.
      pose proof (Z.div_mod (low + high) 2 ltac:(lia)).
      pose proof (Z.mod_pos_bound (low + high) 2 ltac:(lia)). lia. }
    destruct (testMTU dial w ip mtu) as [ok w1].
    destruct ok.
    + pose proof (search_spec dial n w1 ip (mtu + 1) high mtu ltac:(lia)) as Hs.
      specialize (IH w1 ip (mtu + 1) high mtu ltac:(lia)).
      cbv zeta in Hs.
      destruct (search dial n w1 ip (mtu + 1) high mtu) as [[opt probed] w2].
      cbn [fst snd] in *. destruct Hs as (_ & Hr & _).
      constructor; [|exact IH].
      intros Hin. apply (proj1 (Forall_forall _ _) Hr) in Hin. lia.
    + pose proof (search_spec dial n w1 ip low (mtu - 1) optimal Hlow) as Hs.
      specialize (IH w1 ip low (mtu - 1) optimal Hlow).
      cbv zeta in Hs.
      destruct (search dial n w1 ip low (mtu - 1) optimal) as [[opt probed] w2].
      cbn [fst snd] in *. destruct Hs as (_ & Hr & _).
      constructor; [|exact IH].
      intros Hin. apply (proj1 (Forall_forall _ _) Hr) in Hin. lia.
Qed.

Lemma search_first n w ip low high optimal :
  low <= high ->
  head (search dial (S n) w ip low high optimal).1.2
  = Some (Z.quot (low + high) 2).
Proof.
  intros Hle. cbn [search].
  destruct (Z.leb_spec low high); [|lia].
  destruct (testMTU dial w ip (Z.quot (low + high) 2)) as [[|] w1].
  - destruct (search dial n w1 ip (Z.quot (low + high) 2 + 1) high
                (Z.quot (low + high) 2)) as [[opt probed] w2].
    reflexivity.
  - destruct (search dial n w1 ip low (Z.quot (low + high) 2 - 1) optimal)
      as [[opt probed] w2].
    reflexivity.
Qed.

(** X26. [DiscoverOptimalMTU] never probes a size twice, on any network;
    its first probe, when it makes one, is 1038. *)
Theorem DiscoverOptimalMTU_probes_distinct (remote : string) (initial : Z)
    (w : World) :
  let probed := (DiscoverOptimalMTU SplitHostPort LookupIP dial
                   (NewMTUDiscovery remote initial) w).1.2 in
  NoDup probed /\ (probed = [] \/ head probed = Some 1038).
Proof.
  cbv zeta. unfold DiscoverOptimalMTU.
  cbn [remoteAddr currentMTU minMTU maxMTU NewMTUDiscovery].
  destruct (SplitHostPort remote) as [host|];
    [|cbn; split; [constructor | now left]].
  destruct (LookupIP w host) as [[[|ip ips]|] w1];
    try (cbn; split; [constructor | now left]).
  pose proof (search_sorted (Z.to_nat maxAttempts) w1 ip 576 1500 576
                ltac:(lia)) as Hs.
  pose proof (search_first 9 w1 ip 576 1500 576 ltac:(lia)) as Hf.
  change (S 9) with (Z.to_nat maxAttempts) in Hf.
  destruct (search dial (Z.to_nat maxAttempts) w1 ip 576 1500 576)
    as [[opt probed] w2].
  cbn [fst snd] in *. split; [exact Hs | right; exact Hf].
Qed.

End SearchProbes.
